(** * The plugin runtime of TrinityCore-modular-system

    A shallow embedding of [src/server/game/Plugins/PluginManager.cpp]
    with the declarations of [PluginManager.h], of the interfaces of
    [IPlugin.h] and of the lifecycle methods of [Examples/ExamplePlugin],
    followed by the properties of the load-order computation, of event
    dispatch and of the lifecycle that the specification states about
    them.  The directory scan of [LoadAllPlugins], the session statistics
    and the periodic update of [Examples/ExamplePlugin] and the typed
    accessors of [PluginConfig.h] are embedded as well, with the
    properties the code shows for them and for the manager as a whole.

    Conventions of the embedding.
    - A C++ member function that mutates the manager takes the manager
      value and returns the new one, next to its C++ return value.
    - Calls that leave the process (dlopen, dlclose, the factory, and the
      virtual lifecycle methods of a plugin) are appended to a trace kept in
      the manager value; the trace is the only field without a C++
      counterpart.
    - The mutexes are not modelled: every function is the sequential
      behaviour of its body.
    - A recursion that C++ does not bound takes a fuel argument and returns
      [None] when the fuel runs out. *)

From Stdlib Require Import List String Ascii Bool Arith ZArith Lia.
From Stdlib Require Import Permutation Sorted Relations.
Import ListNotations.
Local Open Scope string_scope.
Local Open Scope list_scope.

Set Implicit Arguments.

(** ** IPlugin.h: enumerations and the descriptor *)

Inductive PluginState : Type :=
| UNLOADED | LOADING | LOADED | INITIALIZING
| INITIALIZED | RUNNING | STOPPING | ERROR.

Inductive PluginPriority : Type :=
| LOWEST | LOW | NORMAL | HIGH | HIGHEST | CRITICAL.

(** The underlying [uint8] values of the two enumerations. *)
Definition state_value (s : PluginState) : nat :=
  match s with
  | UNLOADED => 0 | LOADING => 1 | LOADED => 2 | INITIALIZING => 3
  | INITIALIZED => 4 | RUNNING => 5 | STOPPING => 6 | ERROR => 7
  end.

Definition priority_value (p : PluginPriority) : nat :=
  match p with
  | LOWEST => 0 | LOW => 1 | NORMAL => 2
  | HIGH => 3 | HIGHEST => 4 | CRITICAL => 5
  end.

(** [operator==] on [PluginState]. *)
Definition state_eqb (a b : PluginState) : bool :=
  Nat.eqb (state_value a) (state_value b).

(** [operator>] on [PluginPriority], as used by the sort comparator. *)
Definition priority_gtb (a b : PluginPriority) : bool :=
  Nat.ltb (priority_value b) (priority_value a).

Record PluginInfo : Type := mkPluginInfo {
  name : string;
  version : string;
  author : string;
  description : string;
  website : string;
  dependencies : list string;
  priority : PluginPriority;
  autoLoad : bool
}.

(** An [IEventHandler*]: the address of a handler object. *)
Definition IEventHandler : Type := nat.

(** The pure-virtual part of [class IPlugin], over the type [P] of plugin
    objects.  A non-const method returns the object after the call. *)
Class IPlugin (P : Type) : Type := {
  Load : P -> bool * P;
  Initialize : P -> bool * P;
  Start : P -> P;
  Stop : P -> P;
  Unload : P -> P;
  GetInfo : P -> PluginInfo;
  GetState : P -> PluginState;
  GetEventHandler : P -> option IEventHandler;
  GetDependencies : P -> list string;
  CheckDependencies : P -> bool
}.

(** ** Examples/ExamplePlugin: the lifecycle methods

    The data members the lifecycle touches; the descriptor, the dependency
    list and the handler are fields so that the record stands for any
    plugin written after this one. *)
Record ExamplePlugin : Type := mkExamplePlugin {
  _info : PluginInfo;
  _dependencies : list string;
  _eventHandler : option IEventHandler;
  _state : PluginState
}.

Definition set_state (s : PluginState) (p : ExamplePlugin) : ExamplePlugin :=
  {| _info := _info p; _dependencies := _dependencies p;
     _eventHandler := _eventHandler p; _state := s |}.

(** Every method assigns [_state] once or twice; [*_states] lists the
    assignments in order and the method leaves the last one. *)
Definition Load_states : list PluginState := [LOADING; LOADED].
Definition Initialize_states : list PluginState := [INITIALIZING; INITIALIZED].
Definition Start_states : list PluginState := [RUNNING].
Definition Stop_states : list PluginState := [STOPPING; LOADED].
Definition Unload_states : list PluginState := [UNLOADED].

Definition assign_states (ss : list PluginState) (p : ExamplePlugin)
  : ExamplePlugin :=
  fold_left (fun q s => set_state s q) ss p.

Definition ExamplePlugin_Load (p : ExamplePlugin) : bool * ExamplePlugin :=
  (true, assign_states Load_states p).

Definition ExamplePlugin_Initialize (p : ExamplePlugin) : bool * ExamplePlugin :=
  (true, assign_states Initialize_states p).

Definition ExamplePlugin_Start (p : ExamplePlugin) : ExamplePlugin :=
  assign_states Start_states p.

Definition ExamplePlugin_Stop (p : ExamplePlugin) : ExamplePlugin :=
  assign_states Stop_states p.

Definition ExamplePlugin_Unload (p : ExamplePlugin) : ExamplePlugin :=
  assign_states Unload_states p.

(** [ExamplePlugin::CheckDependencies] returns [true]. *)
Definition ExamplePlugin_CheckDependencies (_ : ExamplePlugin) : bool := true.

#[global] Instance ExamplePlugin_IPlugin : IPlugin ExamplePlugin := {
  Load := ExamplePlugin_Load;
  Initialize := ExamplePlugin_Initialize;
  Start := ExamplePlugin_Start;
  Stop := ExamplePlugin_Stop;
  Unload := ExamplePlugin_Unload;
  GetInfo := _info;
  GetState := _state;
  GetEventHandler := _eventHandler;
  GetDependencies := _dependencies;
  CheckDependencies := ExamplePlugin_CheckDependencies
}.

(** ** The associative containers of the manager

    [_loadedPlugins] and [_eventHandlers] are declared in
    [PluginManager.h] as [std::unordered_map] keyed by plugin name.  The
    order in which such a map is iterated is left open by the language, so
    the place a fresh key takes in the iteration order is a parameter,
    [slot].  A table is the list of bindings in iteration order.  A rehash,
    which may reorder the bindings, is not modelled: only the two dispatch
    examples below depend on the order of a table. *)
Module Table.
Section Ops.
Variable V : Type.
Variable slot : string -> list string -> nat.

Definition t : Type := list (string * V).

Definition keys (m : t) : list string := map fst m.

Fixpoint find (k : string) (m : t) : option V :=
  match m with
  | [] => None
  | (k', v) :: m' => if String.eqb k k' then Some v else find k m'
  end.

(** [erase(key)]: no binding of [k] remains. *)
Definition erase (k : string) (m : t) : t :=
  filter (fun kv => negb (String.eqb k (fst kv))) m.

Fixpoint replace (k : string) (v : V) (m : t) : t :=
  match m with
  | [] => []
  | (k', v') :: m' =>
      if String.eqb k k' then (k', v) :: m' else (k', v') :: replace k v m'
  end.

(** [m[k] = v]: an existing binding is overwritten where it is, a fresh
    key is placed by the container. *)
Definition assign (k : string) (v : V) (m : t) : t :=
  match find k m with
  | Some _ => replace k v m
  | None =>
      let i := slot k (keys m) in
      firstn i m ++ (k, v) :: skipn i m
  end.
End Ops.
End Table.

(** Two placements used in the examples below.  [ordered_slot] keeps
    the keys in ascending order (strings compared as sequences of
    character codes); [front_slot] puts a fresh key first, as a hash table
    does that links a new node at the head of its element list. *)
Fixpoint string_ltb (a b : string) : bool :=
  match a, b with
  | EmptyString, EmptyString => false
  | EmptyString, String _ _ => true
  | String _ _, EmptyString => false
  | String x a', String y b' =>
      if Nat.ltb (nat_of_ascii x) (nat_of_ascii y) then true
      else if Nat.ltb (nat_of_ascii y) (nat_of_ascii x) then false
      else string_ltb a' b'
  end.

Definition ordered_slot (k : string) (ks : list string) : nat :=
  List.length (filter (fun k' => string_ltb k' k) ks).

Definition front_slot (_ : string) (_ : list string) : nat := 0.

(** ** PluginManager.cpp: the manager state *)

Inductive Method : Type :=
| MLoad | MInitialize | MStart | MStop | MUnload.

(** What the manager does outside its own fields. *)
Inductive Effect : Type :=
| EDlopen (path : string) (h : nat)        (* dlopen returned handle h *)
| EDlclose (h : nat)                       (* dlclose(h) *)
| ECreate (path : string)                  (* createFunc() *)
| ECall (plugin : string) (m : Method)     (* plugin->m() *)
| EDestroy (last : PluginState).           (* plugin.reset() on an instance *)

Section Manager.
Context {P : Type} {PI : IPlugin P}.

(** Where the container places a fresh key. *)
Variable slot : string -> list string -> nat.

(** [struct LoadedPlugin].  [createFunc] is [None] for a null pointer
    and [Some r] for a factory whose call returns [r]; a null
    [unique_ptr] is [None]. *)
Record LoadedPlugin : Type := mkLoadedPlugin {
  handle : option nat;
  createFunc : option (option P);
  destroyFunc : bool;
  plugin : option P;
  filePath : string
}.

Definition empty_LoadedPlugin : LoadedPlugin :=
  {| handle := None; createFunc := None; destroyFunc := false;
     plugin := None; filePath := "" |}.

Definition with_plugin (q : option P) (lp : LoadedPlugin) : LoadedPlugin :=
  {| handle := handle lp; createFunc := createFunc lp;
     destroyFunc := destroyFunc lp; plugin := q; filePath := filePath lp |}.

Record PluginManager : Type := mkPluginManager {
  _loadedPlugins : Table.t LoadedPlugin;
  _eventHandlers : Table.t IEventHandler;
  _lastError : string;
  _trace : list Effect
}.

Definition empty_manager : PluginManager :=
  {| _loadedPlugins := []; _eventHandlers := [];
     _lastError := ""; _trace := [] |}.

Definition set_plugins (t : Table.t LoadedPlugin) (m : PluginManager) :=
  {| _loadedPlugins := t; _eventHandlers := _eventHandlers m;
     _lastError := _lastError m; _trace := _trace m |}.

Definition set_handlers (t : Table.t IEventHandler) (m : PluginManager) :=
  {| _loadedPlugins := _loadedPlugins m; _eventHandlers := t;
     _lastError := _lastError m; _trace := _trace m |}.

Definition set_error (e : string) (m : PluginManager) :=
  {| _loadedPlugins := _loadedPlugins m; _eventHandlers := _eventHandlers m;
     _lastError := e; _trace := _trace m |}.

Definition emit (es : list Effect) (m : PluginManager) :=
  {| _loadedPlugins := _loadedPlugins m; _eventHandlers := _eventHandlers m;
     _lastError := _lastError m; _trace := _trace m ++ es |}.

(** What the platform answers during one call of [LoadPlugin]. *)
Record Library : Type := mkLibrary {
  lib_handle : nat;
  lib_CreatePlugin : option (option P);
  lib_DestroyPlugin : bool
}.

Record Platform : Type := mkPlatform {
  fs_exists : string -> bool;
  dl_open : string -> option Library;
  dl_error : string
}.

(** *** Library binding *)

Definition UnloadPluginLibrary (m : PluginManager) (lp : LoadedPlugin)
  : PluginManager * LoadedPlugin :=
  let m1 :=
    match handle lp with
    | Some h => emit [EDlclose h] m
    | None => m
    end in
  let m2 :=
    match plugin lp with
    | Some p => emit [EDestroy (GetState p)] m1
    | None => m1
    end in
  (m2, {| handle := None; createFunc := None; destroyFunc := false;
          plugin := None; filePath := filePath lp |}).

Definition LoadPluginLibrary (pf : Platform) (path : string)
    (m : PluginManager) (lp : LoadedPlugin)
  : bool * PluginManager * LoadedPlugin :=
  match dl_open pf path with
  | None =>
      (false,
       set_error ("Failed to load library: " ++ path ++ " ("
                  ++ dl_error pf ++ ")") m,
       {| handle := None; createFunc := createFunc lp;
          destroyFunc := destroyFunc lp;
          plugin := plugin lp; filePath := filePath lp |})
  | Some lib =>
      let m1 := emit [EDlopen path (lib_handle lib)] m in
      let lp1 := {| handle := Some (lib_handle lib);
                    createFunc := lib_CreatePlugin lib;
                    destroyFunc := lib_DestroyPlugin lib;
                    plugin := plugin lp; filePath := filePath lp |} in
      match createFunc lp1 with
      | None =>
          let m2 := set_error
            ("Plugin does not export CreatePlugin function: " ++ path) m1 in
          let '(m3, lp2) := UnloadPluginLibrary m2 lp1 in
          (false, m3, lp2)
      | Some made =>
          (true, emit [ECreate path] m1,
           {| handle := handle lp1; createFunc := createFunc lp1;
              destroyFunc := destroyFunc lp1;
              plugin := made; filePath := path |})
      end
  end.

Definition ValidatePlugin (m : PluginManager) (q : option P)
  : bool * PluginManager :=
  match q with
  | None => (false, m)
  | Some p =>
      let info := GetInfo p in
      if String.eqb (name info) "" then
        (false, set_error "Plugin name cannot be empty" m)
      else if String.eqb (version info) "" then
        (false, set_error ("Plugin version cannot be empty for plugin: "
                           ++ name info) m)
      else (true, m)
  end.

(** *** Event-handler table *)

Definition RegisterEventHandler (pluginName : string) (h : IEventHandler)
    (m : PluginManager) : PluginManager :=
  set_handlers (Table.assign slot pluginName h (_eventHandlers m)) m.

Definition UnregisterEventHandler (pluginName : string) (m : PluginManager)
  : PluginManager :=
  set_handlers (Table.erase pluginName (_eventHandlers m)) m.

(** *** Queries *)

Definition GetPlugin (m : PluginManager) (pluginName : string) : option P :=
  match Table.find pluginName (_loadedPlugins m) with
  | Some lp => plugin lp
  | None => None
  end.

Definition GetLoadedPluginNames (m : PluginManager) : list string :=
  Table.keys (_loadedPlugins m).

Definition CheckPluginDependencies (m : PluginManager) (pluginName : string)
  : bool :=
  match GetPlugin m pluginName with
  | None => false
  | Some p => CheckDependencies p
  end.

(** *** Loading and unloading *)

Definition LoadPlugin (pf : Platform) (path : string) (m : PluginManager)
  : bool * PluginManager :=
  if negb (fs_exists pf path) then
    (false, set_error ("Plugin file does not exist: " ++ path) m)
  else
    let '(ok, m1, lp) := LoadPluginLibrary pf path m empty_LoadedPlugin in
    if negb ok then (false, m1)
    else
      match plugin lp with
      | None =>
          let m2 := set_error
            ("Failed to create plugin instance from: " ++ path) m1 in
          (false, fst (UnloadPluginLibrary m2 lp))
      | Some p =>
          let '(valid, m2) := ValidatePlugin m1 (plugin lp) in
          if negb valid then (false, fst (UnloadPluginLibrary m2 lp))
          else
            let pluginName := name (GetInfo p) in
            match Table.find pluginName (_loadedPlugins m2) with
            | Some _ =>
                let m3 := set_error
                  ("Plugin already loaded: " ++ pluginName) m2 in
                (false, fst (UnloadPluginLibrary m3 lp))
            | None =>
                let '(loaded, p') := Load p in
                let m3 := emit [ECall pluginName MLoad] m2 in
                let lp' := with_plugin (Some p') lp in
                if negb loaded then
                  let m4 := set_error
                    ("Plugin failed to load: " ++ pluginName) m3 in
                  (false, fst (UnloadPluginLibrary m4 lp'))
                else
                  (true,
                   set_plugins
                     (Table.assign slot pluginName lp' (_loadedPlugins m3))
                     m3)
            end
      end.

(** An entry of [_loadedPlugins] always holds an instance ([LoadPlugin]
    stores none without one); the branch for a null [plugin] below stands
    for a null dereference and is never taken from a reachable state. *)
Definition UnloadPlugin (pluginName : string) (m : PluginManager)
  : bool * PluginManager :=
  match Table.find pluginName (_loadedPlugins m) with
  | None => (false, set_error ("Plugin not found: " ++ pluginName) m)
  | Some lp =>
      match plugin lp with
      | None => (false, m)
      | Some p =>
          let '(p1, m1) :=
            if state_eqb (GetState p) RUNNING
            then (Stop p, emit [ECall pluginName MStop] m)
            else (p, m) in
          let p2 := Unload p1 in
          let m2 := emit [ECall pluginName MUnload] m1 in
          let m3 := UnregisterEventHandler pluginName m2 in
          let m4 := fst (UnloadPluginLibrary m3 (with_plugin (Some p2) lp)) in
          (true, set_plugins (Table.erase pluginName (_loadedPlugins m4)) m4)
      end
  end.

Definition UnloadAllPlugins (m : PluginManager) : PluginManager :=
  fold_left (fun acc pluginName => snd (UnloadPlugin pluginName acc))
            (GetLoadedPluginNames m) m.

(** *** Initialize, start, stop

    [InitializePlugin] reaches [GetPlugin] through
    [CheckPluginDependencies] while it holds [_pluginsMutex]; the body
    is modelled as it reads, without the lock. *)

Definition InitializePlugin (pluginName : string) (m : PluginManager)
  : bool * PluginManager :=
  match Table.find pluginName (_loadedPlugins m) with
  | None => (false, m)
  | Some lp =>
      match plugin lp with
      | None => (false, m)
      | Some p =>
          if negb (CheckPluginDependencies m pluginName) then (false, m)
          else
            let '(ok, p') := Initialize p in
            let m1 := emit [ECall pluginName MInitialize]
              (set_plugins (Table.replace pluginName
                              (with_plugin (Some p') lp)
                              (_loadedPlugins m)) m) in
            if negb ok then (false, m1)
            else
              match GetEventHandler p' with
              | Some h => (true, RegisterEventHandler pluginName h m1)
              | None => (true, m1)
              end
      end
  end.

(** The instance of an entry when it is in state [from]. *)
Definition in_state (from : PluginState) (lp : LoadedPlugin) : option P :=
  match plugin lp with
  | Some p => if state_eqb (GetState p) from then Some p else None
  | None => None
  end.

(** What the range-for below makes of one entry. *)
Definition acted (from : PluginState) (act : P -> P) (lp : LoadedPlugin)
  : LoadedPlugin :=
  match in_state from lp with
  | Some p => with_plugin (Some (act p)) lp
  | None => lp
  end.

(** The range-for of [StartAllPlugins] and [StopAllPlugins]: every entry
    in state [from] has [act] called on its instance, in table order. *)
Fixpoint for_each_in_state (from : PluginState) (act : P -> P) (mth : Method)
    (t : Table.t LoadedPlugin) : Table.t LoadedPlugin * list Effect :=
  match t with
  | [] => ([], [])
  | (k, lp) :: rest =>
      let '(rest', es) := for_each_in_state from act mth rest in
      match in_state from lp with
      | Some p => ((k, with_plugin (Some (act p)) lp) :: rest',
                   ECall k mth :: es)
      | None => ((k, lp) :: rest', es)
      end
  end.

Definition StartAllPlugins (m : PluginManager) : PluginManager :=
  let '(t, es) := for_each_in_state INITIALIZED Start MStart
                    (_loadedPlugins m) in
  emit es (set_plugins t m).

Definition StopAllPlugins (m : PluginManager) : PluginManager :=
  let '(t, es) := for_each_in_state RUNNING Stop MStop
                    (_loadedPlugins m) in
  emit es (set_plugins t m).

(** *** Load order *)

(** [std::find(loadOrder.begin(), loadOrder.end(), x) != loadOrder.end()] *)
Definition found (x : string) (loadOrder : list string) : bool :=
  existsb (String.eqb x) loadOrder.

(** The loop of [ResolveDependencies] over the dependency list; [rec] is
    the recursive call.  The result is the returned [bool] with the
    vector as the call left it, or [None] when a call does not return. *)
Fixpoint resolve_each (rec : string -> list string -> option (bool * list string))
    (deps : list string) (loadOrder : list string)
  : option (bool * list string) :=
  match deps with
  | [] => Some (true, loadOrder)
  | dependency :: rest =>
      if found dependency loadOrder then resolve_each rec rest loadOrder
      else
        match rec dependency loadOrder with
        | None => None
        | Some (false, lo) => Some (false, lo)
        | Some (true, lo) => resolve_each rec rest lo
        end
  end.

Fixpoint ResolveDependencies (fuel : nat) (m : PluginManager)
    (pluginName : string) (loadOrder : list string)
  : option (bool * list string) :=
  match fuel with
  | O => None
  | S fuel' =>
      match GetPlugin m pluginName with
      | None => Some (false, loadOrder)
      | Some p =>
          match resolve_each (ResolveDependencies fuel' m)
                  (GetDependencies p) loadOrder with
          | None => None
          | Some (false, lo) => Some (false, lo)
          | Some (true, lo) => Some (true, lo ++ [pluginName])
          end
      end
  end.

(** The loop of [GetPluginLoadOrder]; the [bool] that
    [ResolveDependencies] returns is dropped, as in the source. *)
Fixpoint load_order_loop (fuel : nat) (m : PluginManager)
    (pluginNames : list string) (loadOrder : list string)
  : option (list string) :=
  match pluginNames with
  | [] => Some loadOrder
  | pluginName :: rest =>
      if found pluginName loadOrder
      then load_order_loop fuel m rest loadOrder
      else
        match ResolveDependencies fuel m pluginName loadOrder with
        | None => None
        | Some (_, lo) => load_order_loop fuel m rest lo
        end
  end.

Definition GetPluginLoadOrder (fuel : nat) (m : PluginManager)
  : option (list string) :=
  load_order_loop fuel m (GetLoadedPluginNames m) [].

Definition InitializeAllPlugins (fuel : nat) (m : PluginManager)
  : option PluginManager :=
  match GetPluginLoadOrder fuel m with
  | None => None
  | Some loadOrder =>
      Some (fold_left (fun acc pluginName =>
                         snd (InitializePlugin pluginName acc))
                      loadOrder m)
  end.
End Manager.

(** ** Event dispatch *)

(** The host calls that [PluginManager.cpp] defines. *)
Inductive HostEvent : Type :=
| PlayerLogin (player : nat)
| PlayerLogout (player : nat)
| WorldUpdate (diff : nat).

(** Insertion sort, the algorithm implementations of [std::sort] run on
    short ranges: each element in turn is placed in the sorted prefix, in
    front of the elements that the comparator puts after it. *)
Section InsertionSort.
Variable A : Type.
Variable comp : A -> A -> bool.

Fixpoint insert_sorted (x : A) (l : list A) : list A :=
  match l with
  | [] => [x]
  | y :: l' => if comp x y then x :: y :: l' else y :: insert_sorted x l'
  end.

Definition insertion_sort (l : list A) : list A :=
  fold_left (fun acc x => insert_sorted x acc) l [].
End InsertionSort.

Section Dispatch.
Context {P : Type} {PI : IPlugin P}.

(** [std::sort] with the comparator of [GetEventHandlersByPriority].
    The standard fixes its result only up to the order of equivalent
    elements, so the algorithm is a parameter. *)
Variable std_sort :
  list (PluginPriority * IEventHandler) -> list (PluginPriority * IEventHandler).

(** Whether a call of the handler's method for an event leaves by an
    exception. *)
Variable throws : IEventHandler -> HostEvent -> bool.

(** The comparator: [a.first > b.first]. *)
Definition by_priority (a b : PluginPriority * IEventHandler) : bool :=
  priority_gtb (fst a) (fst b).

(** The first loop of [GetEventHandlersByPriority]. *)
Fixpoint prioritizedHandlers (m : @PluginManager P)
    (hs : Table.t IEventHandler) : list (PluginPriority * IEventHandler) :=
  match hs with
  | [] => []
  | (k, h) :: rest =>
      match GetPlugin m k with
      | Some p =>
          if state_eqb (GetState p) RUNNING
          then (priority (GetInfo p), h) :: prioritizedHandlers m rest
          else prioritizedHandlers m rest
      | None => prioritizedHandlers m rest
      end
  end.

Definition GetEventHandlersByPriority (m : @PluginManager P)
  : list IEventHandler :=
  map snd (std_sort (prioritizedHandlers m (_eventHandlers m))).

(** The range-for of a notification: the handlers whose method was
    entered, and whether an exception left the loop.  There is no
    [try] block, so the first exception ends the loop. *)
Fixpoint invoke_each (ev : HostEvent) (handlers : list IEventHandler)
  : list IEventHandler * bool :=
  match handlers with
  | [] => ([], false)
  | h :: rest =>
      if throws h ev then ([h], true)
      else let '(called, escaped) := invoke_each ev rest in
           (h :: called, escaped)
  end.

Definition OnPlayerLogin (m : @PluginManager P) (player : nat) :=
  invoke_each (PlayerLogin player) (GetEventHandlersByPriority m).

Definition OnPlayerLogout (m : @PluginManager P) (player : nat) :=
  invoke_each (PlayerLogout player) (GetEventHandlersByPriority m).

Definition OnWorldUpdate (m : @PluginManager P) (diff : nat) :=
  invoke_each (WorldUpdate diff) (GetEventHandlersByPriority m).
End Dispatch.

(** ** Sequences of administrative calls *)

Section Reachability.
Context {P : Type} {PI : IPlugin P}.
Variable slot : string -> list string -> nat.

(** One administrative call on the manager.  [InitializeAllPlugins] is
    a sequence of [OInitialize] steps and is not listed separately. *)
Inductive Op : Type :=
| OLoad (pf : @Platform P) (path : string)
| OUnload (pluginName : string)
| OInitialize (pluginName : string)
| OStartAll
| OStopAll
| OUnloadAll.

Definition step (op : Op) (m : @PluginManager P) : @PluginManager P :=
  match op with
  | OLoad pf path => snd (LoadPlugin slot pf path m)
  | OUnload n => snd (UnloadPlugin n m)
  | OInitialize n => snd (InitializePlugin slot n m)
  | OStartAll => StartAllPlugins m
  | OStopAll => StopAllPlugins m
  | OUnloadAll => UnloadAllPlugins m
  end.

Definition run (ops : list Op) (m : @PluginManager P) : @PluginManager P :=
  fold_left (fun acc op => step op acc) ops m.

(** The states the manager can be in: those a sequence of calls
    produces from the freshly constructed manager. *)
Definition reachable (m : @PluginManager P) : Prop :=
  exists ops, m = run ops empty_manager.
End Reachability.

(** Counting effects in a trace. *)
Definition is_dlopen (e : Effect) : bool :=
  match e with EDlopen _ _ => true | _ => false end.

Definition is_dlclose (e : Effect) : bool :=
  match e with EDlclose _ => true | _ => false end.

Definition count (f : Effect -> bool) (es : list Effect) : nat :=
  List.length (filter f es).

(** ** The dependency graph of the registered plugins *)

Section Graph.
Context {P : Type} {PI : IPlugin P}.
Variable m : @PluginManager P.

(** A plugin is registered when [GetPlugin] finds its instance. *)
Definition registered (n : string) : Prop := GetPlugin m n <> None.

(** [a] declares the dependency [b]. *)
Definition edge (a b : string) : Prop :=
  exists p, GetPlugin m a = Some p /\ In b (GetDependencies p).

(** [b] is [a] or is reached from [a] along declared dependencies. *)
Inductive reaches : string -> string -> Prop :=
| reaches_refl : forall a, reaches a a
| reaches_step : forall a b c, edge a b -> reaches b c -> reaches a c.

(** No plugin is reached from one of its own dependencies. *)
Definition acyclic : Prop := forall a b, edge a b -> ~ reaches b a.

(** Every declared dependency names a registered plugin. *)
Definition complete : Prop := forall a b, edge a b -> registered b.

(** A load order in which every element is registered, occurs once and
    has all its dependencies in front of it. *)
Inductive dependency_ordered : list string -> Prop :=
| ordered_nil : dependency_ordered []
| ordered_snoc : forall lo n,
    dependency_ordered lo -> registered n -> ~ In n lo ->
    (forall d, edge n d -> In d lo) ->
    dependency_ordered (lo ++ [n]).

(** Every element of the vector is registered and has all its declared
    dependencies at smaller indices. *)
Definition deps_in_front (lo : list string) : Prop :=
  forall l1 x l2, lo = l1 ++ x :: l2 ->
    registered x /\ forall d, edge x d -> In d l1.

(** What holds of a call on [x] that returns [r], whatever the graph:
    the vector was only appended to, dependencies stay in front, and after
    [true] the name is in the vector. *)
Definition returns_well (x : string) (lo : list string)
    (r : bool * list string) : Prop :=
  (exists new, snd r = lo ++ new) /\
  (deps_in_front lo -> deps_in_front (snd r)) /\
  (fst r = true -> In x (snd r)).

(** The recursion of [ResolveDependencies] is entered along a path of
    the graph; [stack] holds the callers of the call on [n]. *)
Definition on_path (stack : list string) (n : string) : Prop :=
  NoDup stack /\ incl stack (GetLoadedPluginNames m) /\
  forall a, In a stack -> exists b, edge a b /\ reaches b n.

(** What a returning call appends to the vector: names that were not
    in it and that are reached from one of [roots]. *)
Definition adds_from (roots : list string) (lo lo' : list string) : Prop :=
  exists new, lo' = lo ++ new /\
    forall x, In x new -> ~ In x lo /\ exists r, In r roots /\ reaches r x.

(** The declared dependencies as a list of pairs, and a check that a
    rank decreases along each of them and that each target is
    registered. *)
Definition declared_edges : list (string * string) :=
  flat_map (fun kv =>
              match plugin (snd kv) with
              | Some p => map (pair (fst kv)) (GetDependencies p)
              | None => []
              end) (_loadedPlugins m).

Definition graph_check (rank : string -> nat) : bool :=
  forallb (fun ab =>
             Nat.ltb (rank (snd ab)) (rank (fst ab)) &&
             match GetPlugin m (snd ab) with Some _ => true | None => false end)
          declared_edges.
End Graph.

(** [a] occurs in [l] at a smaller index than an occurrence of [b]. *)
Definition appears_before (a b : string) (l : list string) : Prop :=
  exists l1 l2 l3, l = l1 ++ a :: l2 ++ b :: l3.

(** ** Invariants of the manager *)

Section Invariants.
Context {P : Type} {PI : IPlugin P}.

(** What every reachable manager satisfies, whatever the plugins do:
    keys are unique, entries hold a handle and an instance, handlers are
    bound to table entries only, and every successful dlopen is matched
    by a dlclose or by a table entry. *)
Record manager_inv (m : @PluginManager P) : Prop := {
  inv_plugin_keys : NoDup (Table.keys (_loadedPlugins m));
  inv_handler_keys : NoDup (Table.keys (_eventHandlers m));
  inv_entries : forall k lp, In (k, lp) (_loadedPlugins m) ->
                             handle lp <> None /\ plugin lp <> None;
  inv_bound : incl (Table.keys (_eventHandlers m))
                   (Table.keys (_loadedPlugins m));
  inv_balance : count is_dlopen (_trace m)
                = count is_dlclose (_trace m)
                  + List.length (_loadedPlugins m)
}.

(** Whether [GetEventHandlersByPriority] keeps the binding of [k]. *)
Definition is_running (m : @PluginManager P) (k : string) : bool :=
  match GetPlugin m k with
  | Some p => state_eqb (GetState p) RUNNING
  | None => false
  end.

(** The state of the plugin called [n]; a name without entry is
    unloaded. *)
Definition extension_state (m : @PluginManager P) (n : string)
  : PluginState :=
  match GetPlugin m n with
  | Some p => GetState p
  | None => UNLOADED
  end.
End Invariants.

Definition loaded_state (s : PluginState) : Prop :=
  s = LOADED \/ s = INITIALIZED \/ s = RUNNING.

Definition active_state (s : PluginState) : Prop :=
  s = INITIALIZED \/ s = RUNNING.

(** What holds in addition when the plugins keep the lifecycle of
    [ExamplePlugin]. *)
Record lifecycle_inv (m : @PluginManager ExamplePlugin) : Prop := {
  lc_states : forall k p, GetPlugin m k = Some p -> loaded_state (_state p);
  lc_bound : forall k h, Table.find k (_eventHandlers m) = Some h ->
               exists p, GetPlugin m k = Some p /\ _eventHandler p = Some h;
  lc_active : forall k p h, GetPlugin m k = Some p ->
                active_state (_state p) -> _eventHandler p = Some h ->
                Table.find k (_eventHandlers m) = Some h
}.

(** The invariant the specification states for handler bindings: a
    binding exists exactly for the plugins that are initialized or
    running. *)
Definition binding_iff_active (m : @PluginManager ExamplePlugin) : Prop :=
  forall n, Table.find n (_eventHandlers m) <> None <->
            exists p, GetPlugin m n = Some p /\ active_state (_state p).

(** ** The lifecycle table of the specification *)

Inductive Trigger : Type :=
| TLoad | TSuccess | TFailure | TInitialize
| TStart | TStop | TComplete | TUnload.

(** The transition table of section 4.2, row by row; a pair without row
    is an invalid transition. *)
Definition spec_lifecycle_table (s : PluginState) (t : Trigger)
  : option PluginState :=
  match s, t with
  | UNLOADED, TLoad => Some LOADING
  | LOADING, TSuccess => Some LOADED
  | LOADING, TFailure => Some UNLOADED
  | LOADED, TInitialize => Some INITIALIZING
  | INITIALIZING, TSuccess => Some INITIALIZED
  | INITIALIZING, TFailure => Some ERROR
  | INITIALIZED, TStart => Some RUNNING
  | RUNNING, TStop => Some STOPPING
  | STOPPING, TComplete => Some LOADED
  | LOADED, TUnload => Some UNLOADED
  | ERROR, TUnload => Some UNLOADED
  | _, _ => None
  end.

(** The states entered along a sequence of rows. *)
Fixpoint spec_path (s : PluginState) (ts : list Trigger)
  : option (list PluginState) :=
  match ts with
  | [] => Some []
  | t :: ts' =>
      match spec_lifecycle_table s t with
      | None => None
      | Some s' => option_map (cons s') (spec_path s' ts')
      end
  end.

Definition spec_follow (s : PluginState) (ts : list Trigger)
  : option PluginState :=
  option_map (fun states => last states s) (spec_path s ts).

(** The administrative requests on one extension. *)
Inductive Request : Type :=
| ReqLoad | ReqInitialize | ReqStart | ReqStop | ReqUnload.

(** The outcome the specification gives a request whose plugin method
    succeeds: the rows of the table, with the two rules of section 4.2
    (stop outside Running is a no-op, unload of a Running extension stops
    it first).  [None] is InvalidTransition. *)
Definition spec_request (s : PluginState) (r : Request) : option PluginState :=
  match r with
  | ReqLoad => spec_follow s [TLoad; TSuccess]
  | ReqInitialize => spec_follow s [TInitialize; TSuccess]
  | ReqStart => spec_follow s [TStart]
  | ReqStop =>
      if state_eqb s RUNNING then spec_follow s [TStop; TComplete] else Some s
  | ReqUnload =>
      if state_eqb s RUNNING then spec_follow s [TStop; TComplete; TUnload]
      else spec_follow s [TUnload]
  end.

Fixpoint spec_replay (s : PluginState) (rs : list Request)
  : option PluginState :=
  match rs with
  | [] => Some s
  | r :: rs' =>
      match spec_request s r with
      | None => None
      | Some s' => spec_replay s' rs'
      end
  end.

(** The manager call behind each request, for the extension [n] whose
    library is at [path]. *)
Definition perform (slot : string -> list string -> nat)
    (pf : @Platform ExamplePlugin) (path n : string) (r : Request)
    (m : @PluginManager ExamplePlugin) : @PluginManager ExamplePlugin :=
  match r with
  | ReqLoad => snd (LoadPlugin slot pf path m)
  | ReqInitialize => snd (InitializePlugin slot n m)
  | ReqStart => StartAllPlugins m
  | ReqStop => StopAllPlugins m
  | ReqUnload => snd (UnloadPlugin n m)
  end.

Definition replay (slot : string -> list string -> nat)
    (pf : @Platform ExamplePlugin) (path n : string) (rs : list Request)
    (m : @PluginManager ExamplePlugin) : @PluginManager ExamplePlugin :=
  fold_left (fun acc r => perform slot pf path n r acc) rs m.

(** ** Dispatch order by registration, as the specification words it

    Descending priority, equal priorities in the order in which the
    handlers were registered: a stable sort of the running handlers listed
    in registration order. *)
Definition spec_dispatch_order {P : Type} {PI : IPlugin P}
    (m : @PluginManager P) (registrations : list (string * IEventHandler))
  : list IEventHandler :=
  map snd (insertion_sort by_priority (prioritizedHandlers m registrations)).

(** The order [std::sort] leaves with the comparator [by_priority]:
    no later element is strictly greater than an earlier one. *)
Definition not_after (a b : PluginPriority * IEventHandler) : Prop :=
  by_priority b a = false.

(** ** Example plugins, libraries and managers *)

Definition example_plugin (n : string) (deps : list string)
    (pr : PluginPriority) (h : option IEventHandler) (s : PluginState)
  : ExamplePlugin :=
  {| _info := {| name := n; version := "1.0.0"; author := "";
                 description := ""; website := ""; dependencies := deps;
                 priority := pr; autoLoad := true |};
     _dependencies := deps; _eventHandler := h; _state := s |}.

Definition example_entry (hd : nat) (p : ExamplePlugin)
  : string * @LoadedPlugin ExamplePlugin :=
  (name (_info p),
   {| handle := Some hd; createFunc := Some (Some p); destroyFunc := true;
      plugin := Some p; filePath := name (_info p) ++ ".so" |}).

Definition example_manager (ps : list (nat * ExamplePlugin))
  : @PluginManager ExamplePlugin :=
  {| _loadedPlugins := map (fun hp => example_entry (fst hp) (snd hp)) ps;
     _eventHandlers := []; _lastError := ""; _trace := [] |}.

(** A platform that finds the given libraries and nothing else. *)
Definition example_platform (libs : list (string * @Library ExamplePlugin))
  : @Platform ExamplePlugin :=
  {| fs_exists := fun path =>
       match Table.find path libs with Some _ => true | None => false end;
     dl_open := fun path => Table.find path libs;
     dl_error := "cannot open shared object file" |}.

Definition example_library (hd : nat) (p : ExamplePlugin)
  : string * @Library ExamplePlugin :=
  ((name (_info p) ++ ".so")%string,
   {| lib_handle := hd; lib_CreatePlugin := Some (Some p);
      lib_DestroyPlugin := true |}).

(** Four plugins with a diamond of dependencies. *)
Definition chain_manager : @PluginManager ExamplePlugin :=
  example_manager
    [(1, example_plugin "app" ["net"; "db"] NORMAL None LOADED);
     (2, example_plugin "db" ["core"] NORMAL None LOADED);
     (3, example_plugin "net" ["core"] NORMAL None LOADED);
     (4, example_plugin "core" [] NORMAL None LOADED)].

Definition chain_rank (n : string) : nat :=
  if String.eqb n "app" then 2
  else if String.eqb n "core" then 0 else 1.

(** The scenario of section 8: "A" and "B" depend on each other. *)
Definition mutual_manager : @PluginManager ExamplePlugin :=
  example_manager
    [(1, example_plugin "A" ["B"] NORMAL None LOADED);
     (2, example_plugin "B" ["A"] NORMAL None LOADED)].

(** "A" names a dependency "X" that nothing registers; "B" depends on
    "A"; "C" depends on nothing. *)
Definition missing_manager : @PluginManager ExamplePlugin :=
  example_manager
    [(1, example_plugin "A" ["X"] NORMAL None LOADED);
     (2, example_plugin "B" ["A"] NORMAL None LOADED);
     (3, example_plugin "C" [] NORMAL None LOADED)].

(** Two plugins of equal priority whose handlers are registered in the
    order "zeta", "alpha". *)
Definition zeta_plugin : ExamplePlugin :=
  example_plugin "zeta" [] HIGH (Some 1) UNLOADED.

Definition alpha_plugin : ExamplePlugin :=
  example_plugin "alpha" [] HIGH (Some 2) UNLOADED.

Definition two_platform : @Platform ExamplePlugin :=
  example_platform [example_library 11 zeta_plugin;
                    example_library 12 alpha_plugin].

Definition two_ops : list (@Op ExamplePlugin) :=
  [OLoad two_platform "zeta.so"; OLoad two_platform "alpha.so";
   OInitialize "zeta"; OInitialize "alpha"; OStartAll].

Definition two_manager : @PluginManager ExamplePlugin :=
  run ordered_slot two_ops empty_manager.

(** The scenario of section 8: handlers at priorities High, Normal, High,
    registered in that order, the first of which throws. *)
Definition three_platform : @Platform ExamplePlugin :=
  example_platform
    [example_library 21 (example_plugin "a" [] HIGH (Some 1) UNLOADED);
     example_library 22 (example_plugin "b" [] NORMAL (Some 2) UNLOADED);
     example_library 23 (example_plugin "c" [] HIGH (Some 3) UNLOADED)].

Definition three_ops : list (@Op ExamplePlugin) :=
  [OLoad three_platform "a.so"; OLoad three_platform "b.so";
   OLoad three_platform "c.so";
   OInitialize "a"; OInitialize "b"; OInitialize "c"; OStartAll].

Definition three_manager : @PluginManager ExamplePlugin :=
  run ordered_slot three_ops empty_manager.

Definition three_manager_front : @PluginManager ExamplePlugin :=
  run front_slot three_ops empty_manager.

Definition first_throws (h : IEventHandler) (_ : HostEvent) : bool :=
  Nat.eqb h 1.

(** One plugin, loaded, initialized, started and stopped again. *)
Definition solo_plugin : ExamplePlugin :=
  example_plugin "solo" [] NORMAL (Some 7) UNLOADED.

Definition solo_platform : @Platform ExamplePlugin :=
  example_platform [example_library 31 solo_plugin;
                    example_library 32
                      (example_plugin "mute" [] NORMAL None UNLOADED)].

Definition solo_running : @PluginManager ExamplePlugin :=
  run ordered_slot
      [OLoad solo_platform "solo.so"; OInitialize "solo"; OStartAll]
      empty_manager.

Definition solo_stopped : @PluginManager ExamplePlugin :=
  run ordered_slot [OStopAll] solo_running.

Definition solo_initialized : @PluginManager ExamplePlugin :=
  run ordered_slot [OLoad solo_platform "solo.so"; OInitialize "solo"]
      empty_manager.

(** A plugin without event handler, initialized. *)
Definition mute_initialized : @PluginManager ExamplePlugin :=
  run ordered_slot [OLoad solo_platform "mute.so"; OInitialize "mute"]
      empty_manager.

(** ** The directory scan of [LoadAllPlugins] *)

(** What [std::filesystem::directory_iterator] yields for one entry: its
    path, whether it is a regular file, and the extension of its path. *)
Record DirEntry : Type := mkDirEntry {
  entry_path : string;
  entry_is_regular_file : bool;
  entry_extension : string
}.

(** The test of the loop body (the branch for platforms other than
    Windows). *)
Definition is_plugin_file (e : DirEntry) : bool :=
  entry_is_regular_file e && String.eqb (entry_extension e) ".so".

Section Scan.
Context {P : Type} {PI : IPlugin P}.
Variable slot : string -> list string -> nat.

(** The range-for of [LoadAllPlugins]; the result of [LoadPlugin] is
    dropped, as in the source. *)
Definition scan_entries (pf : @Platform P) (entries : list DirEntry)
    (m : @PluginManager P) : @PluginManager P :=
  fold_left (fun acc e =>
               if entry_is_regular_file e then
                 if String.eqb (entry_extension e) ".so"
                 then snd (LoadPlugin slot pf (entry_path e) acc)
                 else acc
               else acc)
            entries m.

(** [LoadAllPlugins]: the new value of [_pluginDirectory] and the
    manager.  [entries] is what the directory iterator yields, in its
    order; an iterator that throws is not modelled. *)
Definition LoadAllPlugins (pf : @Platform P) (entries : list DirEntry)
    (pluginDirectory : string) (m : @PluginManager P)
  : string * @PluginManager P :=
  if negb (fs_exists pf pluginDirectory) then (pluginDirectory, m)
  else (pluginDirectory, scan_entries pf entries m).
End Scan.

(** The paths a trace opened. *)
Definition opened_paths (es : list Effect) : list string :=
  flat_map (fun e => match e with EDlopen path _ => [path] | _ => [] end) es.

(** ** The lifecycle calls made on one plugin name *)

Definition calls_of (n : string) (es : list Effect) : list Method :=
  flat_map (fun e => match e with
                     | ECall k mth => if String.eqb k n then [mth] else []
                     | _ => []
                     end) es.

(** The state a plugin with the lifecycle of [ExamplePlugin] is in after
    a call, when the manager makes that call at all: [Start] only on an
    initialized plugin, [Stop] only on a running one, [Unload] never on a
    running one, [Load] only on an instance that is not in the table. *)
Definition track (s : PluginState) (mth : Method) : option PluginState :=
  match mth, s with
  | MLoad, UNLOADED => Some LOADED
  | MInitialize, LOADED => Some INITIALIZED
  | MInitialize, INITIALIZED => Some INITIALIZED
  | MInitialize, RUNNING => Some INITIALIZED
  | MStart, INITIALIZED => Some RUNNING
  | MStop, RUNNING => Some LOADED
  | MUnload, LOADED => Some UNLOADED
  | MUnload, INITIALIZED => Some UNLOADED
  | _, _ => None
  end.

Fixpoint track_all (s : PluginState) (ms : list Method) : option PluginState :=
  match ms with
  | [] => Some s
  | mth :: ms' =>
      match track s mth with
      | Some s' => track_all s' ms'
      | None => None
      end
  end.

(** ** The effects of a failing [LoadPlugin] *)

(** What a call of [LoadPlugin] that returns [false] adds to the trace:
    nothing, or the dlopen of the path, possibly the factory call and the
    call of [Load], and then the dlclose of the handle just opened,
    followed by the destruction of the instance when there is one. *)
Inductive failed_load (path : string) : list Effect -> Prop :=
| failed_before_open : failed_load path []
| failed_no_factory : forall h,
    failed_load path [EDlopen path h; EDlclose h]
| failed_no_instance : forall h,
    failed_load path [EDlopen path h; ECreate path; EDlclose h]
| failed_rejected : forall h s,
    failed_load path [EDlopen path h; ECreate path; EDlclose h; EDestroy s]
| failed_in_Load : forall h n s,
    failed_load path [EDlopen path h; ECreate path; ECall n MLoad;
                      EDlclose h; EDestroy s].

(** The handles a trace opened and closed, and the handles the table
    holds. *)
Definition opened_handles (es : list Effect) : list nat :=
  flat_map (fun e => match e with EDlopen _ h => [h] | _ => [] end) es.

Definition closed_handles (es : list Effect) : list nat :=
  flat_map (fun e => match e with EDlclose h => [h] | _ => [] end) es.

Definition held_handles {P : Type} (t : Table.t (@LoadedPlugin P)) : list nat :=
  flat_map (fun kv => match handle (snd kv) with
                      | Some h => [h]
                      | None => []
                      end) t.

(** Whether every destruction of an instance in [es] comes directly
    after a dlclose; [prev] is the effect in front of [es]. *)
Fixpoint destroyed_after_close (prev : option Effect) (es : list Effect)
  : bool :=
  match es with
  | [] => true
  | e :: rest =>
      match e with
      | EDestroy _ =>
          match prev with
          | Some (EDlclose _) => destroyed_after_close (Some e) rest
          | _ => false
          end
      | _ => destroyed_after_close (Some e) rest
      end
  end.

(** ** Plugins whose dependencies can all be resolved *)

Section Resolvable.
Context {P : Type} {PI : IPlugin P}.
Variable m : @PluginManager P.

(** Everything [n] reaches along declared dependencies, [n] included,
    is registered. *)
Definition resolvable (n : string) : Prop :=
  forall y, reaches m n y -> registered m y.
End Resolvable.

(** A plugin directory with a file that is no library, a directory
    entry named like a library, a library that cannot be opened, and the
    library of [solo_plugin]. *)
Definition scan_platform : @Platform ExamplePlugin :=
  {| fs_exists := fun path => negb (String.eqb path "nowhere");
     dl_open := fun path =>
       Table.find path
         [("plugins/solo.so",
           {| lib_handle := 41; lib_CreatePlugin := Some (Some solo_plugin);
              lib_DestroyPlugin := true |})];
     dl_error := "file too short" |}.

Definition scan_directory : list DirEntry :=
  [ {| entry_path := "plugins/README.md"; entry_is_regular_file := true;
       entry_extension := ".md" |};
    {| entry_path := "plugins/old.so"; entry_is_regular_file := false;
       entry_extension := ".so" |};
    {| entry_path := "plugins/broken.so"; entry_is_regular_file := true;
       entry_extension := ".so" |};
    {| entry_path := "plugins/solo.so"; entry_is_regular_file := true;
       entry_extension := ".so" |} ].

(** ** Examples/ExamplePlugin: session statistics and the periodic update

    The data members behind [TrackPlayerLogin], [TrackPlayerLogout],
    [SendWelcomeMessage] and [UpdateStatistics], kept apart from the
    lifecycle record above.  [ExamplePlugin.h] declares the counters, the
    interval and the time of the last update as [uint32]: a value is an
    integer in [0, 2^32) and arithmetic wraps. *)
Definition wrap32 (z : Z) : Z := (z mod 2 ^ 32)%Z.

(** Linear arithmetic with the modulus written out. *)
Ltac lia32 := change (2 ^ 32)%Z with 4294967296%Z in *; lia.

Record ExampleStatistics : Type := mkExampleStatistics {
  _welcomeMessageEnabled : bool;
  _welcomeMessage : string;
  _updateInterval : Z;
  _totalLogins : Z;
  _currentOnlinePlayers : Z;
  _lastUpdateTime : Z
}.

(** The values the constructor gives these members. *)
Definition new_ExampleStatistics : ExampleStatistics :=
  {| _welcomeMessageEnabled := true;
     _welcomeMessage := "Welcome to the server!";
     _updateInterval := 10000;
     _totalLogins := 0;
     _currentOnlinePlayers := 0;
     _lastUpdateTime := 0 |}.

(** A [Player*]: [None] is the null pointer. *)
Definition PlayerPtr : Type := option nat.

Definition TrackPlayerLogin (player : PlayerPtr) (s : ExampleStatistics)
  : ExampleStatistics :=
  match player with
  | None => s
  | Some _ =>
      {| _welcomeMessageEnabled := _welcomeMessageEnabled s;
         _welcomeMessage := _welcomeMessage s;
         _updateInterval := _updateInterval s;
         _totalLogins := wrap32 (_totalLogins s + 1);
         _currentOnlinePlayers := wrap32 (_currentOnlinePlayers s + 1);
         _lastUpdateTime := _lastUpdateTime s |}
  end.

Definition TrackPlayerLogout (player : PlayerPtr) (s : ExampleStatistics)
  : ExampleStatistics :=
  match player with
  | None => s
  | Some _ =>
      if (0 <? _currentOnlinePlayers s)%Z then
        {| _welcomeMessageEnabled := _welcomeMessageEnabled s;
           _welcomeMessage := _welcomeMessage s;
           _updateInterval := _updateInterval s;
           _totalLogins := _totalLogins s;
           _currentOnlinePlayers := wrap32 (_currentOnlinePlayers s - 1);
           _lastUpdateTime := _lastUpdateTime s |}
      else s
  end.

(** The system messages sent, each with the player it goes to. *)
Definition SendWelcomeMessage (player : PlayerPtr) (s : ExampleStatistics)
  : list (nat * string) :=
  match player with
  | None => []
  | Some pl =>
      if String.eqb (_welcomeMessage s) "" then []
      else [(pl, _welcomeMessage s)]
  end.

(** [currentTime] is what [GameTime::GetGameTimeMS()] returns; the
    parameter [diff] is not used by the body. *)
Definition UpdateStatistics (currentTime : Z) (diff : Z)
    (s : ExampleStatistics) : ExampleStatistics :=
  if (_updateInterval s <=? wrap32 (currentTime - _lastUpdateTime s))%Z then
    {| _welcomeMessageEnabled := _welcomeMessageEnabled s;
       _welcomeMessage := _welcomeMessage s;
       _updateInterval := _updateInterval s;
       _totalLogins := _totalLogins s;
       _currentOnlinePlayers := _currentOnlinePlayers s;
       _lastUpdateTime := currentTime |}
  else s.

(** [ExampleEventHandler]: its [_plugin] pointer is the plugin that
    constructed it and is never null. *)
Definition ExampleEventHandler_OnPlayerLogin (player : PlayerPtr)
    (s : ExampleStatistics) : ExampleStatistics * list (nat * string) :=
  match player with
  | None => (s, [])
  | Some _ =>
      let s1 := TrackPlayerLogin player s in
      if _welcomeMessageEnabled s1 then (s1, SendWelcomeMessage player s1)
      else (s1, [])
  end.

Definition ExampleEventHandler_OnPlayerLogout (player : PlayerPtr)
    (s : ExampleStatistics) : ExampleStatistics :=
  match player with
  | None => s
  | Some _ => TrackPlayerLogout player s
  end.

Definition ExampleEventHandler_OnWorldUpdate (currentTime diff : Z)
    (s : ExampleStatistics) : ExampleStatistics :=
  UpdateStatistics currentTime diff s.

(** The calls the handler receives about sessions, and their effect in
    sequence. *)
Inductive SessionCall : Type :=
| SLogin (player : PlayerPtr)
| SLogout (player : PlayerPtr).

Definition session_call (c : SessionCall)
    (acc : ExampleStatistics * list (nat * string))
  : ExampleStatistics * list (nat * string) :=
  match c with
  | SLogin player =>
      let '(s', sent) := ExampleEventHandler_OnPlayerLogin player (fst acc) in
      (s', snd acc ++ sent)
  | SLogout player =>
      (ExampleEventHandler_OnPlayerLogout player (fst acc), snd acc)
  end.

Definition session_calls (cs : list SessionCall) (s : ExampleStatistics)
  : ExampleStatistics * list (nat * string) :=
  fold_left (fun acc c => session_call c acc) cs (s, []).

(** Counting in natural numbers: the players who logged in, and the
    sessions open after the calls when [b] were open before, a logout
    without open session being ignored. *)
Definition login_players (cs : list SessionCall) : list nat :=
  flat_map (fun c => match c with
                     | SLogin (Some pl) => [pl]
                     | _ => []
                     end) cs.

Definition open_sessions (b : nat) (cs : list SessionCall) : nat :=
  fold_left (fun n c => match c with
                        | SLogin (Some _) => S n
                        | SLogout (Some _) => Nat.pred n
                        | _ => n
                        end) cs b.

(** The periodic update on a clock that does not wrap: the time of the
    last update after calls at the times [ts]. *)
Definition ideal_update (interval last t : Z) : Z :=
  if (interval <=? t - last)%Z then t else last.

Definition ideal_updates (interval last : Z) (ts : list Z) : Z :=
  fold_left (ideal_update interval) ts last.

(** The same calls as the plugin sees them: the clock is the time
    truncated to 32 bits and [diff] is the time since the previous
    call. *)
Fixpoint world_updates (prev : Z) (ts : list Z) (s : ExampleStatistics)
  : ExampleStatistics :=
  match ts with
  | [] => s
  | t :: ts' =>
      world_updates t ts'
        (ExampleEventHandler_OnWorldUpdate (wrap32 t) (wrap32 (t - prev)) s)
  end.

(** The calls come in order of time, none more than [g] after the one
    before. *)
Fixpoint paced (g prev : Z) (ts : list Z) : Prop :=
  match ts with
  | [] => True
  | t :: ts' => (prev <= t <= prev + g)%Z /\ paced g t ts'
  end.

(** ** PluginConfig.h: typed values under normalized keys *)

(** The value types the typed accessors of [PluginConfig] name (the
    floating-point one apart). *)
Inductive ConfigType : Type := TString | TInt32 | TUInt32 | TBool.

Definition ConfigType_eqb (a b : ConfigType) : bool :=
  match a, b with
  | TString, TString | TInt32, TInt32 | TUInt32, TUInt32 | TBool, TBool => true
  | _, _ => false
  end.

Definition config_value (T : ConfigType) : Type :=
  match T with
  | TString => string
  | TInt32 => Z
  | TUInt32 => Z
  | TBool => bool
  end.

(** A [std::any] that holds a value: the type it was made from and the
    value. *)
Record any : Type := mkAny {
  any_type : ConfigType;
  any_value : config_value any_type
}.

(** [std::any_cast<T>]: the value when the held type is exactly [T];
    [None] stands for [std::bad_any_cast]. *)
Definition any_cast (T : ConfigType) (a : any) : option (config_value T) :=
  match T, a with
  | TString, mkAny TString v => Some v
  | TInt32, mkAny TInt32 v => Some v
  | TUInt32, mkAny TUInt32 v => Some v
  | TBool, mkAny TBool v => Some v
  | _, _ => None
  end.

Section Config.
(** [NormalizeKey] is declared in the class and defined in a source file
    that is not part of the repository. *)
Variable NormalizeKey : string -> string.
Variable slot : string -> list string -> nat.

Record PluginConfig : Type := mkPluginConfig {
  _values : Table.t any
}.

Definition GetValue (T : ConfigType) (key : string)
    (defaultValue : config_value T) (c : PluginConfig) : config_value T :=
  match Table.find (NormalizeKey key) (_values c) with
  | Some a =>
      match any_cast T a with
      | Some v => v
      | None => defaultValue
      end
  | None => defaultValue
  end.

Definition SetValue (T : ConfigType) (key : string) (value : config_value T)
    (c : PluginConfig) : PluginConfig :=
  {| _values := Table.assign slot (NormalizeKey key) (mkAny T value)
                  (_values c) |}.

Definition GetKeyCount (c : PluginConfig) : nat := List.length (_values c).
End Config.

(** Session calls with a logout too many and a null player, and
    statistics whose last update lies shortly before the 32-bit clock
    wraps. *)
Definition session_example : list SessionCall :=
  [SLogin (Some 1); SLogout (Some 1); SLogout (Some 1); SLogin None;
   SLogin (Some 2)].

Definition late_statistics : ExampleStatistics :=
  {| _welcomeMessageEnabled := true;
     _welcomeMessage := "Welcome to the server!";
     _updateInterval := 10000;
     _totalLogins := 0;
     _currentOnlinePlayers := 0;
     _lastUpdateTime := 4294960000 |}.

(** The plugins whose [Unload] a trace called, in order. *)
Definition unloaded_names (es : list Effect) : list string :=
  flat_map (fun e => match e with ECall n MUnload => [n] | _ => [] end) es.

(** Two plugins with handlers, one depending on the other. *)
Definition served_manager : @PluginManager ExamplePlugin :=
  example_manager
    [(1, example_plugin "ui" ["core"] HIGH (Some 5) LOADED);
     (2, example_plugin "core" [] NORMAL (Some 6) LOADED)].

Definition served_rank (n : string) : nat :=
  if String.eqb n "ui" then 1 else 0.

(** * Properties *)

(** ** Tables *)

Section TableFacts.
Variable V : Type.
Implicit Types (m : Table.t V) (k : string).

Lemma find_None_iff k m : Table.find k m = None <-> ~ In k (Table.keys m).
Proof.
  induction m as [|[k' v] m IH]; simpl.
  - tauto.
  - destruct (String.eqb_spec k k') as [->|Hne].
    + split; [discriminate | intros H; exfalso; apply H; now left].
    + rewrite IH. split; intros H.
      * intros [E|I]; [congruence | tauto].
      * tauto.
Qed.

Lemma find_Some_In k v m : Table.find k m = Some v -> In (k, v) m.
Proof.
  induction m as [|[k' v'] m IH]; simpl; [discriminate|].
  destruct (String.eqb_spec k k') as [->|Hne].
  - intros [= ->]. now left.
  - intros H. right. auto.
Qed.

Lemma find_Some_key k v m : Table.find k m = Some v -> In k (Table.keys m).
Proof.
  intros H. apply find_Some_In in H.
  apply (in_map fst) in H. exact H.
Qed.
End TableFacts.

Section TableFacts2.
Variable V : Type.
Implicit Types (m : Table.t V) (k : string).

Lemma find_In_iff k v m :
  NoDup (Table.keys m) -> (Table.find k m = Some v <-> In (k, v) m).
Proof.
  intros Hnd. split; [apply find_Some_In|].
  induction m as [|[k' v'] m IH]; simpl; [tauto|].
  inversion_clear Hnd as [|? ? Hk Hm].
  intros [E|Hin].
  - injection E as -> ->. now rewrite String.eqb_refl.
  - destruct (String.eqb_spec k k') as [->|Hne]; [|auto].
    elim Hk. apply (in_map fst) in Hin. exact Hin.
Qed.

Lemma In_erase k k' v m :
  In (k', v) (Table.erase k m) <-> In (k', v) m /\ k' <> k.
Proof.
  unfold Table.erase. rewrite filter_In. simpl.
  destruct (String.eqb_spec k k') as [->|Hne]; simpl; split;
    intros [H1 H2]; try congruence; split; auto.
Qed.

Lemma keys_erase k m :
  Table.keys (Table.erase k m)
  = filter (fun k' => negb (String.eqb k k')) (Table.keys m).
Proof.
  unfold Table.erase, Table.keys.
  induction m as [|[k' v] m IH]; simpl; [reflexivity|].
  destruct (String.eqb k k'); simpl; now rewrite IH.
Qed.

Lemma In_keys_erase k k' m :
  In k' (Table.keys (Table.erase k m)) <-> In k' (Table.keys m) /\ k' <> k.
Proof.
  rewrite keys_erase, filter_In.
  destruct (String.eqb_spec k k') as [->|Hne]; simpl; split;
    intros [H1 H2]; try congruence; split; auto.
Qed.

Lemma NoDup_keys_erase k m :
  NoDup (Table.keys m) -> NoDup (Table.keys (Table.erase k m)).
Proof. rewrite keys_erase. apply NoDup_filter. Qed.

Lemma find_erase_same k m : Table.find k (Table.erase k m) = None.
Proof. apply find_None_iff. rewrite In_keys_erase. tauto. Qed.

Lemma find_erase_other k k' m :
  k' <> k -> Table.find k' (Table.erase k m) = Table.find k' m.
Proof.
  intros Hne. unfold Table.erase.
  induction m as [|[k0 v] m IH]; simpl; [reflexivity|].
  destruct (String.eqb_spec k k0) as [->|Hk]; simpl.
  - destruct (String.eqb_spec k' k0); [congruence | exact IH].
  - destruct (String.eqb_spec k' k0); [reflexivity | exact IH].
Qed.

Lemma length_erase k m :
  NoDup (Table.keys m) -> In k (Table.keys m) ->
  S (List.length (Table.erase k m)) = List.length m.
Proof.
  unfold Table.erase. induction m as [|[k0 v] m IH]; simpl; [tauto|].
  intros Hnd. inversion_clear Hnd as [|? ? Hk Hm].
  destruct (String.eqb_spec k k0) as [->|Hne]; simpl.
  - intros _. f_equal.
    assert (E : forall l : Table.t V, ~ In k0 (Table.keys l) ->
                filter (fun kv => negb (String.eqb k0 (fst kv))) l = l).
    { induction l as [|[k1 v1] l IHl]; simpl; [reflexivity|]. intros Hn.
      destruct (String.eqb_spec k0 k1) as [->|?]; simpl; [tauto|].
      f_equal. apply IHl. tauto. }
    now rewrite E.
  - intros [E|Hin]; [congruence|]. f_equal. auto.
Qed.

Lemma keys_replace k v m : Table.keys (Table.replace k v m) = Table.keys m.
Proof.
  induction m as [|[k' v'] m IH]; simpl; [reflexivity|].
  destruct (String.eqb k k'); simpl; [reflexivity | now rewrite IH].
Qed.

Lemma length_replace k v m : List.length (Table.replace k v m) = List.length m.
Proof.
  induction m as [|[k' v'] m IH]; simpl; [reflexivity|].
  destruct (String.eqb k k'); simpl; [reflexivity | now rewrite IH].
Qed.

Lemma find_replace_same k v m :
  Table.find k m <> None -> Table.find k (Table.replace k v m) = Some v.
Proof.
  induction m as [|[k' v'] m IH]; simpl; [congruence|].
  destruct (String.eqb_spec k k') as [->|Hne]; simpl.
  - now rewrite String.eqb_refl.
  - destruct (String.eqb_spec k k'); [congruence | exact IH].
Qed.

Lemma find_replace_other k k' v m :
  k' <> k -> Table.find k' (Table.replace k v m) = Table.find k' m.
Proof.
  intros Hne. induction m as [|[k0 v0] m IH]; simpl; [reflexivity|].
  destruct (String.eqb_spec k k0) as [->|Hk]; simpl.
  - destruct (String.eqb_spec k' k0); [congruence | reflexivity].
  - destruct (String.eqb_spec k' k0); [reflexivity | exact IH].
Qed.

Lemma In_replace k v k' v' m :
  In (k', v') (Table.replace k v m) -> (k' = k /\ v' = v) \/ In (k', v') m.
Proof.
  induction m as [|[k0 v0] m IH]; simpl; [tauto|].
  destruct (String.eqb_spec k k0) as [->|Hk]; simpl.
  - intros [E|Hin]; [injection E as <- <-; now left | right; now right].
  - intros [E|Hin]; [right; now left|].
    destruct (IH Hin); [now left | right; now right].
Qed.

End TableFacts2.

Section AssignFacts.
Variable V : Type.
Variable slot : string -> list string -> nat.
Implicit Types (m : Table.t V) (k : string).

Lemma assign_fresh_perm k v m :
  Table.find k m = None ->
  Permutation (Table.assign slot k v m) ((k, v) :: m).
Proof.
  intros E. unfold Table.assign. rewrite E.
  generalize (slot k (Table.keys m)). intros i.
  transitivity ((k, v) :: firstn i m ++ skipn i m).
  - symmetry. apply Permutation_middle.
  - now rewrite firstn_skipn.
Qed.

Lemma keys_assign_present k v m :
  Table.find k m <> None ->
  Table.keys (Table.assign slot k v m) = Table.keys m.
Proof.
  intros E. unfold Table.assign.
  destruct (Table.find k m); [apply keys_replace | congruence].
Qed.

Lemma NoDup_keys_assign k v m :
  NoDup (Table.keys m) -> NoDup (Table.keys (Table.assign slot k v m)).
Proof.
  intros Hnd. destruct (Table.find k m) eqn:E.
  - rewrite keys_assign_present; [assumption | congruence].
  - pose proof (assign_fresh_perm k v m E) as Hp.
    apply (Permutation_map fst) in Hp. symmetry in Hp.
    eapply Permutation_NoDup; [exact Hp|]. simpl. constructor; [|assumption].
    now apply find_None_iff.
Qed.

Lemma In_keys_assign k v k' m :
  In k' (Table.keys (Table.assign slot k v m)) <-> k' = k \/ In k' (Table.keys m).
Proof.
  destruct (Table.find k m) eqn:E.
  - rewrite keys_assign_present by congruence. split; [tauto|].
    intros [->|H]; [|assumption]. eapply find_Some_key; eauto.
  - pose proof (assign_fresh_perm k v m E) as Hp.
    apply (Permutation_map fst) in Hp. simpl in Hp. split; intros H.
    + apply (Permutation_in _ Hp) in H. destruct H; [left; congruence | now right].
    + apply (Permutation_in _ (Permutation_sym Hp)). destruct H; [left; congruence | now right].
Qed.

Lemma find_assign_same k v m :
  Table.find k (Table.assign slot k v m) = Some v.
Proof.
  destruct (Table.find k m) eqn:E.
  - unfold Table.assign. rewrite E. apply find_replace_same. congruence.
  - unfold Table.assign. rewrite E.
    set (i := slot k (Table.keys m)).
    assert (G : forall (l1 l2 : Table.t V), Table.find k (l1 ++ l2) = None ->
                  Table.find k (l1 ++ (k, v) :: l2) = Some v).
    { induction l1 as [|[k0 v0] l1 IH]; simpl; intros l2.
      - now rewrite String.eqb_refl.
      - destruct (String.eqb k k0); [discriminate | apply IH]. }
    apply G. now rewrite firstn_skipn.
Qed.

Lemma find_assign_other k k' v m :
  k' <> k -> Table.find k' (Table.assign slot k v m) = Table.find k' m.
Proof.
  intros Hne. unfold Table.assign. destruct (Table.find k m) eqn:E.
  - now apply find_replace_other.
  - set (i := slot k (Table.keys m)).
    assert (G : forall (l1 l2 : Table.t V),
                  Table.find k' (l1 ++ (k, v) :: l2) = Table.find k' (l1 ++ l2)).
    { induction l1 as [|[k0 v0] l1 IH]; simpl; intros l2.
      - destruct (String.eqb_spec k' k); [congruence | reflexivity].
      - destruct (String.eqb k' k0); [reflexivity | apply IH]. }
    rewrite G. now rewrite firstn_skipn.
Qed.

Lemma length_assign_fresh k v m :
  Table.find k m = None ->
  List.length (Table.assign slot k v m) = S (List.length m).
Proof.
  intros E. exact (Permutation_length (assign_fresh_perm k v m E)).
Qed.
End AssignFacts.

(** ** Load order of an acyclic, complete graph *)

Section LoadOrderFacts.
Context {P : Type} {PI : IPlugin P}.
Variable m : @PluginManager P.

Lemma found_In x l : found x l = true <-> In x l.
Proof.
  unfold found. rewrite existsb_exists. split.
  - intros (y & Hy & E). apply String.eqb_eq in E. now subst.
  - intros H. exists x. split; [assumption | apply String.eqb_refl].
Qed.

Lemma found_false x l : found x l = false <-> ~ In x l.
Proof.
  rewrite <- found_In. destruct (found x l); split; congruence.
Qed.

Lemma reaches_trans a b c : reaches m a b -> reaches m b c -> reaches m a c.
Proof.
  induction 1; [auto|]. intros Hc. eapply reaches_step; eauto.
Qed.

Lemma reaches_edge a b : edge m a b -> reaches m a b.
Proof. intros H. eapply reaches_step; [eassumption | constructor]. Qed.

Lemma registered_key n : registered m n -> In n (GetLoadedPluginNames m).
Proof.
  unfold registered, GetPlugin, GetLoadedPluginNames. intros H.
  destruct (Table.find n (_loadedPlugins m)) eqn:E; [|congruence].
  eapply find_Some_key; eauto.
Qed.

Hypothesis Hacyclic : acyclic m.
Hypothesis Hcomplete : complete m.

Lemma on_path_fresh stack n : on_path m stack n -> ~ In n stack.
Proof.
  intros (_ & _ & Hp) Hin. destruct (Hp _ Hin) as (b & Hab & Hbn).
  exact (Hacyclic Hab Hbn).
Qed.

Lemma on_path_push stack n d :
  on_path m stack n -> registered m n -> edge m n d -> on_path m (n :: stack) d.
Proof.
  intros Hs Hr He. pose proof (on_path_fresh Hs) as Hf.
  destruct Hs as (Hnd & Hincl & Hp). repeat split.
  - now constructor.
  - intros x [<-|Hx]; [now apply registered_key | auto].
  - intros a [<-|Ha].
    + exists d. split; [assumption | constructor].
    + destruct (Hp _ Ha) as (b & Hab & Hbn). exists b. split; [assumption|].
      eapply reaches_trans; [eassumption | now apply reaches_edge].
Qed.

Lemma on_path_length stack n :
  on_path m stack n -> registered m n ->
  S (List.length stack) <= List.length (GetLoadedPluginNames m).
Proof.
  intros Hs Hr. pose proof (on_path_fresh Hs) as Hf.
  destruct Hs as (Hnd & Hincl & _).
  change (S (List.length stack)) with (List.length (n :: stack)).
  apply NoDup_incl_length.
  - now constructor.
  - intros x [<-|Hx]; [now apply registered_key | auto].
Qed.

Lemma resolve_each_ok rec n stack :
  on_path m stack n -> registered m n ->
  (forall d lo, edge m n d -> ~ In d lo ->
     exists lo', rec d lo = Some (true, lo') /\ adds_from m [d] lo lo' /\ In d lo' /\
                 (dependency_ordered m lo -> dependency_ordered m lo')) ->
  forall deps lo,
    (forall d, In d deps -> edge m n d) ->
    exists lo', resolve_each rec deps lo = Some (true, lo') /\
                adds_from m deps lo lo' /\
                (forall d, In d deps -> In d lo') /\
                (dependency_ordered m lo -> dependency_ordered m lo').
Proof.
  intros Hs Hr Hrec. induction deps as [|d deps IH]; intros lo Hd; simpl.
  - exists lo. repeat split; auto.
    + exists []. rewrite app_nil_r. split; [reflexivity | intros x []].
    + intros d [].
  - destruct (found d lo) eqn:Ef.
    + apply found_In in Ef.
      destruct (IH lo) as (lo' & E & (new & -> & Hnew) & Hin & Hord).
      { intros; apply Hd; now right. }
      exists (lo ++ new). repeat split; auto.
      * exists new. split; [reflexivity|]. intros x Hx.
        destruct (Hnew _ Hx) as (Hnx & r & Hr' & Hrx). split; [assumption|].
        exists r. split; [now right | assumption].
      * intros d' [<-|Hd']; [apply in_or_app; now left | auto].
    + apply found_false in Ef.
      destruct (Hrec d lo) as (lo1 & E1 & (new1 & -> & Hnew1) & Hin1 & Hord1).
      { apply Hd; now left. } { assumption. }
      rewrite E1.
      destruct (IH (lo ++ new1)) as (lo' & E & (new & -> & Hnew) & Hin & Hord).
      { intros; apply Hd; now right. }
      exists ((lo ++ new1) ++ new). repeat split; auto.
      * exists (new1 ++ new). split; [now rewrite app_assoc|]. intros x Hx.
        apply in_app_or in Hx. destruct Hx as [Hx|Hx].
        -- destruct (Hnew1 _ Hx) as (Hnx & r & [<-|[]] & Hrx). split; [assumption|].
           exists d. split; [now left | assumption].
        -- destruct (Hnew _ Hx) as (Hnx & r & Hr' & Hrx). split.
           ++ intros Hc. apply Hnx. apply in_or_app. now left.
           ++ exists r. split; [now right | assumption].
      * intros d' [<-|Hd']; [apply in_or_app; now left | auto].
Qed.

Lemma ResolveDependencies_ok fuel : forall n stack lo,
  on_path m stack n -> registered m n -> ~ In n lo ->
  List.length (GetLoadedPluginNames m) < fuel + List.length stack ->
  exists lo', ResolveDependencies fuel m n lo = Some (true, lo') /\
              adds_from m [n] lo lo' /\ In n lo' /\
              (dependency_ordered m lo -> dependency_ordered m lo').
Proof.
  induction fuel as [|fuel IH]; intros n stack lo Hs Hr Hn Hfuel.
  - pose proof (on_path_length Hs Hr). simpl in Hfuel. lia.
  - simpl. destruct (GetPlugin m n) as [p|] eqn:Ep; [|now elim Hr].
    destruct (@resolve_each_ok (ResolveDependencies fuel m) n stack Hs Hr)
      with (deps := GetDependencies p) (lo := lo)
      as (lo1 & E1 & (new1 & -> & Hnew1) & Hin1 & Hord1).
    { intros d lo0 He Hd. apply (IH d (n :: stack) lo0).
      - now apply on_path_push.
      - exact (Hcomplete He).
      - assumption.
      - simpl. lia. }
    { intros d Hd. exists p. split; assumption. }
    rewrite E1.
    assert (Hfresh : ~ In n (lo ++ new1)).
    { intros Hc. apply in_app_or in Hc. destruct Hc as [Hc|Hc]; [tauto|].
      destruct (Hnew1 _ Hc) as (_ & r & Hr' & Hrn).
      apply (@Hacyclic n r); [exists p; split; assumption | assumption]. }
    exists ((lo ++ new1) ++ [n]). repeat split.
    + exists (new1 ++ [n]). split; [now rewrite app_assoc|].
      intros x Hx. apply in_app_or in Hx. destruct Hx as [Hx|[<-|[]]].
      * destruct (Hnew1 _ Hx) as (Hnx & r & Hr' & Hrx). split; [assumption|].
        exists n. split; [now left|].
        eapply reaches_step; [exists p; split; eassumption | assumption].
      * split; [assumption|]. exists n. split; [now left | constructor].
    + apply in_or_app. right. now left.
    + intros Hord. constructor; auto.
      intros d (p' & Ep' & Hd). rewrite Ep in Ep'. injection Ep' as <-. auto.
Qed.

(** More fuel does not change a result. *)
Lemma resolve_each_mono rec rec' :
  (forall d lo r, rec d lo = Some r -> rec' d lo = Some r) ->
  forall deps lo r,
    resolve_each rec deps lo = Some r -> resolve_each rec' deps lo = Some r.
Proof.
  intros Hrec. induction deps as [|d deps IH]; intros lo r; simpl; [auto|].
  destruct (found d lo); [apply IH|].
  destruct (rec d lo) as [[[|] lo1]|] eqn:E; [| |discriminate];
    rewrite (Hrec _ _ _ E); auto.
Qed.

Lemma ResolveDependencies_mono fuel : forall fuel' n lo r,
  fuel <= fuel' ->
  ResolveDependencies fuel m n lo = Some r ->
  ResolveDependencies fuel' m n lo = Some r.
Proof.
  induction fuel as [|fuel IH]; intros fuel' n lo r Hle; simpl; [discriminate|].
  destruct fuel' as [|fuel']; [lia|]. simpl.
  destruct (GetPlugin m n) as [p|]; [|auto].
  destruct (resolve_each (ResolveDependencies fuel m) (GetDependencies p) lo)
    as [r1|] eqn:E; [|discriminate].
  rewrite (@resolve_each_mono (ResolveDependencies fuel m)
             (ResolveDependencies fuel' m)) with (r := r1); auto.
  intros d lo0 r0. apply IH. lia.
Qed.

Lemma load_order_loop_mono fuel fuel' : fuel <= fuel' ->
  forall names lo r,
    load_order_loop fuel m names lo = Some r ->
    load_order_loop fuel' m names lo = Some r.
Proof.
  intros Hle. induction names as [|n names IH]; intros lo r; simpl; [auto|].
  destruct (found n lo); [apply IH|].
  destruct (ResolveDependencies fuel m n lo) as [[b lo1]|] eqn:E; [|discriminate].
  rewrite (ResolveDependencies_mono _ _ Hle E). apply IH.
Qed.

Lemma resolve_each_app rec l1 l2 : forall lo,
  resolve_each rec (l1 ++ l2) lo =
  match resolve_each rec l1 lo with
  | Some (true, lo') => resolve_each rec l2 lo'
  | r => r
  end.
Proof.
  induction l1 as [|d l1 IH]; intros lo; simpl; [reflexivity|].
  destruct (found d lo); [apply IH|].
  destruct (rec d lo) as [[[|] lo1]|]; auto.
Qed.

Lemma on_path_nil n : on_path m [] n.
Proof.
  repeat split; [constructor | intros x [] | intros a []].
Qed.

Lemma load_order_loop_ok fuel :
  List.length (GetLoadedPluginNames m) < fuel ->
  forall names lo,
    dependency_ordered m lo ->
    exists order, load_order_loop fuel m names lo = Some order /\
                  dependency_ordered m order /\
                  (forall x, In x lo -> In x order) /\
                  (forall n, In n names -> registered m n -> In n order).
Proof.
  intros Hfuel. induction names as [|n names IH]; intros lo Hord; simpl.
  - exists lo. repeat split; auto. intros n [].
  - destruct (found n lo) eqn:Ef.
    + apply found_In in Ef.
      destruct (IH lo Hord) as (order & E & Ho & Hpre & Hall).
      exists order. repeat split; auto.
      intros n' [<-|Hn'] Hr; auto.
    + apply found_false in Ef.
      destruct (GetPlugin m n) as [p|] eqn:Ep.
      * destruct (@ResolveDependencies_ok fuel n [] lo)
          as (lo1 & E1 & (new & -> & _) & Hin1 & Hord1).
        { apply on_path_nil. } { unfold registered; congruence. }
        { assumption. } { simpl; lia. }
        rewrite E1.
        destruct (IH (lo ++ new) (Hord1 Hord)) as (order & E & Ho & Hpre & Hall).
        exists order. repeat split; auto.
        -- intros x Hx. apply Hpre. apply in_or_app. now left.
        -- intros n' [<-|Hn'] Hr; auto.
      * destruct fuel as [|fuel0]; [lia|]. simpl. rewrite Ep.
        destruct (IH lo Hord) as (order & E & Ho & Hpre & Hall).
        exists order. repeat split; auto.
        intros n' [<-|Hn'] Hr; [now elim Hr | auto].
Qed.

Lemma ordered_registered lo :
  dependency_ordered m lo -> forall n, In n lo -> registered m n.
Proof.
  induction 1 as [|lo n0 Hlo IH Hr Hf Hd]; intros n Hn; [destruct Hn|].
  apply in_app_or in Hn. destruct Hn as [Hn|[<-|[]]]; auto.
Qed.

Lemma ordered_NoDup lo : dependency_ordered m lo -> NoDup lo.
Proof.
  induction 1 as [|lo n0 Hlo IH Hr Hf Hd]; [constructor|].
  apply NoDup_rev in IH.
  rewrite <- (rev_involutive (lo ++ [n0])). apply NoDup_rev.
  rewrite rev_app_distr. simpl. constructor; [|assumption].
  now rewrite <- in_rev.
Qed.

Lemma ordered_before lo :
  dependency_ordered m lo ->
  forall n d, In n lo -> edge m n d -> appears_before d n lo.
Proof.
  induction 1 as [|lo n0 Hlo IH Hr Hf Hd]; intros n d Hn He; [destruct Hn|].
  apply in_app_or in Hn. destruct Hn as [Hn|[<-|[]]].
  - destruct (IH _ _ Hn He) as (l1 & l2 & l3 & ->).
    exists l1, l2, (l3 ++ [n0]).
    now rewrite <- !app_assoc, <- !app_comm_cons, <- app_assoc.
  - destruct (in_split _ _ (Hd _ He)) as (l1 & l2 & ->).
    exists l1, l2, []. now rewrite <- app_assoc.
Qed.

(** Siblings: a dependency declared earlier is appended earlier, unless
    the later one had to be loaded for the earlier ones. *)
Lemma ResolveDependencies_siblings fuel n p lo pre d1 mid d2 post :
  List.length (GetLoadedPluginNames m) < fuel ->
  GetPlugin m n = Some p ->
  GetDependencies p = pre ++ d1 :: mid ++ d2 :: post ->
  ~ In n lo -> ~ In d1 lo -> ~ In d2 lo ->
  (forall e, In e (pre ++ [d1]) -> ~ reaches m e d2) ->
  exists l1 l2 l3,
    ResolveDependencies fuel m n lo
    = Some (true, lo ++ l1 ++ d1 :: l2 ++ d2 :: l3 ++ [n]).
Proof.
  intros Hfuel Ep Hdeps Hn H1 H2 Hsep.
  assert (Hr : registered m n) by (unfold registered; congruence).
  pose proof (on_path_length (on_path_nil n) Hr) as Hlen.
  destruct fuel as [|fuel]; [lia|]. simpl. rewrite Ep, Hdeps.
  assert (Hrec : forall d lo0, edge m n d -> ~ In d lo0 ->
     exists lo', ResolveDependencies fuel m d lo0 = Some (true, lo') /\
                 adds_from m [d] lo0 lo' /\ In d lo' /\
                 (dependency_ordered m lo0 -> dependency_ordered m lo')).
  { intros d lo0 He Hd. apply (@ResolveDependencies_ok fuel d [n] lo0).
    - apply on_path_push; [apply on_path_nil | assumption | assumption].
    - exact (Hcomplete He).
    - assumption.
    - simpl. lia. }
  assert (Hedge : forall d, In d (pre ++ d1 :: mid ++ d2 :: post) -> edge m n d).
  { intros d Hd. exists p. split; [assumption | now rewrite Hdeps]. }
  replace (pre ++ d1 :: mid ++ d2 :: post)
    with ((pre ++ [d1]) ++ (mid ++ d2 :: post))
    by (now rewrite <- app_assoc).
  rewrite resolve_each_app.
  destruct (@resolve_each_ok (ResolveDependencies fuel m) n []
              (on_path_nil n) Hr Hrec (pre ++ [d1]) lo)
    as (lo1 & E1 & (new1 & -> & Hnew1) & Hin1 & _).
  { intros d Hd. apply Hedge. apply in_app_or in Hd.
    destruct Hd as [Hd|[<-|[]]]; apply in_or_app; [now left | right; now left]. }
  rewrite E1.
  destruct (@resolve_each_ok (ResolveDependencies fuel m) n []
              (on_path_nil n) Hr Hrec (mid ++ d2 :: post) (lo ++ new1))
    as (lo2 & E2 & (new2 & -> & Hnew2) & Hin2 & _).
  { intros d Hd. apply Hedge. apply in_or_app. right. now right. }
  rewrite E2.
  assert (I1 : In d1 new1).
  { specialize (Hin1 d1). rewrite !in_app_iff in Hin1. simpl in Hin1. tauto. }
  assert (N2 : ~ In d2 (lo ++ new1)).
  { rewrite in_app_iff. intros [Hc|Hc]; [tauto|].
    destruct (Hnew1 _ Hc) as (_ & r & Hr1 & Hr2). exact (Hsep _ Hr1 Hr2). }
  assert (I2 : In d2 new2).
  { specialize (Hin2 d2). rewrite !in_app_iff in Hin2. simpl in Hin2.
    rewrite in_app_iff in N2. tauto. }
  destruct (in_split _ _ I1) as (a & b & ->).
  destruct (in_split _ _ I2) as (c & e & ->).
  exists a, (b ++ c), e. do 2 f_equal.
  repeat (rewrite <- app_assoc; simpl). reflexivity.
Qed.
End LoadOrderFacts.

Section GraphChecks.
Context {P : Type} {PI : IPlugin P}.
Variable m : @PluginManager P.

Lemma edge_declared a b : edge m a b -> In (a, b) (declared_edges m).
Proof.
  intros (p & Ep & Hb). unfold GetPlugin in Ep. unfold declared_edges.
  destruct (Table.find a (_loadedPlugins m)) as [lp|] eqn:E; [|discriminate].
  apply find_Some_In in E. apply in_flat_map. exists (a, lp).
  split; [assumption|]. simpl. rewrite Ep. now apply in_map.
Qed.

Lemma graph_check_sound rank :
  graph_check m rank = true -> acyclic m /\ complete m.
Proof.
  unfold graph_check. rewrite forallb_forall. intros Hc.
  assert (Hrank : forall a b, edge m a b -> rank b < rank a).
  { intros a b He. apply edge_declared, Hc in He. simpl in He.
    apply andb_true_iff in He. now apply Nat.ltb_lt. }
  split.
  - intros a b He Hr. specialize (Hrank _ _ He).
    assert (Hle : rank a <= rank b).
    { clear -Hr Hc. induction Hr as [|x y z Hxy _ IH]; [lia|].
      apply edge_declared, Hc in Hxy. simpl in Hxy.
      apply andb_true_iff in Hxy. destruct Hxy as [Hxy _].
      apply Nat.ltb_lt in Hxy. lia. }
    lia.
  - intros a b He. apply edge_declared, Hc in He. simpl in He.
    apply andb_true_iff in He. destruct He as [_ He]. unfold registered.
    destruct (GetPlugin m b); [discriminate | discriminate].
Qed.
End GraphChecks.

(** C2. When the declared dependencies of the registered plugins form no
    cycle and all name registered plugins, GetPluginLoadOrder returns
    (with any fuel above the number of plugins, and the same vector for
    all of them) a load order that holds each registered plugin once and
    in which every plugin stands after each of its declared dependencies.
    Within one call of ResolveDependencies, a dependency declared earlier
    is appended earlier than one declared later, unless the later one is
    reached from a dependency declared up to the earlier one. *)
Theorem GetPluginLoadOrder_dependencies_first
    {P : Type} {PI : IPlugin P} (m : @PluginManager P) :
  acyclic m -> complete m ->
  exists order,
    (forall fuel, List.length (GetLoadedPluginNames m) < fuel ->
                  GetPluginLoadOrder fuel m = Some order) /\
    NoDup order /\
    (forall n, In n order <-> registered m n) /\
    (forall n d, registered m n -> edge m n d -> appears_before d n order) /\
    (forall fuel n p lo pre d1 mid d2 post,
       List.length (GetLoadedPluginNames m) < fuel ->
       GetPlugin m n = Some p ->
       GetDependencies p = pre ++ d1 :: mid ++ d2 :: post ->
       ~ In n lo -> ~ In d1 lo -> ~ In d2 lo ->
       (forall e, In e (pre ++ [d1]) -> ~ reaches m e d2) ->
       exists l1 l2 l3,
         ResolveDependencies fuel m n lo
         = Some (true, lo ++ l1 ++ d1 :: l2 ++ d2 :: l3 ++ [n])).
Proof.
  intros Hacyc Hcomp.
  set (fuel0 := S (List.length (GetLoadedPluginNames m))).
  destruct (@load_order_loop_ok P PI m Hacyc Hcomp fuel0 (Nat.lt_succ_diag_r _)
              (GetLoadedPluginNames m) [] (ordered_nil m))
    as (order & E & Hord & _ & Hall).
  exists order. split; [|split; [|split; [|split]]].
  - intros fuel Hfuel. unfold GetPluginLoadOrder.
    apply (@load_order_loop_mono P PI m fuel0 fuel); [unfold fuel0; lia | exact E].
  - eapply ordered_NoDup; eassumption.
  - intros n. split.
    + eapply ordered_registered; eassumption.
    + intros Hr. apply Hall; [now apply registered_key | assumption].
  - intros n d Hr He. eapply ordered_before; eauto.
    apply Hall; [now apply registered_key | assumption].
  - intros. eapply ResolveDependencies_siblings; eauto.
Qed.

Lemma GetPluginLoadOrder_dependencies_first_witness :
  (acyclic chain_manager /\ complete chain_manager) /\
  exists order,
    GetPluginLoadOrder 5 chain_manager = Some order /\
    NoDup order /\
    appears_before "core" "db" order.
Proof.
  pose proof (graph_check_sound chain_manager chain_rank eq_refl) as Hg.
  split; [exact Hg|].
  destruct (GetPluginLoadOrder_dependencies_first (proj1 Hg) (proj2 Hg))
    as (order & Hrun & Hnd & _ & Hbefore & _).
  exists order. split; [|split].
  - apply Hrun. simpl. lia.
  - exact Hnd.
  - apply Hbefore.
    + unfold registered. discriminate.
    + eexists. split; [reflexivity | now left].
Defined.

Example GetPluginLoadOrder_chain :
  GetPluginLoadOrder 5 chain_manager = Some ["core"; "net"; "db"; "app"].
Proof. reflexivity. Qed.

(** ** Invariants of reachable managers *)

Lemma state_eqb_eq a b : state_eqb a b = true <-> a = b.
Proof.
  unfold state_eqb. rewrite Nat.eqb_eq. split; [|now intros ->].
  destruct a, b; simpl; intros H; try reflexivity; discriminate.
Qed.

Lemma state_eqb_refl a : state_eqb a a = true.
Proof. now apply state_eqb_eq. Qed.

Lemma count_app f a b : count f (a ++ b) = count f a + count f b.
Proof. unfold count. now rewrite filter_app, length_app. Qed.

Section ManagerFacts.
Context {P : Type} {PI : IPlugin P}.
Implicit Types (m : @PluginManager P) (n k : string).

Lemma GetPlugin_plugins m m' :
  _loadedPlugins m' = _loadedPlugins m -> forall k, GetPlugin m' k = GetPlugin m k.
Proof. intros E k. unfold GetPlugin. now rewrite E. Qed.

(** *** for_each_in_state *)

Lemma for_each_keys from act mth t :
  Table.keys (fst (for_each_in_state from act mth t)) = Table.keys t.
Proof.
  induction t as [|[k lp] t IH]; simpl; [reflexivity|].
  destruct (for_each_in_state from act mth t) as [t' es]. simpl in IH.
  destruct (in_state from lp); simpl; now rewrite IH.
Qed.

Lemma for_each_length from act mth t :
  List.length (fst (for_each_in_state from act mth t)) = List.length t.
Proof.
  rewrite <- (length_map fst), <- (length_map fst t). f_equal. apply for_each_keys.
Qed.

Lemma for_each_map from act mth t :
  fst (for_each_in_state from act mth t)
  = map (fun kv => (fst kv, acted from act (snd kv))) t.
Proof.
  induction t as [|[k lp] t IH]; simpl; [reflexivity|].
  destruct (for_each_in_state from act mth t) as [t' es]. simpl in IH.
  unfold acted. simpl. destruct (in_state from lp); simpl; now rewrite IH.
Qed.

Lemma for_each_find from act mth t k :
  Table.find k (fst (for_each_in_state from act mth t))
  = option_map (acted from act) (Table.find k t).
Proof.
  rewrite for_each_map.
  induction t as [|[k' lp] t IH]; simpl; [reflexivity|].
  destruct (String.eqb k k'); [reflexivity | exact IH].
Qed.

Lemma for_each_effects from act mth t :
  forall e, In e (snd (for_each_in_state from act mth t)) ->
            exists k, e = ECall k mth.
Proof.
  induction t as [|[k lp] t IH]; simpl; [intros e []|].
  destruct (for_each_in_state from act mth t) as [t' es]. simpl in IH.
  destruct (in_state from lp); simpl; [|exact IH].
  intros e [<-|He]; [now exists k | auto].
Qed.

Lemma count_calls f es mth :
  (forall k, f (ECall k mth) = false) ->
  (forall e, In e es -> exists k, e = ECall k mth) -> count f es = 0.
Proof.
  intros Hf. unfold count. induction es as [|e es IH]; simpl; [reflexivity|].
  intros H. destruct (H e (or_introl eq_refl)) as (k & ->). rewrite Hf.
  apply IH. intros e' He'. apply H. now right.
Qed.

Lemma acted_plugin from act lp :
  plugin (acted from act lp)
  = match plugin lp with
    | Some p => Some (if state_eqb (GetState p) from then act p else p)
    | None => None
    end.
Proof.
  unfold acted, in_state. destruct (plugin lp) as [p|] eqn:E; [|now rewrite E].
  destruct (state_eqb (GetState p) from); simpl; [reflexivity | now rewrite E].
Qed.

Lemma acted_handle from act lp : handle (acted from act lp) = handle lp.
Proof. unfold acted. now destruct (in_state from lp). Qed.

Lemma GetPlugin_for_each from act mth m t es k :
  for_each_in_state from act mth (_loadedPlugins m) = (t, es) ->
  GetPlugin (emit es (set_plugins t m)) k
  = match GetPlugin m k with
    | Some p => Some (if state_eqb (GetState p) from then act p else p)
    | None => None
    end.
Proof.
  intros E. unfold GetPlugin. simpl.
  replace t with (fst (for_each_in_state from act mth (_loadedPlugins m)))
    by now rewrite E.
  rewrite for_each_find.
  destruct (Table.find k (_loadedPlugins m)) as [lp|]; simpl; [|reflexivity].
  apply acted_plugin.
Qed.

Lemma GetPlugin_StartAllPlugins m k :
  GetPlugin (StartAllPlugins m) k
  = match GetPlugin m k with
    | Some p => Some (if state_eqb (GetState p) INITIALIZED then Start p else p)
    | None => None
    end.
Proof.
  unfold StartAllPlugins.
  destruct (for_each_in_state INITIALIZED Start MStart (_loadedPlugins m))
    as [t es] eqn:E.
  now apply GetPlugin_for_each with (mth := MStart).
Qed.

Lemma GetPlugin_StopAllPlugins m k :
  GetPlugin (StopAllPlugins m) k
  = match GetPlugin m k with
    | Some p => Some (if state_eqb (GetState p) RUNNING then Stop p else p)
    | None => None
    end.
Proof.
  unfold StopAllPlugins.
  destruct (for_each_in_state RUNNING Stop MStop (_loadedPlugins m))
    as [t es] eqn:E.
  now apply GetPlugin_for_each with (mth := MStop).
Qed.

Lemma handlers_StartAllPlugins m :
  _eventHandlers (StartAllPlugins m) = _eventHandlers m.
Proof.
  unfold StartAllPlugins.
  now destruct (for_each_in_state INITIALIZED Start MStart (_loadedPlugins m)).
Qed.

Lemma handlers_StopAllPlugins m :
  _eventHandlers (StopAllPlugins m) = _eventHandlers m.
Proof.
  unfold StopAllPlugins.
  now destruct (for_each_in_state RUNNING Stop MStop (_loadedPlugins m)).
Qed.

Lemma for_each_inv from act mth m t es :
  (forall k, is_dlopen (ECall k mth) = false) ->
  for_each_in_state from act mth (_loadedPlugins m) = (t, es) ->
  manager_inv m -> manager_inv (emit es (set_plugins t m)).
Proof.
  intros _ E [H1 H2 H3 H4 H5].
  assert (Et : t = fst (for_each_in_state from act mth (_loadedPlugins m)))
    by now rewrite E.
  assert (Ee : es = snd (for_each_in_state from act mth (_loadedPlugins m)))
    by now rewrite E.
  constructor; simpl.
  - now rewrite Et, for_each_keys.
  - assumption.
  - intros k lp Hin. rewrite Et, for_each_map in Hin.
    apply in_map_iff in Hin. destruct Hin as ([k0 lp0] & [= <- <-] & Hin).
    destruct (H3 _ _ Hin) as [Hh Hp]. simpl.
    rewrite acted_handle, acted_plugin. split; [assumption|].
    destruct (plugin lp0); [discriminate | congruence].
  - now rewrite Et, for_each_keys.
  - rewrite !count_app, Et, for_each_length, H5.
    rewrite (@count_calls is_dlopen es mth), (@count_calls is_dlclose es mth);
      try (intros; reflexivity); try (rewrite Ee; apply for_each_effects).
    lia.
Qed.

Lemma StartAllPlugins_inv m : manager_inv m -> manager_inv (StartAllPlugins m).
Proof.
  unfold StartAllPlugins.
  destruct (for_each_in_state INITIALIZED Start MStart (_loadedPlugins m))
    as [t es] eqn:E.
  apply for_each_inv with (from := INITIALIZED) (act := Start) (mth := MStart);
    auto.
Qed.

Lemma StopAllPlugins_inv m : manager_inv m -> manager_inv (StopAllPlugins m).
Proof.
  unfold StopAllPlugins.
  destruct (for_each_in_state RUNNING Stop MStop (_loadedPlugins m))
    as [t es] eqn:E.
  apply for_each_inv with (from := RUNNING) (act := Stop) (mth := MStop);
    auto.
Qed.

(** *** UnloadPlugin *)

Lemma UnloadPlugin_absent n m :
  Table.find n (_loadedPlugins m) = None ->
  UnloadPlugin n m = (false, set_error ("Plugin not found: " ++ n) m).
Proof. intros E. unfold UnloadPlugin. now rewrite E. Qed.

(** The effects of unloading an instance in state [s0] behind handle [h]. *)
Lemma UnloadPlugin_present n m lp p h :
  Table.find n (_loadedPlugins m) = Some lp ->
  plugin lp = Some p -> handle lp = Some h ->
  let p1 := if state_eqb (GetState p) RUNNING then Stop p else p in
  let stop := if state_eqb (GetState p) RUNNING then [ECall n MStop] else [] in
  UnloadPlugin n m
  = (true,
     {| _loadedPlugins := Table.erase n (_loadedPlugins m);
        _eventHandlers := Table.erase n (_eventHandlers m);
        _lastError := _lastError m;
        _trace := _trace m ++ stop ++ [ECall n MUnload; EDlclose h;
                                       EDestroy (GetState (Unload p1))] |}).
Proof.
  intros E Ep Eh. unfold UnloadPlugin. rewrite E, Ep.
  destruct (state_eqb (GetState p) RUNNING); simpl;
    unfold UnloadPluginLibrary, set_plugins, emit; simpl; rewrite Eh; simpl;
    do 2 f_equal; rewrite <- ?app_assoc; reflexivity.
Qed.

Lemma UnloadPlugin_inv n m :
  manager_inv m -> manager_inv (snd (UnloadPlugin n m)).
Proof.
  intros Hinv. destruct (Table.find n (_loadedPlugins m)) as [lp|] eqn:E.
  - pose proof (find_Some_In _ _ E) as Hin.
    destruct Hinv as [H1 H2 H3 H4 H5].
    destruct (H3 _ _ Hin) as [Hh Hp].
    destruct (handle lp) as [h|] eqn:Eh; [|congruence].
    destruct (plugin lp) as [p|] eqn:Ep; [|congruence].
    rewrite (UnloadPlugin_present _ _ E Ep Eh). simpl.
    constructor; simpl.
    + now apply NoDup_keys_erase.
    + now apply NoDup_keys_erase.
    + intros k lp' Hk. apply In_erase in Hk. apply (H3 k). tauto.
    + intros k Hk. apply In_keys_erase in Hk. apply In_keys_erase.
      split; [apply H4|]; tauto.
    + rewrite !count_app, H5.
      rewrite <- (length_erase n _ H1 (find_Some_key _ _ E)).
      destruct (state_eqb (GetState p) RUNNING); unfold count; simpl; lia.
  - rewrite (UnloadPlugin_absent _ _ E). simpl.
    destruct Hinv; constructor; assumption.
Qed.

Lemma UnloadAllPlugins_inv m : manager_inv m -> manager_inv (UnloadAllPlugins m).
Proof.
  unfold UnloadAllPlugins. generalize (GetLoadedPluginNames m).
  intros names. revert m. induction names as [|n names IH]; intros m H; simpl.
  - assumption.
  - apply IH. now apply UnloadPlugin_inv.
Qed.

End ManagerFacts.

Section ManagerFacts2.
Context {P : Type} {PI : IPlugin P}.
Variable slot : string -> list string -> nat.
Implicit Types (m : @PluginManager P) (n k : string).

(** *** InitializePlugin *)

Lemma InitializePlugin_present n m lp p :
  Table.find n (_loadedPlugins m) = Some lp -> plugin lp = Some p ->
  CheckDependencies p = true ->
  let p' := snd (Initialize p) in
  let t := Table.replace n (with_plugin (Some p') lp) (_loadedPlugins m) in
  let hs := if fst (Initialize p)
            then match GetEventHandler p' with
                 | Some h => Table.assign slot n h (_eventHandlers m)
                 | None => _eventHandlers m
                 end
            else _eventHandlers m in
  InitializePlugin slot n m
  = (fst (Initialize p),
     {| _loadedPlugins := t; _eventHandlers := hs;
        _lastError := _lastError m;
        _trace := _trace m ++ [ECall n MInitialize] |}).
Proof.
  intros E Ep Hc. unfold InitializePlugin, CheckPluginDependencies, GetPlugin.
  rewrite E, Ep, Hc. simpl.
  destruct (Initialize p) as [ok p']. simpl.
  destruct ok; simpl; [|reflexivity].
  destruct (GetEventHandler p'); reflexivity.
Qed.

Lemma InitializePlugin_refused n m :
  (Table.find n (_loadedPlugins m) = None \/
   (exists lp, Table.find n (_loadedPlugins m) = Some lp /\
               match plugin lp with
               | Some p => CheckDependencies p = false
               | None => True
               end)) ->
  InitializePlugin slot n m = (false, m).
Proof.
  unfold InitializePlugin, CheckPluginDependencies, GetPlugin.
  intros [E|(lp & E & H)]; rewrite E; [reflexivity|].
  destruct (plugin lp); [now rewrite H | reflexivity].
Qed.

Lemma InitializePlugin_inv n m :
  manager_inv m -> manager_inv (snd (InitializePlugin slot n m)).
Proof.
  intros Hinv. destruct (Table.find n (_loadedPlugins m)) as [lp|] eqn:E.
  2:{ rewrite InitializePlugin_refused; auto. }
  destruct (plugin lp) as [p|] eqn:Ep.
  2:{ rewrite InitializePlugin_refused; auto.
      right. exists lp. now rewrite Ep. }
  destruct (CheckDependencies p) eqn:Ec.
  2:{ rewrite InitializePlugin_refused; auto.
      right. exists lp. now rewrite Ep. }
  rewrite (InitializePlugin_present _ _ E Ep Ec). simpl.
  pose proof (find_Some_In _ _ E) as Hin.
  pose proof (find_Some_key _ _ E) as Hkey.
  destruct Hinv as [H1 H2 H3 H4 H5].
  assert (G : forall hs, (hs = _eventHandlers m \/
                          exists h, hs = Table.assign slot n h (_eventHandlers m)) ->
            NoDup (Table.keys hs) /\
            incl (Table.keys hs) (Table.keys (_loadedPlugins m))).
  { intros hs [->|(h & ->)]; [now split|]. split.
    - now apply NoDup_keys_assign.
    - intros k Hk. apply In_keys_assign in Hk.
      destruct Hk as [->|Hk]; [assumption | now apply H4]. }
  match goal with |- manager_inv {| _eventHandlers := ?hs |} =>
    destruct (G hs) as [G1 G2] end.
  { destruct (fst (Initialize p)); [|now left].
    destruct (GetEventHandler (snd (Initialize p))); [right; eauto | now left]. }
  constructor; simpl.
  - now rewrite keys_replace.
  - assumption.
  - intros k lp' Hk. apply In_replace in Hk. destruct Hk as [[-> ->]|Hk].
    + simpl. split; [apply (H3 _ _ Hin) | discriminate].
    + eauto.
  - now rewrite keys_replace.
  - rewrite !count_app, length_replace, H5. unfold count. simpl. lia.
Qed.

(** *** LoadPlugin *)

(** A call of [LoadPlugin] fails and leaves both tables as they were,
    closing the library if it opened it, or stores a new entry. *)
Lemma LoadPlugin_cases pf path m :
  let r := LoadPlugin slot pf path m in
  (fst r = false /\
   _loadedPlugins (snd r) = _loadedPlugins m /\
   _eventHandlers (snd r) = _eventHandlers m /\
   exists added, _trace (snd r) = _trace m ++ added /\
                 count is_dlopen added = count is_dlclose added)
  \/
  (exists lib p p',
     fs_exists pf path = true /\ dl_open pf path = Some lib /\
     lib_CreatePlugin lib = Some (Some p) /\
     name (GetInfo p) <> "" /\ version (GetInfo p) <> "" /\
     Table.find (name (GetInfo p)) (_loadedPlugins m) = None /\
     Load p = (true, p') /\
     r = (true,
          {| _loadedPlugins :=
               Table.assign slot (name (GetInfo p))
                 {| handle := Some (lib_handle lib);
                    createFunc := Some (Some p);
                    destroyFunc := lib_DestroyPlugin lib;
                    plugin := Some p'; filePath := path |}
                 (_loadedPlugins m);
             _eventHandlers := _eventHandlers m;
             _lastError := _lastError m;
             _trace := _trace m ++ [EDlopen path (lib_handle lib);
                                    ECreate path;
                                    ECall (name (GetInfo p)) MLoad] |})).
Proof.
  unfold LoadPlugin, LoadPluginLibrary.
  destruct (fs_exists pf path) eqn:Ex; simpl.
  2:{ left. repeat split. exists []. now rewrite app_nil_r. }
  destruct (dl_open pf path) as [lib|] eqn:Ed; simpl.
  2:{ left. repeat split. exists []. now rewrite app_nil_r. }
  destruct (lib_CreatePlugin lib) as [made|] eqn:Ec; simpl.
  2:{ left. repeat split.
      exists [EDlopen path (lib_handle lib); EDlclose (lib_handle lib)].
      split; [now rewrite <- app_assoc | reflexivity]. }
  destruct made as [p|]; simpl.
  2:{ left. repeat split.
      exists [EDlopen path (lib_handle lib); ECreate path;
              EDlclose (lib_handle lib)].
      split; [now rewrite <- !app_assoc | reflexivity]. }
  destruct (String.eqb_spec (name (GetInfo p)) "") as [En|En]; simpl.
  { left. repeat split.
    exists [EDlopen path (lib_handle lib); ECreate path;
            EDlclose (lib_handle lib); EDestroy (GetState p)].
    split; [now rewrite <- !app_assoc | reflexivity]. }
  destruct (String.eqb_spec (version (GetInfo p)) "") as [Ev|Ev]; simpl.
  { left. repeat split.
    exists [EDlopen path (lib_handle lib); ECreate path;
            EDlclose (lib_handle lib); EDestroy (GetState p)].
    split; [now rewrite <- !app_assoc | reflexivity]. }
  destruct (Table.find (name (GetInfo p)) (_loadedPlugins m)) eqn:Ef; simpl.
  { left. repeat split.
    exists [EDlopen path (lib_handle lib); ECreate path;
            EDlclose (lib_handle lib); EDestroy (GetState p)].
    split; [now rewrite <- !app_assoc | reflexivity]. }
  destruct (Load p) as [loaded p'] eqn:El. destruct loaded; simpl.
  - right. exists lib, p, p'. repeat split; auto.
    unfold set_plugins, emit, with_plugin. simpl.
    now rewrite <- !app_assoc.
  - left. repeat split.
    exists [EDlopen path (lib_handle lib); ECreate path;
            ECall (name (GetInfo p)) MLoad;
            EDlclose (lib_handle lib); EDestroy (GetState p')].
    split; [now rewrite <- !app_assoc | reflexivity].
Qed.

Lemma LoadPlugin_inv pf path m :
  manager_inv m -> manager_inv (snd (LoadPlugin slot pf path m)).
Proof.
  intros [H1 H2 H3 H4 H5].
  destruct (LoadPlugin_cases pf path m)
    as [(_ & Et & Eh & added & Ea & Ec)
       |(lib & p & p' & _ & _ & _ & _ & _ & Ef & _ & ->)].
  - constructor; rewrite ?Et, ?Eh, ?Ea, ?count_app; auto. lia.
  - simpl. constructor; simpl.
    + now apply NoDup_keys_assign.
    + assumption.
    + intros k lp Hin.
      apply (Permutation_in _ (assign_fresh_perm slot _ _ _ Ef)) in Hin.
      destruct Hin as [[= <- <-]|Hin]; [simpl; split; discriminate | eauto].
    + intros k Hk. apply In_keys_assign. right. now apply H4.
    + rewrite !count_app, (length_assign_fresh slot _ _ _ Ef), H5.
      unfold count. simpl. lia.
Qed.

Lemma step_inv op m : manager_inv m -> manager_inv (step slot op m).
Proof.
  destruct op; simpl.
  - apply LoadPlugin_inv.
  - apply UnloadPlugin_inv.
  - apply InitializePlugin_inv.
  - apply StartAllPlugins_inv.
  - apply StopAllPlugins_inv.
  - apply UnloadAllPlugins_inv.
Qed.

Lemma run_inv ops : forall m, manager_inv m -> manager_inv (run slot ops m).
Proof.
  induction ops as [|op ops IH]; intros m H; simpl; [assumption|].
  apply IH. now apply step_inv.
Qed.

Lemma empty_manager_inv : manager_inv (@empty_manager P).
Proof.
  constructor; simpl;
    [constructor | constructor | intros ? ? [] | intros ? [] | reflexivity].
Qed.

Lemma reachable_inv m : reachable slot m -> manager_inv m.
Proof. intros (ops & ->). apply run_inv, empty_manager_inv. Qed.

Lemma reachable_step op m : reachable slot m -> reachable slot (step slot op m).
Proof.
  intros (ops & ->). exists (ops ++ [op]). unfold run.
  now rewrite fold_left_app.
Qed.
End ManagerFacts2.

Section LifecycleFacts.
Variable slot : string -> list string -> nat.
Implicit Types (m : @PluginManager ExamplePlugin) (n k : string).

Lemma GetPlugin_UnloadPlugin n m k :
  manager_inv m ->
  GetPlugin (snd (UnloadPlugin n m)) k
  = if String.eqb k n then None else GetPlugin m k.
Proof.
  intros Hinv. unfold GetPlugin at 1.
  destruct (Table.find n (_loadedPlugins m)) as [lp|] eqn:E.
  - pose proof (find_Some_In _ _ E) as Hin.
    destruct (inv_entries Hinv _ _ Hin) as [Hh Hp].
    destruct (handle lp) as [h|] eqn:Eh; [|congruence].
    destruct (plugin lp) as [p|] eqn:Ep; [|congruence].
    rewrite (UnloadPlugin_present _ _ E Ep Eh). simpl.
    destruct (String.eqb_spec k n) as [->|Hne].
    + now rewrite find_erase_same.
    + now rewrite find_erase_other.
  - rewrite (UnloadPlugin_absent _ _ E). simpl.
    destruct (String.eqb_spec k n) as [->|Hne]; [now rewrite E | reflexivity].
Qed.

Lemma handlers_UnloadPlugin n m k :
  manager_inv m ->
  Table.find k (_eventHandlers (snd (UnloadPlugin n m)))
  = if String.eqb k n then None else Table.find k (_eventHandlers m).
Proof.
  intros Hinv.
  destruct (Table.find n (_loadedPlugins m)) as [lp|] eqn:E.
  - pose proof (find_Some_In _ _ E) as Hin.
    destruct (inv_entries Hinv _ _ Hin) as [Hh Hp].
    destruct (handle lp) as [h|] eqn:Eh; [|congruence].
    destruct (plugin lp) as [p|] eqn:Ep; [|congruence].
    rewrite (UnloadPlugin_present _ _ E Ep Eh). simpl.
    destruct (String.eqb_spec k n) as [->|Hne].
    + now rewrite find_erase_same.
    + now rewrite find_erase_other.
  - rewrite (UnloadPlugin_absent _ _ E). simpl.
    destruct (String.eqb_spec k n) as [->|Hne]; [|reflexivity].
    apply find_None_iff. intros Hk. apply (inv_bound Hinv) in Hk.
    apply find_None_iff in E. contradiction.
Qed.

Lemma InitializePlugin_example n m lp p :
  Table.find n (_loadedPlugins m) = Some lp -> plugin lp = Some p ->
  InitializePlugin slot n m
  = (true,
     {| _loadedPlugins :=
          Table.replace n
            (with_plugin (Some (assign_states Initialize_states p)) lp)
            (_loadedPlugins m);
        _eventHandlers :=
          match _eventHandler p with
          | Some h => Table.assign slot n h (_eventHandlers m)
          | None => _eventHandlers m
          end;
        _lastError := _lastError m;
        _trace := _trace m ++ [ECall n MInitialize] |}).
Proof.
  intros E Ep.
  exact (InitializePlugin_present slot n m E Ep
           (eq_refl : CheckDependencies p = true)).
Qed.

Lemma InitializePlugin_unknown n m :
  GetPlugin m n = None -> manager_inv m ->
  InitializePlugin slot n m = (false, m).
Proof.
  intros E Hinv. apply InitializePlugin_refused. unfold GetPlugin in E.
  destruct (Table.find n (_loadedPlugins m)) as [lp|] eqn:Ef; [|now left].
  right. exists lp. split; [reflexivity|]. now rewrite E.
Qed.

Lemma GetPlugin_InitializePlugin n m k :
  GetPlugin (snd (InitializePlugin slot n m)) k
  = if String.eqb k n
    then option_map (assign_states Initialize_states) (GetPlugin m n)
    else GetPlugin m k.
Proof.
  unfold GetPlugin at 1 2.
  destruct (Table.find n (_loadedPlugins m)) as [lp|] eqn:E.
  - destruct (plugin lp) as [p|] eqn:Ep.
    + rewrite (InitializePlugin_example _ _ E Ep). simpl.
      destruct (String.eqb_spec k n) as [->|Hne].
      * rewrite find_replace_same by congruence. reflexivity.
      * now rewrite find_replace_other.
    + rewrite InitializePlugin_refused.
      2:{ right. exists lp. now rewrite Ep. }
      simpl. destruct (String.eqb_spec k n) as [->|Hne]; [|reflexivity].
      unfold GetPlugin. now rewrite E, Ep.
  - rewrite InitializePlugin_refused by now left. simpl.
    destruct (String.eqb_spec k n) as [->|Hne]; [|reflexivity].
    unfold GetPlugin. now rewrite E.
Qed.

Lemma handlers_InitializePlugin n m k :
  Table.find k (_eventHandlers (snd (InitializePlugin slot n m)))
  = match (if String.eqb k n then GetPlugin m n else None) with
    | Some p => match _eventHandler p with
                | Some h => Some h
                | None => Table.find k (_eventHandlers m)
                end
    | None => Table.find k (_eventHandlers m)
    end.
Proof.
  unfold GetPlugin.
  destruct (Table.find n (_loadedPlugins m)) as [lp|] eqn:E.
  - destruct (plugin lp) as [p|] eqn:Ep.
    + rewrite (InitializePlugin_example _ _ E Ep). simpl.
      destruct (String.eqb_spec k n) as [->|Hne].
      * destruct (_eventHandler p); [apply find_assign_same | reflexivity].
      * destruct (_eventHandler p); [now apply find_assign_other | reflexivity].
    + rewrite InitializePlugin_refused.
      2:{ right. exists lp. now rewrite Ep. }
      simpl. now destruct (String.eqb k n).
  - rewrite InitializePlugin_refused by now left. simpl.
    now destruct (String.eqb k n).
Qed.

Lemma lifecycle_UnloadPlugin n m :
  manager_inv m -> lifecycle_inv m -> lifecycle_inv (snd (UnloadPlugin n m)).
Proof.
  intros Hinv [L1 L2 L3]. constructor.
  - intros k p. rewrite GetPlugin_UnloadPlugin by assumption.
    destruct (String.eqb k n); [discriminate | apply L1].
  - intros k h. rewrite handlers_UnloadPlugin by assumption.
    destruct (String.eqb k n) eqn:Ek; [discriminate|].
    intros Hf. destruct (L2 _ _ Hf) as (p & Hp & Hh). exists p.
    rewrite GetPlugin_UnloadPlugin, Ek by assumption. now split.
  - intros k p h. rewrite GetPlugin_UnloadPlugin, handlers_UnloadPlugin
      by assumption.
    destruct (String.eqb k n); [discriminate | apply L3].
Qed.

Lemma lifecycle_UnloadAllPlugins m :
  manager_inv m -> lifecycle_inv m -> lifecycle_inv (UnloadAllPlugins m).
Proof.
  unfold UnloadAllPlugins. generalize (GetLoadedPluginNames m).
  intros names. revert m. induction names as [|n names IH]; intros m H L; simpl.
  - assumption.
  - apply IH; [now apply UnloadPlugin_inv | now apply lifecycle_UnloadPlugin].
Qed.

Lemma lifecycle_InitializePlugin n m :
  lifecycle_inv m -> lifecycle_inv (snd (InitializePlugin slot n m)).
Proof.
  intros [L1 L2 L3]. constructor.
  - intros k p. rewrite GetPlugin_InitializePlugin.
    destruct (String.eqb k n); [|apply L1].
    destruct (GetPlugin m n); simpl; [|discriminate].
    intros [= <-]. unfold loaded_state. simpl. auto.
  - intros k h. rewrite handlers_InitializePlugin, GetPlugin_InitializePlugin.
    destruct (String.eqb_spec k n) as [->|Hne]; [|apply L2].
    destruct (GetPlugin m n) as [p|] eqn:Ep; simpl.
    + destruct (_eventHandler p) as [h0|] eqn:Eh.
      * intros [= <-]. eexists. split; [reflexivity | exact Eh].
      * intros Hf. destruct (L2 _ _ Hf) as (p1 & Hp1 & Hh1). congruence.
    + intros Hf. destruct (L2 _ _ Hf) as (p1 & Hp1 & Hh1). congruence.
  - intros k p h. rewrite handlers_InitializePlugin, GetPlugin_InitializePlugin.
    destruct (String.eqb_spec k n) as [->|Hne]; [|apply L3].
    destruct (GetPlugin m n) as [p0|] eqn:Ep; simpl; [|discriminate].
    intros [= <-] _ Hh. simpl in Hh. now rewrite Hh.
Qed.

Lemma lifecycle_StartAllPlugins m :
  lifecycle_inv m -> lifecycle_inv (StartAllPlugins m).
Proof.
  intros [L1 L2 L3]. constructor.
  - intros k p. rewrite GetPlugin_StartAllPlugins.
    destruct (GetPlugin m k) as [p0|] eqn:Ep; [|discriminate].
    intros [= <-]. simpl. destruct (state_eqb (_state p0) INITIALIZED).
    + unfold loaded_state. simpl. auto.
    + eauto.
  - intros k h. rewrite handlers_StartAllPlugins, GetPlugin_StartAllPlugins.
    intros Hf. destruct (L2 _ _ Hf) as (p & -> & Hh).
    eexists. split; [reflexivity|].
    now destruct (state_eqb (GetState p) INITIALIZED).
  - intros k p h. rewrite handlers_StartAllPlugins, GetPlugin_StartAllPlugins.
    destruct (GetPlugin m k) as [p0|] eqn:Ep; [|discriminate].
    intros [= <-]. simpl. destruct (state_eqb (_state p0) INITIALIZED) eqn:Es.
    + apply state_eqb_eq in Es. intros _ Hh. apply (L3 _ _ _ Ep); [|exact Hh].
      now left.
    + apply L3; assumption.
Qed.

Lemma lifecycle_StopAllPlugins m :
  lifecycle_inv m -> lifecycle_inv (StopAllPlugins m).
Proof.
  intros [L1 L2 L3]. constructor.
  - intros k p. rewrite GetPlugin_StopAllPlugins.
    destruct (GetPlugin m k) as [p0|] eqn:Ep; [|discriminate].
    intros [= <-]. simpl. destruct (state_eqb (_state p0) RUNNING).
    + unfold loaded_state. simpl. auto.
    + eauto.
  - intros k h. rewrite handlers_StopAllPlugins, GetPlugin_StopAllPlugins.
    intros Hf. destruct (L2 _ _ Hf) as (p & -> & Hh).
    eexists. split; [reflexivity|].
    now destruct (state_eqb (GetState p) RUNNING).
  - intros k p h. rewrite handlers_StopAllPlugins, GetPlugin_StopAllPlugins.
    destruct (GetPlugin m k) as [p0|] eqn:Ep; [|discriminate].
    intros [= <-]. simpl. destruct (state_eqb (_state p0) RUNNING) eqn:Es.
    + intros [H|H]; discriminate.
    + apply L3; assumption.
Qed.

Lemma lifecycle_LoadPlugin pf path m :
  manager_inv m -> lifecycle_inv m ->
  lifecycle_inv (snd (LoadPlugin slot pf path m)).
Proof.
  intros Hinv [L1 L2 L3].
  destruct (LoadPlugin_cases slot pf path m)
    as [(_ & Et & Eh & _)
       |(lib & p & p' & _ & _ & _ & _ & _ & Ef & El & ->)].
  - pose proof (GetPlugin_plugins _ _ Et) as Eg.
    constructor.
    + intros k q. rewrite Eg. apply L1.
    + intros k h. rewrite Eh. intros Hf.
      destruct (L2 _ _ Hf) as (q & Hq & Hh). exists q. now rewrite Eg.
    + intros k q h. rewrite Eg, Eh. apply L3.
  - simpl in El. injection El as <-. simpl snd.
    set (n := name (GetInfo p)) in *.
    assert (Eg : forall k, GetPlugin
               {| _loadedPlugins :=
                    Table.assign slot n
                      {| handle := Some (lib_handle lib);
                         createFunc := Some (Some p);
                         destroyFunc := lib_DestroyPlugin lib;
                         plugin := Some (assign_states Load_states p);
                         filePath := path |} (_loadedPlugins m);
                  _eventHandlers := _eventHandlers m;
                  _lastError := _lastError m;
                  _trace := _trace m ++ [EDlopen path (lib_handle lib);
                                         ECreate path; ECall n MLoad] |} k
               = if String.eqb k n then Some (assign_states Load_states p)
                 else GetPlugin m k).
    { intros k. unfold GetPlugin. simpl.
      destruct (String.eqb_spec k n) as [->|Hne].
      - now rewrite find_assign_same.
      - now rewrite find_assign_other. }
    assert (Hfresh : forall k h, Table.find k (_eventHandlers m) = Some h ->
                                 String.eqb k n = false).
    { intros k h Hf. apply String.eqb_neq. intros ->.
      apply find_Some_key in Hf. apply (inv_bound Hinv) in Hf.
      apply find_None_iff in Ef. contradiction. }
    constructor; simpl _eventHandlers.
    + intros k q. rewrite Eg. destruct (String.eqb k n); [|apply L1].
      intros [= <-]. unfold loaded_state. simpl. auto.
    + intros k h Hf. rewrite Eg, (Hfresh _ _ Hf). eauto.
    + intros k q h. rewrite Eg. destruct (String.eqb k n); [|apply L3].
      intros [= <-] [H|H]; discriminate.
Qed.

Lemma lifecycle_step op m :
  manager_inv m -> lifecycle_inv m -> lifecycle_inv (step slot op m).
Proof.
  destruct op; simpl; intros Hinv L.
  - now apply lifecycle_LoadPlugin.
  - now apply lifecycle_UnloadPlugin.
  - now apply lifecycle_InitializePlugin.
  - now apply lifecycle_StartAllPlugins.
  - now apply lifecycle_StopAllPlugins.
  - now apply lifecycle_UnloadAllPlugins.
Qed.

Lemma lifecycle_run ops : forall m,
  manager_inv m -> lifecycle_inv m -> lifecycle_inv (run slot ops m).
Proof.
  induction ops as [|op ops IH]; intros m Hinv L; simpl; [assumption|].
  apply IH; [now apply step_inv | now apply lifecycle_step].
Qed.

Lemma reachable_lifecycle m : reachable slot m -> lifecycle_inv m.
Proof.
  intros (ops & ->). apply lifecycle_run; [apply empty_manager_inv|].
  constructor; unfold GetPlugin; simpl; intros; discriminate.
Qed.
End LifecycleFacts.

(** ** Load order on graphs the resolver does not handle

    What a returning call leaves holds on every graph; it shows that on a
    complete graph with a cycle no call returns, and that a plugin with an
    unregistered dependency is left out of every returned order. *)

Section PartialFacts.
Context {P : Type} {PI : IPlugin P}.
Variable m : @PluginManager P.

Lemma snoc_split (l1 l2 lo : list string) (x n : string) :
  l1 ++ x :: l2 = lo ++ [n] ->
  (l2 = [] /\ l1 = lo /\ x = n) \/
  (exists l2', l2 = l2' ++ [n] /\ lo = l1 ++ x :: l2').
Proof.
  intros E. destruct (exists_last (l := x :: l2)) as (l' & y & El);
    [discriminate|].
  rewrite El, app_assoc in E. apply app_inj_tail in E. destruct E as [E ->].
  destruct l2 as [|z l2].
  - left. destruct l' as [|? [|? ?]]; simpl in El; try discriminate.
    injection El as ->. rewrite app_nil_r in E. auto.
  - right. destruct (exists_last (l := z :: l2)) as (l2' & y' & El2);
      [discriminate|].
    rewrite El2 in El. rewrite app_comm_cons in El.
    apply app_inj_tail in El. destruct El as [El ->].
    exists l2'. split; [assumption|]. now rewrite <- E, <- El.
Qed.

Lemma deps_in_front_snoc lo n :
  deps_in_front m lo -> registered m n -> (forall d, edge m n d -> In d lo) ->
  deps_in_front m (lo ++ [n]).
Proof.
  intros Hlo Hr Hd l1 x l2 E.
  destruct (@snoc_split l1 l2 lo x n (eq_sym E)) as [(-> & -> & ->)|(l2' & -> & ->)].
  - split; assumption.
  - exact (Hlo l1 x l2' eq_refl).
Qed.

Lemma deps_in_front_prefix l1 l2 :
  deps_in_front m (l1 ++ l2) -> deps_in_front m l1.
Proof.
  intros H a x b ->. apply (H a x (b ++ l2)).
  now rewrite <- app_assoc.
Qed.

Lemma deps_in_front_closed lo :
  deps_in_front m lo ->
  forall x y, reaches m x y -> In x lo -> In y lo.
Proof.
  intros H x y Hxy. induction Hxy as [|a b c Hab _ IH]; [auto|].
  intros Ha. apply IH. destruct (in_split _ _ Ha) as (l1 & l2 & ->).
  apply in_or_app. left. exact (proj2 (H l1 a l2 eq_refl) b Hab).
Qed.

(** A vector with dependencies in front holds no plugin of a cycle. *)
Lemma deps_in_front_no_cycle a b :
  edge m a b -> reaches m b a ->
  forall lo, deps_in_front m lo -> ~ In a lo.
Proof.
  intros Hab Hba lo. remember (List.length lo) as k eqn:Ek.
  revert lo Ek. induction k as [k IH] using lt_wf_ind. intros lo -> Hlo Ha.
  destruct (in_split _ _ Ha) as (l1 & l2 & ->).
  assert (Hl1 : deps_in_front m l1)
    by (eapply deps_in_front_prefix; eassumption).
  pose proof (proj2 (Hlo l1 a l2 eq_refl) b Hab) as Hb.
  apply (IH (List.length l1)) with (lo := l1); auto.
  - rewrite length_app. simpl. lia.
  - eapply deps_in_front_closed; eassumption.
Qed.

(** A vector with dependencies in front holds no plugin with an
    unregistered dependency. *)
Lemma deps_in_front_no_missing n d :
  edge m n d -> ~ registered m d ->
  forall lo, deps_in_front m lo -> ~ In n lo.
Proof.
  intros Hnd Hd lo Hlo Hn. destruct (in_split _ _ Hn) as (l1 & l2 & ->).
  pose proof (proj2 (Hlo l1 n l2 eq_refl) d Hnd) as Hin.
  destruct (in_split _ _ Hin) as (a & b & ->).
  apply Hd. apply (Hlo a d (b ++ n :: l2)). now rewrite <- app_assoc.
Qed.

Lemma resolve_each_returns rec deps :
  (forall d lo r, In d deps -> rec d lo = Some r -> returns_well m d lo r) ->
  forall lo r,
    resolve_each rec deps lo = Some r ->
    (exists new, snd r = lo ++ new) /\
    (deps_in_front m lo -> deps_in_front m (snd r)) /\
    (fst r = true -> forall d, In d deps -> In d (snd r)).
Proof.
  induction deps as [|d deps IH]; intros Hrec lo r; simpl.
  - intros [= <-]. simpl. split; [|split].
    + exists []. now rewrite app_nil_r.
    + auto.
    + intros _ d [].
  - assert (Hrec' : forall d0 lo0 r0, In d0 deps -> rec d0 lo0 = Some r0 ->
                                      returns_well m d0 lo0 r0)
      by (intros; apply Hrec; [now right | assumption]).
    destruct (found d lo) eqn:Ef.
    + intros E. destruct (IH Hrec' _ _ E) as (Hg & Hk & Hin).
      apply found_In in Ef. split; [exact Hg|]. split; [exact Hk|].
      intros Ht d' [<-|Hd']; [|auto].
      destruct Hg as (new & ->). apply in_or_app. now left.
    + destruct (rec d lo) as [[[|] lo1]|] eqn:E1; [| |discriminate].
      * destruct (Hrec d lo _ (or_introl eq_refl) E1) as ((n1 & E) & Hk1 & Hin1).
        simpl in *. subst lo1. intros E.
        destruct (IH Hrec' _ _ E) as ((n2 & E2) & Hk & Hin).
        split; [|split].
        -- exists (n1 ++ n2). now rewrite E2, app_assoc.
        -- auto.
        -- intros Ht d' [<-|Hd']; [|auto].
           rewrite E2. apply in_or_app. left. auto.
      * intros [= <-].
        destruct (Hrec d lo _ (or_introl eq_refl) E1) as (Hg & Hk1 & _).
        simpl in *. split; [exact Hg|]. split; [exact Hk1 | discriminate].
Qed.

Lemma ResolveDependencies_returns fuel : forall n lo r,
  ResolveDependencies fuel m n lo = Some r -> returns_well m n lo r.
Proof.
  induction fuel as [|fuel IH]; intros n lo r; simpl; [discriminate|].
  destruct (GetPlugin m n) as [p|] eqn:Ep.
  - destruct (resolve_each (ResolveDependencies fuel m) (GetDependencies p) lo)
      as [[[|] lo1]|] eqn:E; [| |discriminate].
    + intros [= <-].
      destruct (@resolve_each_returns (ResolveDependencies fuel m)
                  (GetDependencies p) (fun d lo0 r0 _ => IH d lo0 r0) _ _ E)
        as ((new & E1) & Hk & Hin). simpl in *. subst lo1.
      split; [|split]; simpl.
      * exists (new ++ [n]). now rewrite app_assoc.
      * intros Hlo. apply deps_in_front_snoc; auto.
        -- unfold registered. congruence.
        -- intros d (p' & Ep' & Hd). rewrite Ep in Ep'. injection Ep' as <-.
           auto.
      * intros _. apply in_or_app. right. now left.
    + intros [= <-].
      destruct (@resolve_each_returns (ResolveDependencies fuel m)
                  (GetDependencies p) (fun d lo0 r0 _ => IH d lo0 r0) _ _ E)
        as (Hg & Hk & _).
      split; [exact Hg|]. split; [exact Hk | discriminate].
  - intros [= <-]. split; [|split]; simpl; [|auto|discriminate].
    exists []. now rewrite app_nil_r.
Qed.

(** On a complete graph a call on a registered plugin that returns,
    returns true. *)
Lemma resolve_each_true rec deps :
  (forall d lo r, In d deps -> rec d lo = Some r -> fst r = true) ->
  forall lo r, resolve_each rec deps lo = Some r -> fst r = true.
Proof.
  induction deps as [|d deps IH]; intros Hrec lo r; simpl.
  - now intros [= <-].
  - assert (Hrec' : forall d0 lo0 r0, In d0 deps -> rec d0 lo0 = Some r0 ->
                                      fst r0 = true)
      by (intros d0 lo0 r0 Hd0 E0; apply (Hrec d0 lo0 r0); [now right | exact E0]).
    destruct (found d lo); [now apply IH|].
    destruct (rec d lo) as [[[|] lo1]|] eqn:E1; [now apply IH | |discriminate].
    specialize (Hrec d lo _ (or_introl eq_refl) E1). discriminate Hrec.
Qed.

Lemma ResolveDependencies_true fuel :
  complete m ->
  forall n lo r, registered m n ->
    ResolveDependencies fuel m n lo = Some r -> fst r = true.
Proof.
  intros Hc. induction fuel as [|fuel IH]; intros n lo r Hr; simpl;
    [discriminate|].
  destruct (GetPlugin m n) as [p|] eqn:Ep; [|now elim Hr].
  destruct (resolve_each (ResolveDependencies fuel m) (GetDependencies p) lo)
    as [[b lo1]|] eqn:E; [|discriminate].
  assert (Hb : b = true).
  { change b with (fst (b, lo1)).
    apply (@resolve_each_true (ResolveDependencies fuel m) (GetDependencies p))
      with (lo := lo); [|exact E].
    intros d lo0 r0 Hd. apply IH. apply (Hc n d). exists p. auto. }
  subst b. now intros [= <-].
Qed.

Lemma load_order_loop_returns fuel names : forall lo order,
  load_order_loop fuel m names lo = Some order ->
  deps_in_front m lo ->
  deps_in_front m order /\
  (forall x, In x lo -> In x order) /\
  (complete m -> forall n, In n names -> registered m n -> In n order).
Proof.
  induction names as [|n names IH]; intros lo order; simpl.
  - intros [= <-] Hlo. split; [|split]; auto. intros _ n [].
  - destruct (found n lo) eqn:Ef.
    + intros E Hlo. destruct (IH _ _ E Hlo) as (Hk & Hin & Hall).
      apply found_In in Ef. split; [|split]; auto.
      intros Hc n' [<-|Hn'] Hr; auto.
    + destruct (ResolveDependencies fuel m n lo) as [[b lo1]|] eqn:E1;
        [|discriminate].
      intros E Hlo.
      destruct (@ResolveDependencies_returns fuel n lo _ E1)
        as ((new & En) & Hk1 & Hin1).
      simpl in *. subst lo1.
      destruct (IH _ _ E (Hk1 Hlo)) as (Hk & Hin & Hall).
      split; [|split]; auto.
      * intros x Hx. apply Hin. apply in_or_app. now left.
      * intros Hc n' [<-|Hn'] Hr; [|auto].
        apply Hin, Hin1.
        change b with (fst (b, lo ++ new)).
        eapply ResolveDependencies_true; eassumption.
Qed.

Lemma deps_in_front_nil : deps_in_front m [].
Proof. intros [|? ?] x l2 E; discriminate E. Qed.

(** On a complete graph with a cycle the load order is never returned. *)
Lemma GetPluginLoadOrder_cycle_diverges a b :
  complete m -> edge m a b -> reaches m b a ->
  forall fuel, GetPluginLoadOrder fuel m = None.
Proof.
  intros Hc Hab Hba fuel. unfold GetPluginLoadOrder.
  destruct (load_order_loop fuel m (GetLoadedPluginNames m) []) as [order|] eqn:E;
    [|reflexivity].
  destruct (@load_order_loop_returns fuel _ _ _ E deps_in_front_nil)
    as (Hk & _ & Hall).
  exfalso. apply (@deps_in_front_no_cycle a b Hab Hba order Hk).
  assert (Hr : registered m a).
  { destruct Hab as (p & Ep & _). unfold registered. congruence. }
  apply (Hall Hc); [now apply registered_key | assumption].
Qed.

(** A plugin with an unregistered dependency is in no returned load
    order, and the result carries nothing else. *)
Lemma GetPluginLoadOrder_omits_unresolved n d fuel order :
  edge m n d -> ~ registered m d ->
  GetPluginLoadOrder fuel m = Some order -> ~ In n order.
Proof.
  intros Hnd Hd E.
  destruct (@load_order_loop_returns fuel _ _ _ E deps_in_front_nil)
    as (Hk & _).
  exact (@deps_in_front_no_missing n d Hnd Hd order Hk).
Qed.
End PartialFacts.

Section Divergence.
Context {P : Type} {PI : IPlugin P}.
Variable m : @PluginManager P.

(** Two plugins that name each other first: neither call returns. *)
Lemma ResolveDependencies_mutual a b pa pb ra rb :
  GetPlugin m a = Some pa -> GetDependencies pa = b :: ra ->
  GetPlugin m b = Some pb -> GetDependencies pb = a :: rb ->
  forall fuel lo, ~ In a lo -> ~ In b lo ->
    ResolveDependencies fuel m a lo = None /\
    ResolveDependencies fuel m b lo = None.
Proof.
  intros Ea Da Eb Db. induction fuel as [|fuel IH]; intros lo Ha Hb.
  - split; reflexivity.
  - destruct (IH lo Ha Hb) as [IHa IHb].
    apply found_false in Ha. apply found_false in Hb.
    split; simpl.
    + now rewrite Ea, Da; simpl; rewrite Hb, IHb.
    + now rewrite Eb, Db; simpl; rewrite Ha, IHa.
Qed.
End Divergence.

(** C1. On the mutual dependency of section 8 ("A" depends on "B" and
    "B" on "A") the dependency graph has a cycle, and the load-order
    computation does not fail with an error: with no amount of fuel does
    ResolveDependencies, GetPluginLoadOrder or InitializeAllPlugins
    return. *)
Theorem GetPluginLoadOrder_mutual_never_returns :
  ~ acyclic mutual_manager /\
  forall fuel,
    ResolveDependencies fuel mutual_manager "A" [] = None /\
    GetPluginLoadOrder fuel mutual_manager = None /\
    InitializeAllPlugins ordered_slot fuel mutual_manager = None.
Proof.
  split.
  - intros H. apply (H "A" "B").
    + eexists. split; [reflexivity | now left].
    + eapply reaches_step; [|apply reaches_refl].
      eexists. split; [reflexivity | now left].
  - intros fuel.
    assert (E : ResolveDependencies fuel mutual_manager "A" [] = None).
    { eapply (@ResolveDependencies_mutual _ _ mutual_manager "A" "B");
        try reflexivity; intros []. }
    split; [exact E|].
    assert (G : GetPluginLoadOrder fuel mutual_manager = None).
    { unfold GetPluginLoadOrder. simpl. now rewrite E. }
    split; [exact G|]. unfold InitializeAllPlugins. now rewrite G.
Qed.

(** C3. "A" declares the dependency "X", which no plugin registers.
    ResolveDependencies returns false for "A" and for "B", which depends
    on "A", and GetPluginLoadOrder, which drops that result, returns the
    order of the remaining plugin alone, with no error. *)
Theorem GetPluginLoadOrder_missing_dependency_silent :
  forall fuel,
    ResolveDependencies (S (S fuel)) missing_manager "A" [] = Some (false, []) /\
    ResolveDependencies (S (S (S fuel))) missing_manager "B" [] = Some (false, []) /\
    GetPluginLoadOrder (S (S (S fuel))) missing_manager = Some ["C"].
Proof. intros fuel. repeat split. Qed.

(** ** Unloading and loading *)

(** C10. UnloadPlugin on a name without table entry returns false and
    leaves the plugin table, the handler table and the trace of library
    and lifecycle calls as they were. *)
Theorem UnloadPlugin_unknown_name
    {P : Type} {PI : IPlugin P} (n : string) (m : @PluginManager P) :
  ~ In n (GetLoadedPluginNames m) ->
  fst (UnloadPlugin n m) = false /\
  _loadedPlugins (snd (UnloadPlugin n m)) = _loadedPlugins m /\
  _eventHandlers (snd (UnloadPlugin n m)) = _eventHandlers m /\
  _trace (snd (UnloadPlugin n m)) = _trace m.
Proof.
  intros H. apply find_None_iff in H.
  rewrite (UnloadPlugin_absent _ _ H). repeat split.
Qed.

Lemma UnloadPlugin_unknown_name_witness :
  ~ In "ghost" (GetLoadedPluginNames solo_running) /\
  fst (UnloadPlugin "ghost" solo_running) = false /\
  _loadedPlugins (snd (UnloadPlugin "ghost" solo_running))
  = _loadedPlugins solo_running /\
  _eventHandlers (snd (UnloadPlugin "ghost" solo_running))
  = _eventHandlers solo_running /\
  _trace (snd (UnloadPlugin "ghost" solo_running)) = _trace solo_running.
Proof.
  assert (H : ~ In "ghost" (GetLoadedPluginNames solo_running)).
  { vm_compute. intros [E|[]]. discriminate E. }
  split; [exact H | exact (UnloadPlugin_unknown_name "ghost" solo_running H)].
Defined.



(** ** Notifications *)

Section Notify.
Variable throws : IEventHandler -> HostEvent -> bool.
Variable ev : HostEvent.

Lemma invoke_each_quiet handlers :
  (forall x, In x handlers -> throws x ev = false) ->
  invoke_each throws ev handlers = (handlers, false).
Proof.
  induction handlers as [|h rest IH]; intros H; simpl; [reflexivity|].
  rewrite (H h) by now left. rewrite IH; [reflexivity|].
  intros x Hx. apply H. now right.
Qed.

Lemma invoke_each_stops pre h post :
  (forall x, In x pre -> throws x ev = false) -> throws h ev = true ->
  invoke_each throws ev (pre ++ h :: post) = (pre ++ [h], true).
Proof.
  induction pre as [|x pre IH]; intros H Hh; simpl.
  - now rewrite Hh.
  - rewrite (H x) by now left. rewrite IH; [reflexivity| |assumption].
    intros y Hy. apply H. now right.
Qed.
End Notify.

(** C5, as the code has it.  A notification calls the handlers in order
    up to the first one that throws: that exception leaves the dispatcher
    and the handlers after it are not called.  When no handler throws,
    every handler is called. *)
Theorem notification_stops_at_first_exception
    {P : Type} {PI : IPlugin P}
    (std_sort : list (PluginPriority * IEventHandler) ->
                list (PluginPriority * IEventHandler))
    (throws : IEventHandler -> HostEvent -> bool)
    (m : @PluginManager P) (arg : nat) :
  let handlers := GetEventHandlersByPriority std_sort m in
  (forall pre h post,
     handlers = pre ++ h :: post ->
     (forall x, In x pre -> throws x (PlayerLogin arg) = false) ->
     throws h (PlayerLogin arg) = true ->
     OnPlayerLogin std_sort throws m arg = (pre ++ [h], true)) /\
  (forall pre h post,
     handlers = pre ++ h :: post ->
     (forall x, In x pre -> throws x (PlayerLogout arg) = false) ->
     throws h (PlayerLogout arg) = true ->
     OnPlayerLogout std_sort throws m arg = (pre ++ [h], true)) /\
  (forall pre h post,
     handlers = pre ++ h :: post ->
     (forall x, In x pre -> throws x (WorldUpdate arg) = false) ->
     throws h (WorldUpdate arg) = true ->
     OnWorldUpdate std_sort throws m arg = (pre ++ [h], true)) /\
  ((forall x, In x handlers -> throws x (PlayerLogin arg) = false) ->
   OnPlayerLogin std_sort throws m arg = (handlers, false)) /\
  ((forall x, In x handlers -> throws x (PlayerLogout arg) = false) ->
   OnPlayerLogout std_sort throws m arg = (handlers, false)) /\
  ((forall x, In x handlers -> throws x (WorldUpdate arg) = false) ->
   OnWorldUpdate std_sort throws m arg = (handlers, false)).
Proof.
  intros handlers. unfold OnPlayerLogin, OnPlayerLogout, OnWorldUpdate.
  fold handlers.
  repeat split;
    try (intros pre h post -> Hpre Hh; now apply invoke_each_stops);
    intros Hq; now apply invoke_each_quiet.
Qed.

Lemma notification_stops_at_first_exception_witness :
  GetEventHandlersByPriority (insertion_sort by_priority) three_manager
  = [1; 3; 2] /\
  OnPlayerLogin (insertion_sort by_priority) first_throws three_manager 9
  = ([1], true).
Proof.
  split; [reflexivity|].
  apply (proj1 (notification_stops_at_first_exception
                  (insertion_sort by_priority) first_throws three_manager 9)
               [] 1 [3; 2]).
  - reflexivity.
  - intros x [].
  - reflexivity.
Defined.

(** C5, as the specification states it, fails on the scenario of
    section 8: of the three running handlers, dispatched in the order
    1, 3, 2, the first throws; the other two are not called and the
    exception leaves OnPlayerLogin. *)
Lemma notification_handler_failure_aborts :
  GetEventHandlersByPriority (insertion_sort by_priority) three_manager
  = [1; 3; 2] /\
  OnPlayerLogin (insertion_sort by_priority) first_throws three_manager 9
  = ([1], true) /\
  ~ (In 3 (fst (OnPlayerLogin (insertion_sort by_priority) first_throws
                  three_manager 9)) /\
     In 2 (fst (OnPlayerLogin (insertion_sort by_priority) first_throws
                  three_manager 9)) /\
     snd (OnPlayerLogin (insertion_sort by_priority) first_throws
            three_manager 9) = false).
Proof.
  split; [reflexivity|]. split; [reflexivity|].
  intros (_ & _ & H). discriminate H.
Qed.

(** ** Dispatch order *)

Section SortFacts.
Variable A : Type.
Variable comp : A -> A -> bool.

Lemma insert_sorted_perm x l : Permutation (insert_sorted comp x l) (x :: l).
Proof.
  induction l as [|y l IH]; simpl; [reflexivity|].
  destruct (comp x y); [reflexivity|].
  rewrite IH. apply perm_swap.
Qed.

Lemma insertion_sort_perm l : Permutation (insertion_sort comp l) l.
Proof.
  unfold insertion_sort.
  assert (G : forall acc, Permutation
                (fold_left (fun acc x => insert_sorted comp x acc) l acc)
                (acc ++ l)).
  { induction l as [|x l IH]; intros acc; simpl.
    - now rewrite app_nil_r.
    - rewrite IH, insert_sorted_perm. apply Permutation_middle. }
  exact (G []).
Qed.
End SortFacts.

Lemma not_after_le a b :
  not_after a b <-> priority_value (fst b) <= priority_value (fst a).
Proof.
  unfold not_after, by_priority, priority_gtb. rewrite Nat.ltb_ge. tauto.
Qed.

Lemma insert_sorted_by_priority x l :
  StronglySorted not_after l ->
  StronglySorted not_after (insert_sorted by_priority x l).
Proof.
  induction 1 as [|y l Hs IH Hy]; simpl.
  - constructor; constructor.
  - destruct (by_priority x y) eqn:E.
    + constructor; [now constructor|].
      unfold by_priority, priority_gtb in E. apply Nat.ltb_lt in E.
      constructor.
      * apply not_after_le. lia.
      * rewrite Forall_forall in *. intros z Hz. apply not_after_le.
        specialize (Hy z Hz). apply not_after_le in Hy. lia.
    + constructor; [assumption|].
      rewrite Forall_forall in *. intros z Hz.
      apply (Permutation_in _ (insert_sorted_perm by_priority x l)) in Hz.
      destruct Hz as [<-|Hz]; [exact E | auto].
Qed.

Lemma insertion_sort_by_priority l :
  StronglySorted not_after (insertion_sort by_priority l).
Proof.
  unfold insertion_sort.
  assert (G : forall acc, StronglySorted not_after acc ->
                StronglySorted not_after
                  (fold_left (fun acc x => insert_sorted by_priority x acc) l acc)).
  { induction l as [|x l IH]; intros acc Hacc; simpl; [assumption|].
    apply IH. now apply insert_sorted_by_priority. }
  apply G. constructor.
Qed.

Section DispatchFacts.
Context {P : Type} {PI : IPlugin P}.
Variable m : @PluginManager P.

Lemma prioritizedHandlers_running hs :
  map snd (prioritizedHandlers m hs)
  = map snd (filter (fun kh => is_running m (fst kh)) hs).
Proof.
  induction hs as [|[k h] hs IH]; simpl; [reflexivity|].
  unfold is_running at 1. simpl. destruct (GetPlugin m k) as [p|]; [|exact IH].
  destruct (state_eqb (GetState p) RUNNING); simpl; now rewrite IH.
Qed.

Lemma prioritizedHandlers_In hs pr h :
  In (pr, h) (prioritizedHandlers m hs) ->
  exists k p, In (k, h) hs /\ GetPlugin m k = Some p /\
              GetState p = RUNNING /\ priority (GetInfo p) = pr.
Proof.
  induction hs as [|[k h0] hs IH]; simpl; [intros []|].
  destruct (GetPlugin m k) as [p|] eqn:Ep.
  - destruct (state_eqb (GetState p) RUNNING) eqn:Es.
    + intros [[= <- <-]|Hin].
      * exists k, p. apply state_eqb_eq in Es. auto.
      * destruct (IH Hin) as (k' & p' & H1 & H2). exists k', p'. auto.
    + intros Hin. destruct (IH Hin) as (k' & p' & H1 & H2). exists k', p'. auto.
  - intros Hin. destruct (IH Hin) as (k' & p' & H1 & H2). exists k', p'. auto.
Qed.
End DispatchFacts.




(** ** Lifecycle *)

Section LifecycleTheorems.
Variable slot : string -> list string -> nat.
Implicit Types (m : @PluginManager ExamplePlugin) (n k : string).

Lemma registered_entry m n p :
  manager_inv m -> GetPlugin m n = Some p ->
  exists lp h, Table.find n (_loadedPlugins m) = Some lp /\
               plugin lp = Some p /\ handle lp = Some h.
Proof.
  intros Hinv. unfold GetPlugin.
  destruct (Table.find n (_loadedPlugins m)) as [lp|] eqn:E; [|discriminate].
  intros Ep. destruct (inv_entries Hinv _ _ (find_Some_In _ _ E)) as [Hh _].
  destruct (handle lp) as [h|] eqn:Eh; [|congruence]. eauto.
Qed.

Lemma unregistered_entry m n :
  manager_inv m -> GetPlugin m n = None ->
  Table.find n (_loadedPlugins m) = None.
Proof.
  intros Hinv. unfold GetPlugin.
  destruct (Table.find n (_loadedPlugins m)) as [lp|] eqn:E; [|reflexivity].
  intros Ep. destruct (inv_entries Hinv _ _ (find_Some_In _ _ E)) as [_ Hp].
  contradiction.
Qed.

Lemma LoadPlugin_example pf path m lib p0 :
  fs_exists pf path = true -> dl_open pf path = Some lib ->
  lib_CreatePlugin lib = Some (Some p0) ->
  name (_info p0) <> "" -> version (_info p0) <> "" ->
  Table.find (name (_info p0)) (_loadedPlugins m) = None ->
  GetPlugin (snd (LoadPlugin slot pf path m)) (name (_info p0))
  = Some (assign_states Load_states p0).
Proof.
  intros Ex Ed Ec Hn Hv Ef. unfold LoadPlugin, LoadPluginLibrary.
  rewrite Ex, Ed. simpl. rewrite Ec. simpl.
  destruct (String.eqb_spec (name (_info p0)) ""); [contradiction|].
  destruct (String.eqb_spec (version (_info p0)) ""); [contradiction|].
  simpl. rewrite Ef. simpl. unfold GetPlugin. simpl.
  now rewrite find_assign_same.
Qed.

Lemma perform_reachable pf path n r m :
  reachable slot m -> reachable slot (perform slot pf path n r m).
Proof.
  intros H. destruct r; simpl.
  - exact (reachable_step (OLoad pf path) H).
  - exact (reachable_step (OInitialize n) H).
  - exact (reachable_step OStartAll H).
  - exact (reachable_step OStopAll H).
  - exact (reachable_step (OUnload n) H).
Qed.

Lemma perform_follows_table pf path lib p0 r m s :
  fs_exists pf path = true -> dl_open pf path = Some lib ->
  lib_CreatePlugin lib = Some (Some p0) ->
  name (_info p0) <> "" -> version (_info p0) <> "" ->
  reachable slot m ->
  spec_request (extension_state m (name (_info p0))) r = Some s ->
  extension_state (perform slot pf path (name (_info p0)) r m)
                  (name (_info p0)) = s.
Proof.
  intros Ex Ed Ec Hn Hv Hr.
  pose proof (reachable_inv Hr) as Hinv.
  pose proof (reachable_lifecycle Hr) as Hlc.
  set (n := name (_info p0)) in *.
  unfold extension_state.
  destruct (GetPlugin m n) as [p|] eqn:Ep.
  - pose proof (lc_states Hlc _ Ep) as Hs. simpl GetState.
    destruct r; simpl perform;
      rewrite ?GetPlugin_InitializePlugin, ?GetPlugin_StartAllPlugins,
        ?GetPlugin_StopAllPlugins, ?GetPlugin_UnloadPlugin by assumption;
      rewrite ?String.eqb_refl, ?Ep; simpl;
      destruct Hs as [E | [E | E]]; rewrite E; intros H; cbv in H;
      try discriminate H; injection H as <-; simpl; auto.
  - destruct r; simpl perform; simpl spec_request; try discriminate.
    + intros [= <-]. pose proof (@unregistered_entry m n Hinv Ep) as Ef.
      unfold n in *.
      now rewrite (LoadPlugin_example pf path m Ex Ed Ec Hn Hv Ef).
    + intros [= <-]. now rewrite GetPlugin_StopAllPlugins, Ep.
Qed.

Lemma replay_follows_table pf path lib p0 :
  fs_exists pf path = true -> dl_open pf path = Some lib ->
  lib_CreatePlugin lib = Some (Some p0) ->
  name (_info p0) <> "" -> version (_info p0) <> "" ->
  forall rs m s,
    reachable slot m ->
    spec_replay (extension_state m (name (_info p0))) rs = Some s ->
    extension_state (replay slot pf path (name (_info p0)) rs m)
                    (name (_info p0)) = s.
Proof.
  intros Ex Ed Ec Hn Hv. induction rs as [|r rs IH]; intros m s Hr; simpl.
  - now intros [= <-].
  - destruct (spec_request (extension_state m (name (_info p0))) r)
      as [s1|] eqn:E; [|discriminate].
    intros Hrs. apply IH.
    + now apply perform_reachable.
    + now rewrite (perform_follows_table pf path r Ex Ed Ec Hn Hv Hr E).
Qed.
End LifecycleTheorems.









(** * Further properties of the code *)

(** ** Further properties of the tables *)

Section TableFacts3.
Variable V : Type.
Implicit Types (m : Table.t V) (k : string) (v : V).

Lemma erase_fresh k m : ~ In k (Table.keys m) -> Table.erase k m = m.
Proof.
  induction m as [|[k' v'] m IH]; simpl; intros H; [reflexivity|].
  destruct (String.eqb_spec k k') as [->|N]; simpl.
  - exfalso. apply H. now left.
  - f_equal. apply IH. intros Hin. apply H. now right.
Qed.

Lemma erase_insert_at k v m i :
  ~ In k (Table.keys m) ->
  Table.erase k (firstn i m ++ (k, v) :: skipn i m) = m.
Proof.
  intros H. unfold Table.erase. rewrite filter_app. simpl.
  rewrite String.eqb_refl. simpl. rewrite <- filter_app, firstn_skipn.
  now apply erase_fresh.
Qed.

Lemma keys_nil m : Table.keys m = [] -> m = [].
Proof. destruct m; [reflexivity | discriminate]. Qed.
End TableFacts3.

Section AssignFacts2.
Variable V : Type.
Variable slot : string -> list string -> nat.

Lemma erase_assign_fresh (k : string) (v : V) (m : Table.t V) :
  Table.find k m = None -> Table.erase k (Table.assign slot k v m) = m.
Proof.
  intros H. unfold Table.assign. rewrite H.
  apply erase_insert_at. now apply find_None_iff.
Qed.
End AssignFacts2.

(** ** The manager between calls *)

Section ManagerFacts3.
Context {P : Type} {PI : IPlugin P}.
Variable slot : string -> list string -> nat.
Implicit Types (m : @PluginManager P).

Lemma LoadPlugin_failure pf path m :
  fst (LoadPlugin slot pf path m) = false ->
  _loadedPlugins (snd (LoadPlugin slot pf path m)) = _loadedPlugins m /\
  _eventHandlers (snd (LoadPlugin slot pf path m)) = _eventHandlers m /\
  _lastError (snd (LoadPlugin slot pf path m)) <> "" /\
  exists added,
    _trace (snd (LoadPlugin slot pf path m)) = _trace m ++ added /\
    failed_load path added.
Proof.
  unfold LoadPlugin, LoadPluginLibrary.
  destruct (fs_exists pf path) eqn:Ex; simpl.
  2:{ intros _. repeat split; try discriminate.
      exists []. split; [now rewrite app_nil_r | constructor]. }
  destruct (dl_open pf path) as [lib|] eqn:Ed; simpl.
  2:{ intros _. repeat split; try discriminate.
      exists []. split; [now rewrite app_nil_r | constructor]. }
  destruct (lib_CreatePlugin lib) as [made|] eqn:Ec; simpl.
  2:{ intros _. repeat split; try discriminate.
      exists [EDlopen path (lib_handle lib); EDlclose (lib_handle lib)].
      split; [now rewrite <- app_assoc | constructor]. }
  destruct made as [p|]; simpl.
  2:{ intros _. repeat split; try discriminate.
      exists [EDlopen path (lib_handle lib); ECreate path;
              EDlclose (lib_handle lib)].
      split; [now rewrite <- !app_assoc | constructor]. }
  destruct (String.eqb_spec (name (GetInfo p)) "") as [En|En]; simpl.
  { intros _. repeat split; try discriminate.
    exists [EDlopen path (lib_handle lib); ECreate path;
            EDlclose (lib_handle lib); EDestroy (GetState p)].
    split; [now rewrite <- !app_assoc | constructor]. }
  destruct (String.eqb_spec (version (GetInfo p)) "") as [Ev|Ev]; simpl.
  { intros _. repeat split; try discriminate.
    exists [EDlopen path (lib_handle lib); ECreate path;
            EDlclose (lib_handle lib); EDestroy (GetState p)].
    split; [now rewrite <- !app_assoc | constructor]. }
  destruct (Table.find (name (GetInfo p)) (_loadedPlugins m)) eqn:Ef; simpl.
  { intros _. repeat split; try discriminate.
    exists [EDlopen path (lib_handle lib); ECreate path;
            EDlclose (lib_handle lib); EDestroy (GetState p)].
    split; [now rewrite <- !app_assoc | constructor]. }
  destruct (Load p) as [loaded p'] eqn:El. destruct loaded; simpl.
  - discriminate.
  - intros _. repeat split; try discriminate.
    exists [EDlopen path (lib_handle lib); ECreate path;
            ECall (name (GetInfo p)) MLoad;
            EDlclose (lib_handle lib); EDestroy (GetState p')].
    split; [now rewrite <- !app_assoc | constructor].
Qed.

Lemma LoadPlugin_success pf path m :
  fst (LoadPlugin slot pf path m) = true ->
  exists lib p p',
    fs_exists pf path = true /\ dl_open pf path = Some lib /\
    lib_CreatePlugin lib = Some (Some p) /\
    name (GetInfo p) <> "" /\ version (GetInfo p) <> "" /\
    Table.find (name (GetInfo p)) (_loadedPlugins m) = None /\
    Load p = (true, p') /\
    snd (LoadPlugin slot pf path m)
    = {| _loadedPlugins :=
           Table.assign slot (name (GetInfo p))
             {| handle := Some (lib_handle lib);
                createFunc := Some (Some p);
                destroyFunc := lib_DestroyPlugin lib;
                plugin := Some p'; filePath := path |}
             (_loadedPlugins m);
         _eventHandlers := _eventHandlers m;
         _lastError := _lastError m;
         _trace := _trace m ++ [EDlopen path (lib_handle lib);
                                ECreate path;
                                ECall (name (GetInfo p)) MLoad] |}.
Proof.
  intros Hok.
  destruct (LoadPlugin_cases slot pf path m)
    as [(Hf & _)|(lib & p & p' & H1 & H2 & H3 & H4 & H5 & H6 & H7 & E)].
  - rewrite Hok in Hf. discriminate.
  - exists lib, p, p'. rewrite E. simpl. repeat split; auto.
Qed.

Lemma GetPlugin_find m n p :
  GetPlugin m n = Some p ->
  exists lp, Table.find n (_loadedPlugins m) = Some lp /\ plugin lp = Some p.
Proof.
  unfold GetPlugin. destruct (Table.find n (_loadedPlugins m)) as [lp|];
    [|discriminate].
  intros H. now exists lp.
Qed.

Lemma names_GetPlugin m n :
  manager_inv m ->
  (In n (GetLoadedPluginNames m) <-> GetPlugin m n <> None).
Proof.
  intros Hinv. split.
  - intros Hin. unfold GetPlugin.
    destruct (Table.find n (_loadedPlugins m)) as [lp|] eqn:E.
    + apply find_Some_In in E. now apply (inv_entries Hinv) in E.
    + apply find_None_iff in E. contradiction.
  - intros H. destruct (GetPlugin m n) as [p|] eqn:E; [|contradiction].
    apply GetPlugin_find in E. destruct E as (lp & E & _).
    eapply find_Some_key; eassumption.
Qed.

(** X1. Between any two administrative calls the queries of the manager
    agree with each other: the list of loaded names has no repetition, a
    name is in it exactly when [GetPlugin] finds an instance, every
    handler binding belongs to a loaded name, and the libraries opened
    so far are those closed again plus one per loaded plugin. *)
Theorem reachable_manager_is_consistent m :
  reachable slot m ->
  NoDup (GetLoadedPluginNames m) /\
  (forall n, In n (GetLoadedPluginNames m) <-> GetPlugin m n <> None) /\
  (forall n h, Table.find n (_eventHandlers m) = Some h ->
               GetPlugin m n <> None) /\
  count is_dlopen (_trace m)
  = count is_dlclose (_trace m) + List.length (GetLoadedPluginNames m).
Proof.
  intros Hr. pose proof (reachable_inv Hr) as Hinv.
  split; [apply (inv_plugin_keys Hinv)|].
  split; [intros n; now apply names_GetPlugin|].
  split.
  - intros n h E. apply names_GetPlugin; [assumption|].
    apply (inv_bound Hinv). eapply find_Some_key; eassumption.
  - unfold GetLoadedPluginNames, Table.keys. rewrite length_map.
    apply (inv_balance Hinv).
Qed.

(** X2. A call of [LoadPlugin] that returns [false], for whatever reason,
    leaves both tables as they were, sets a non-empty error message, and
    has closed the library again if it opened it: the added effects are
    one of five sequences, each with the dlclose of the handle it
    opened. *)
Theorem LoadPlugin_failure_leaves_no_residue pf path m :
  fst (LoadPlugin slot pf path m) = false ->
  _loadedPlugins (snd (LoadPlugin slot pf path m)) = _loadedPlugins m /\
  _eventHandlers (snd (LoadPlugin slot pf path m)) = _eventHandlers m /\
  _lastError (snd (LoadPlugin slot pf path m)) <> "" /\
  exists added,
    _trace (snd (LoadPlugin slot pf path m)) = _trace m ++ added /\
    failed_load path added /\
    opened_handles added = closed_handles added.
Proof.
  intros Hf. destruct (LoadPlugin_failure pf path m Hf)
    as (Ht & Eh & Ee & added & Ea & Hs).
  repeat split; auto. exists added. repeat split; auto.
  destruct Hs; reflexivity.
Qed.

(** X3. A call of [LoadPlugin] that returns [true] registered exactly one
    new name: the descriptor's name was free and is not empty, [GetPlugin]
    of it finds the instance as [Load] left it, every other lookup is as
    before, the loaded names are the old ones and the new one, and the
    handler table and the last error message are untouched (a message of
    an earlier failure stays). *)
Theorem LoadPlugin_success_registers_one pf path m :
  fst (LoadPlugin slot pf path m) = true ->
  exists p p',
    name (GetInfo p) <> "" /\ version (GetInfo p) <> "" /\
    GetPlugin m (name (GetInfo p)) = None /\
    Load p = (true, p') /\
    GetPlugin (snd (LoadPlugin slot pf path m)) (name (GetInfo p)) = Some p' /\
    (forall k, k <> name (GetInfo p) ->
       GetPlugin (snd (LoadPlugin slot pf path m)) k = GetPlugin m k) /\
    Permutation (GetLoadedPluginNames (snd (LoadPlugin slot pf path m)))
                (name (GetInfo p) :: GetLoadedPluginNames m) /\
    _eventHandlers (snd (LoadPlugin slot pf path m)) = _eventHandlers m /\
    _lastError (snd (LoadPlugin slot pf path m)) = _lastError m.
Proof.
  intros Hok. destruct (LoadPlugin_success pf path m Hok)
    as (lib & p & p' & _ & _ & _ & Hn & Hv & Hfree & Hl & ->).
  exists p, p'. simpl. repeat split; auto.
  - unfold GetPlugin. now rewrite Hfree.
  - unfold GetPlugin. simpl. now rewrite find_assign_same.
  - intros k Hk. unfold GetPlugin. simpl.
    now rewrite find_assign_other.
  - unfold GetLoadedPluginNames, Table.keys. simpl.
    change (name (GetInfo p) :: map fst (_loadedPlugins m))
      with (map fst ((name (GetInfo p),
                      {| handle := Some (lib_handle lib);
                         createFunc := Some (Some p);
                         destroyFunc := lib_DestroyPlugin lib;
                         plugin := Some p'; filePath := path |})
                     :: _loadedPlugins m)).
    apply Permutation_map. now apply assign_fresh_perm.
Qed.

End ManagerFacts3.

(** ** Induction over the states the manager can be in *)

Section ReachableInduction.
Context {P : Type} {PI : IPlugin P}.
Variable slot : string -> list string -> nat.
Implicit Types (m : @PluginManager P).

Lemma UnloadPlugin_shape n m :
  manager_inv m ->
  (Table.find n (_loadedPlugins m) = None /\
   UnloadPlugin n m = (false, set_error ("Plugin not found: " ++ n) m))
  \/
  (exists lp p h,
     Table.find n (_loadedPlugins m) = Some lp /\
     plugin lp = Some p /\ handle lp = Some h /\
     UnloadPlugin n m
     = (true,
        {| _loadedPlugins := Table.erase n (_loadedPlugins m);
           _eventHandlers := Table.erase n (_eventHandlers m);
           _lastError := _lastError m;
           _trace := _trace m
                     ++ (if state_eqb (GetState p) RUNNING
                         then [ECall n MStop] else [])
                     ++ [ECall n MUnload; EDlclose h;
                         EDestroy (GetState
                                     (Unload
                                        (if state_eqb (GetState p) RUNNING
                                         then Stop p else p)))] |})).
Proof.
  intros Hinv.
  destruct (Table.find n (_loadedPlugins m)) as [lp|] eqn:E.
  - right. pose proof (find_Some_In _ _ E) as Hin.
    apply (inv_entries Hinv) in Hin. destruct Hin as [Hh Hp].
    destruct (handle lp) as [h|] eqn:Eh; [|contradiction].
    destruct (plugin lp) as [p|] eqn:Ep; [|contradiction].
    exists lp, p, h. repeat split; auto.
    eapply UnloadPlugin_present; eassumption.
  - left. split; [reflexivity|]. now apply UnloadPlugin_absent.
Qed.

Lemma InitializePlugin_shape n m :
  InitializePlugin slot n m = (false, m)
  \/
  (exists lp p,
     Table.find n (_loadedPlugins m) = Some lp /\ plugin lp = Some p /\
     CheckDependencies p = true /\
     InitializePlugin slot n m
     = (fst (Initialize p),
        {| _loadedPlugins :=
             Table.replace n (with_plugin (Some (snd (Initialize p))) lp)
               (_loadedPlugins m);
           _eventHandlers :=
             if fst (Initialize p)
             then match GetEventHandler (snd (Initialize p)) with
                  | Some h => Table.assign slot n h (_eventHandlers m)
                  | None => _eventHandlers m
                  end
             else _eventHandlers m;
           _lastError := _lastError m;
           _trace := _trace m ++ [ECall n MInitialize] |})).
Proof.
  destruct (Table.find n (_loadedPlugins m)) as [lp|] eqn:E.
  2:{ left. apply InitializePlugin_refused. now left. }
  destruct (plugin lp) as [p|] eqn:Ep.
  2:{ left. apply InitializePlugin_refused. right. exists lp.
      split; [assumption|]. now rewrite Ep. }
  destruct (CheckDependencies p) eqn:Ec.
  - right. exists lp, p. repeat split; auto.
    eapply InitializePlugin_present; eassumption.
  - left. apply InitializePlugin_refused. right. exists lp.
    split; [assumption|]. now rewrite Ep.
Qed.

Lemma reachable_empty : reachable slot (@empty_manager P).
Proof. now exists []. Qed.

Lemma reachable_induction (I : @PluginManager P -> Prop) :
  I empty_manager ->
  (forall m pf path, reachable slot m -> I m ->
                     I (snd (LoadPlugin slot pf path m))) ->
  (forall m n, reachable slot m -> I m -> I (snd (UnloadPlugin n m))) ->
  (forall m n, reachable slot m -> I m ->
               I (snd (InitializePlugin slot n m))) ->
  (forall m, reachable slot m -> I m -> I (StartAllPlugins m)) ->
  (forall m, reachable slot m -> I m -> I (StopAllPlugins m)) ->
  forall m, reachable slot m -> I m.
Proof.
  intros H0 HL HU HI HS HT m (ops & ->).
  induction ops as [|op ops IH] using rev_ind; [exact H0|].
  unfold run in *. rewrite fold_left_app. simpl.
  set (m := fold_left (fun acc op0 => step slot op0 acc) ops empty_manager)
    in *.
  assert (Hr : reachable slot m) by now exists ops.
  destruct op; simpl; auto.
  unfold UnloadAllPlugins.
  generalize (GetLoadedPluginNames m) as names.
  generalize dependent m. intros m IH Hr names. revert m IH Hr.
  induction names as [|n names IHn]; intros m IH Hr; simpl; [assumption|].
  apply IHn; [now apply HU|].
  apply (@reachable_step _ _ slot (OUnload n) m Hr).
Qed.
End ReachableInduction.

(** ** Library handles along the trace *)

Lemma opened_handles_app a b :
  opened_handles (a ++ b) = opened_handles a ++ opened_handles b.
Proof. apply flat_map_app. Qed.

Lemma closed_handles_app a b :
  closed_handles (a ++ b) = closed_handles a ++ closed_handles b.
Proof. apply flat_map_app. Qed.

Lemma calls_no_handles es :
  (forall e, In e es -> exists k mth, e = ECall k mth) ->
  opened_handles es = [] /\ closed_handles es = [].
Proof.
  induction es as [|e es IH]; intros H; [now split|].
  destruct (H e (or_introl eq_refl)) as (k & mth & ->).
  destruct IH as [IH1 IH2]; [intros e He; apply H; now right|].
  simpl. now rewrite IH1, IH2.
Qed.

Lemma destroyed_after_close_weaken prev es :
  destroyed_after_close None es = true ->
  destroyed_after_close prev es = true.
Proof. destruct es as [|[] es]; simpl; auto; discriminate. Qed.

Lemma destroyed_after_close_app a b : forall prev,
  destroyed_after_close prev a = true ->
  destroyed_after_close None b = true ->
  destroyed_after_close prev (a ++ b) = true.
Proof.
  induction a as [|e a IH]; intros prev Ha Hb; simpl.
  - now apply destroyed_after_close_weaken.
  - simpl in Ha. destruct e; try (now apply IH).
    destruct prev as [[]|]; try discriminate. now apply IH.
Qed.

Lemma destroyed_after_close_calls es : forall prev,
  (forall e, In e es -> exists k mth, e = ECall k mth) ->
  destroyed_after_close prev es = true.
Proof.
  induction es as [|e es IH]; intros prev H; [reflexivity|].
  destruct (H e (or_introl eq_refl)) as (k & mth & ->). simpl.
  apply IH. intros e He. apply H. now right.
Qed.

Section HandleFacts.
Context {P : Type} {PI : IPlugin P}.
Variable slot : string -> list string -> nat.
Implicit Types (m : @PluginManager P) (t : Table.t (@LoadedPlugin P)).

Lemma find_erase_perm t n lp :
  NoDup (Table.keys t) -> Table.find n t = Some lp ->
  Permutation t ((n, lp) :: Table.erase n t).
Proof.
  induction t as [|[k v] t IH]; simpl; [discriminate|].
  intros Hnd E. inversion_clear Hnd as [|? ? Hk Hnd'].
  destruct (String.eqb_spec n k) as [->|N]; simpl.
  - injection E as ->. now rewrite erase_fresh.
  - apply perm_trans with ((k, v) :: (n, lp) :: Table.erase n t).
    + apply perm_skip. now apply IH.
    + apply perm_swap.
Qed.

Lemma held_handles_replace t n lp lp' :
  Table.find n t = Some lp -> handle lp' = handle lp ->
  held_handles (Table.replace n lp' t) = held_handles t.
Proof.
  induction t as [|[k v] t IH]; simpl; [discriminate|].
  intros E Hh. destruct (String.eqb_spec n k) as [->|N]; simpl.
  - injection E as ->. now rewrite Hh.
  - f_equal. now apply IH.
Qed.

Lemma held_handles_for_each from act mth t :
  held_handles (fst (for_each_in_state from act mth t)) = held_handles t.
Proof.
  rewrite for_each_map. induction t as [|[k v] t IH]; simpl; [reflexivity|].
  now rewrite acted_handle, IH.
Qed.

Lemma for_each_calls from act mth t :
  forall e, In e (snd (for_each_in_state from act mth t)) ->
            exists k mth', e = ECall k mth'.
Proof.
  intros e He. apply for_each_effects in He. destruct He as (k & ->).
  now exists k, mth.
Qed.

Lemma handles_accounted m :
  reachable slot m ->
  Permutation (opened_handles (_trace m))
              (closed_handles (_trace m)
               ++ held_handles (_loadedPlugins m)).
Proof.
  revert m. apply reachable_induction.
  - constructor.
  - intros m pf path Hr IH.
    destruct (fst (LoadPlugin slot pf path m)) eqn:Ef.
    + destruct (LoadPlugin_success slot pf path m Ef)
        as (lib & p & p' & _ & _ & _ & _ & _ & Hfree & _ & ->).
      simpl. rewrite opened_handles_app, closed_handles_app. simpl.
      rewrite !app_nil_r.
      apply perm_trans
        with ((closed_handles (_trace m) ++ held_handles (_loadedPlugins m))
              ++ [lib_handle lib]).
      { now apply Permutation_app_tail. }
      rewrite <- app_assoc. apply Permutation_app_head.
      apply perm_trans
        with (held_handles ((name (GetInfo p),
                             {| handle := Some (lib_handle lib);
                                createFunc := Some (Some p);
                                destroyFunc := lib_DestroyPlugin lib;
                                plugin := Some p'; filePath := path |})
                            :: _loadedPlugins m)).
      { simpl. apply Permutation_sym, Permutation_cons_append. }
      apply Permutation_flat_map, Permutation_sym.
      now apply assign_fresh_perm.
    + destruct (LoadPlugin_failure slot pf path m Ef)
        as (-> & _ & _ & added & -> & Hs).
      rewrite opened_handles_app, closed_handles_app, <- app_assoc.
      assert (E : opened_handles added = closed_handles added)
        by (destruct Hs; reflexivity).
      rewrite E.
      apply perm_trans
        with ((closed_handles (_trace m) ++ held_handles (_loadedPlugins m))
              ++ closed_handles added).
      { now apply Permutation_app_tail. }
      rewrite <- app_assoc. apply Permutation_app_head.
      apply Permutation_app_comm.
  - intros m n Hr IH. pose proof (reachable_inv Hr) as Hinv.
    destruct (UnloadPlugin_shape n Hinv)
      as [(_ & ->)|(lp & p & h & E & Ep & Eh & ->)]; [exact IH|].
    simpl. rewrite !opened_handles_app, !closed_handles_app.
    replace (opened_handles (if state_eqb (GetState p) RUNNING
                             then [ECall n MStop] else []))
      with (@nil nat) by (destruct (state_eqb _ _); reflexivity).
    replace (closed_handles (if state_eqb (GetState p) RUNNING
                             then [ECall n MStop] else []))
      with (@nil nat) by (destruct (state_eqb _ _); reflexivity).
    simpl. rewrite app_nil_r, <- app_assoc. simpl.
    apply (perm_trans IH). apply Permutation_app_head.
    apply perm_trans with (held_handles ((n, lp) :: Table.erase n (_loadedPlugins m))).
    { apply Permutation_flat_map.
      apply find_erase_perm; [apply (inv_plugin_keys Hinv) | assumption]. }
    simpl. rewrite Eh. reflexivity.
  - intros m n Hr IH.
    destruct (InitializePlugin_shape slot n m)
      as [->|(lp & p & E & Ep & _ & ->)]; [exact IH|].
    simpl. rewrite opened_handles_app, closed_handles_app. simpl.
    rewrite !app_nil_r.
    erewrite held_handles_replace; [exact IH | exact E | reflexivity].
  - intros m Hr IH. unfold StartAllPlugins.
    destruct (for_each_in_state INITIALIZED Start MStart (_loadedPlugins m))
      as [t es] eqn:E. simpl.
    destruct (@calls_no_handles es) as [E1 E2].
    { replace es with (snd (for_each_in_state INITIALIZED Start MStart
                              (_loadedPlugins m))) by now rewrite E.
      apply for_each_calls. }
    rewrite opened_handles_app, closed_handles_app, E1, E2, !app_nil_r.
    replace t with (fst (for_each_in_state INITIALIZED Start MStart
                           (_loadedPlugins m))) by now rewrite E.
    now rewrite held_handles_for_each.
  - intros m Hr IH. unfold StopAllPlugins.
    destruct (for_each_in_state RUNNING Stop MStop (_loadedPlugins m))
      as [t es] eqn:E. simpl.
    destruct (@calls_no_handles es) as [E1 E2].
    { replace es with (snd (for_each_in_state RUNNING Stop MStop
                              (_loadedPlugins m))) by now rewrite E.
      apply for_each_calls. }
    rewrite opened_handles_app, closed_handles_app, E1, E2, !app_nil_r.
    replace t with (fst (for_each_in_state RUNNING Stop MStop
                           (_loadedPlugins m))) by now rewrite E.
    now rewrite held_handles_for_each.
Qed.

(** X5. Every library handle is accounted for: in a state the manager
    can be in, the handles that dlopen returned are, as a multiset, the
    handles passed to dlclose together with the handles the loaded
    plugins hold, and each loaded plugin holds one.  So no handle is
    closed twice and none is dropped without a dlclose. *)
Theorem reachable_handles_are_accounted m :
  reachable slot m ->
  Permutation (opened_handles (_trace m))
              (closed_handles (_trace m)
               ++ held_handles (_loadedPlugins m)) /\
  List.length (held_handles (_loadedPlugins m))
  = List.length (GetLoadedPluginNames m).
Proof.
  intros Hr. split; [now apply handles_accounted|].
  pose proof (inv_entries (reachable_inv Hr)) as He.
  unfold GetLoadedPluginNames, Table.keys. rewrite length_map.
  revert He. generalize (_loadedPlugins m) as t.
  induction t as [|[k lp] t IH]; intros He; [reflexivity|].
  simpl. destruct (He k lp (or_introl eq_refl)) as [Hh _].
  destruct (handle lp); [|contradiction].
  simpl. f_equal. apply IH. intros k' lp' Hin. apply (He k' lp'). now right.
Qed.

(** X6. The order of release: in the trace of a state the manager can
    be in, every destruction of a plugin instance comes directly after a
    dlclose.  [UnloadPluginLibrary] closes the library first and resets
    the [unique_ptr] afterwards, on every path that releases an
    instance. *)
Theorem instance_destroyed_after_dlclose m :
  reachable slot m ->
  destroyed_after_close None (_trace m) = true /\
  forall pre s post,
    _trace m = pre ++ EDestroy s :: post ->
    exists pre' h, pre = pre' ++ [EDlclose h].
Proof.
  intros Hr.
  assert (H : destroyed_after_close None (_trace m) = true).
  { revert m Hr. apply reachable_induction.
    - reflexivity.
    - intros m pf path Hr IH.
      destruct (fst (LoadPlugin slot pf path m)) eqn:Ef.
      + destruct (LoadPlugin_success slot pf path m Ef)
          as (lib & p & p' & _ & _ & _ & _ & _ & _ & _ & ->).
        simpl. now apply destroyed_after_close_app.
      + destruct (LoadPlugin_failure slot pf path m Ef)
          as (_ & _ & _ & added & -> & Hs).
        apply destroyed_after_close_app; [assumption|].
        destruct Hs; reflexivity.
    - intros m n Hr IH. pose proof (reachable_inv Hr) as Hinv.
      destruct (UnloadPlugin_shape n Hinv)
        as [(_ & ->)|(lp & p & h & _ & _ & _ & ->)]; [exact IH|].
      simpl. apply destroyed_after_close_app; [assumption|].
      destruct (state_eqb (GetState p) RUNNING); reflexivity.
    - intros m n Hr IH.
      destruct (InitializePlugin_shape slot n m)
        as [->|(lp & p & _ & _ & _ & ->)]; [exact IH|].
      simpl. now apply destroyed_after_close_app.
    - intros m Hr IH. unfold StartAllPlugins.
      destruct (for_each_in_state INITIALIZED Start MStart (_loadedPlugins m))
        as [t es] eqn:E. simpl.
      apply destroyed_after_close_app; [assumption|].
      apply destroyed_after_close_calls.
      replace es with (snd (for_each_in_state INITIALIZED Start MStart
                              (_loadedPlugins m))) by now rewrite E.
      apply for_each_calls.
    - intros m Hr IH. unfold StopAllPlugins.
      destruct (for_each_in_state RUNNING Stop MStop (_loadedPlugins m))
        as [t es] eqn:E. simpl.
      apply destroyed_after_close_app; [assumption|].
      apply destroyed_after_close_calls.
      replace es with (snd (for_each_in_state RUNNING Stop MStop
                              (_loadedPlugins m))) by now rewrite E.
      apply for_each_calls. }
  split; [exact H|].
  intros pre s post E. rewrite E in H. clear E Hr.
  assert (G : forall prev,
             destroyed_after_close prev (pre ++ EDestroy s :: post) = true ->
             (pre = [] /\ exists h, prev = Some (EDlclose h)) \/
             exists pre' h, pre = pre' ++ [EDlclose h]).
  { clear H. induction pre as [|e pre IH]; intros prev H.
    - left. split; [reflexivity|]. simpl in H.
      destruct prev as [[]|]; try discriminate. eauto.
    - right.
      assert (H' : destroyed_after_close (Some e)
                     (pre ++ EDestroy s :: post) = true).
      { simpl in H. destruct e; auto.
        destruct prev as [[]|]; try discriminate; auto. }
      destruct (IH _ H') as [(-> & h & [= ->])|(pre' & h & ->)].
      + now exists [], h.
      + now exists (e :: pre'), h. }
  destruct (G None H) as [(_ & h & Hh)|G']; [discriminate|exact G'].
Qed.
End HandleFacts.

(** ** Unloading everything; initializing one plugin *)

Section ManagerFacts4.
Context {P : Type} {PI : IPlugin P}.
Variable slot : string -> list string -> nat.
Implicit Types (m : @PluginManager P).

Lemma unload_each_releases names : forall m,
  reachable slot m -> NoDup names ->
  incl names (GetLoadedPluginNames m) ->
  let m' := fold_left (fun acc n => snd (UnloadPlugin n acc)) names m in
  _loadedPlugins m'
  = fold_left (fun t n => Table.erase n t) names (_loadedPlugins m) /\
  (exists added, _trace m' = _trace m ++ added /\
                 unloaded_names added = names).
Proof.
  induction names as [|n names IH]; intros m Hr Hnd Hincl; simpl.
  - split; [reflexivity|]. exists []. split; [now rewrite app_nil_r|].
    reflexivity.
  - inversion_clear Hnd as [|? ? Hn Hnd'].
    pose proof (reachable_inv Hr) as Hinv.
    assert (Hr1 : reachable slot (snd (UnloadPlugin n m)))
      by apply (@reachable_step _ _ slot (OUnload n) m Hr).
    assert (Hin : In n (GetLoadedPluginNames m))
      by (apply Hincl; now left).
    destruct (UnloadPlugin_shape n Hinv)
      as [(E & _)|(lp & p & h & E & Ep & Eh & Eu)].
    { apply find_None_iff in E. contradiction. }
    destruct (IH (snd (UnloadPlugin n m)) Hr1 Hnd') as (IH1 & added & IH2 & IH3).
    { intros k Hk. rewrite Eu. unfold GetLoadedPluginNames. simpl.
      apply In_keys_erase. split.
      - apply Hincl. now right.
      - intros ->. contradiction. }
    split.
    + rewrite IH1, Eu. reflexivity.
    + rewrite IH2, Eu. simpl.
      eexists. rewrite <- !app_assoc. split; [reflexivity|].
      unfold unloaded_names in *. rewrite !flat_map_app, IH3.
      destruct (state_eqb (GetState p) RUNNING); reflexivity.
Qed.

Lemma erase_each_empty (V : Type) names : forall t : Table.t V,
  incl (Table.keys t) names ->
  fold_left (fun t' n => Table.erase n t') names t = [].
Proof.
  induction names as [|n names IH]; intros t Hincl; simpl.
  - apply keys_nil. destruct (Table.keys t) as [|k ks]; [reflexivity|].
    destruct (Hincl k (or_introl eq_refl)).
  - apply IH. intros k Hk. apply In_keys_erase in Hk. destruct Hk as [Hk N].
    destruct (Hincl k Hk) as [->|H]; [contradiction | assumption].
Qed.


End ManagerFacts4.

(** ** Starting and stopping plugins with the lifecycle of ExamplePlugin *)

Section RepeatedPass.
Context {P : Type} {PI : IPlugin P}.
Variable from : PluginState.
Variable act : P -> P.
Variable mth : Method.
Hypothesis Hleaves : forall p, state_eqb (GetState (act p)) from = false.

Lemma for_each_again (t : Table.t (@LoadedPlugin P)) :
  for_each_in_state from act mth (fst (for_each_in_state from act mth t))
  = (fst (for_each_in_state from act mth t), []).
Proof.
  induction t as [|[k lp] t IH]; simpl; [reflexivity|].
  destruct (for_each_in_state from act mth t) as [t' es] eqn:E.
  simpl in IH.
  destruct (in_state from lp) as [p|] eqn:Ei; simpl; rewrite IH.
  - unfold in_state. simpl. now rewrite Hleaves.
  - now rewrite Ei.
Qed.
End RepeatedPass.

Lemma manager_eq {P : Type} (a b : @PluginManager P) :
  _loadedPlugins a = _loadedPlugins b ->
  _eventHandlers a = _eventHandlers b ->
  _lastError a = _lastError b ->
  _trace a = _trace b -> a = b.
Proof. destruct a, b; simpl; intros; subst; reflexivity. Qed.

(** X9. Starting and stopping are idempotent for plugins with the
    lifecycle of ExamplePlugin: a second [StartAllPlugins] (or
    [StopAllPlugins]) directly after the first changes nothing and calls
    no plugin.  A stop followed by a start does not resume what was
    running: afterwards exactly the plugins that were Initialized before
    the stop are Running, and a plugin that was Running is Loaded. *)
Theorem StartAllPlugins_StopAllPlugins_repeat
    (m : @PluginManager ExamplePlugin) :
  StartAllPlugins (StartAllPlugins m) = StartAllPlugins m /\
  StopAllPlugins (StopAllPlugins m) = StopAllPlugins m /\
  (forall n, extension_state (StartAllPlugins (StopAllPlugins m)) n = RUNNING
             <-> extension_state m n = INITIALIZED) /\
  (forall n, extension_state m n = RUNNING ->
             extension_state (StartAllPlugins (StopAllPlugins m)) n = LOADED).
Proof.
  split; [|split; [|split]].
  - unfold StartAllPlugins.
    destruct (for_each_in_state INITIALIZED Start MStart (_loadedPlugins m))
      as [t es] eqn:E.
    pose proof (@for_each_again _ _ INITIALIZED Start MStart
                  (fun p => eq_refl) (_loadedPlugins m)) as H.
    rewrite E in H. change (fst (t, es)) with t in H.
    change (_loadedPlugins (emit es (set_plugins t m))) with t.
    rewrite H.
    apply manager_eq; simpl; auto. apply app_nil_r.
  - unfold StopAllPlugins.
    destruct (for_each_in_state RUNNING Stop MStop (_loadedPlugins m))
      as [t es] eqn:E.
    pose proof (@for_each_again _ _ RUNNING Stop MStop
                  (fun p => eq_refl) (_loadedPlugins m)) as H.
    rewrite E in H. change (fst (t, es)) with t in H.
    change (_loadedPlugins (emit es (set_plugins t m))) with t.
    rewrite H.
    apply manager_eq; simpl; auto. apply app_nil_r.
  - intros n. unfold extension_state.
    rewrite GetPlugin_StartAllPlugins, GetPlugin_StopAllPlugins.
    destruct (GetPlugin m n) as [p|]; simpl; [|split; discriminate].
    destruct p as [i d h s]; simpl. destruct s; simpl; split; congruence.
  - intros n. unfold extension_state.
    rewrite GetPlugin_StartAllPlugins, GetPlugin_StopAllPlugins.
    destruct (GetPlugin m n) as [p|]; simpl; [|discriminate].
    destruct p as [i d h s]; simpl. destruct s; simpl; congruence.
Qed.

Section Silence.
Context {P : Type} {PI : IPlugin P}.

Lemma prioritizedHandlers_none (m : @PluginManager P) hs :
  (forall k p, GetPlugin m k = Some p ->
               state_eqb (GetState p) RUNNING = false) ->
  prioritizedHandlers m hs = [].
Proof.
  intros H. induction hs as [|[k h] hs IH]; simpl; [reflexivity|].
  destruct (GetPlugin m k) as [p|] eqn:E; [|assumption].
  now rewrite (H _ _ E).
Qed.
End Silence.

(** X10. Stopping silences the handlers without unbinding them: after
    [StopAllPlugins] on plugins with the lifecycle of ExamplePlugin the
    handler table is unchanged, but [GetEventHandlersByPriority] is empty
    and none of the three notifications enters a handler, whatever sort
    is used (it only has to return a permutation of its input). *)
Theorem StopAllPlugins_silences_handlers
    (std_sort : list (PluginPriority * IEventHandler) ->
                list (PluginPriority * IEventHandler))
    (throws : IEventHandler -> HostEvent -> bool)
    (m : @PluginManager ExamplePlugin) (arg : nat) :
  (forall l, Permutation (std_sort l) l) ->
  _eventHandlers (StopAllPlugins m) = _eventHandlers m /\
  GetEventHandlersByPriority std_sort (StopAllPlugins m) = [] /\
  OnPlayerLogin std_sort throws (StopAllPlugins m) arg = ([], false) /\
  OnPlayerLogout std_sort throws (StopAllPlugins m) arg = ([], false) /\
  OnWorldUpdate std_sort throws (StopAllPlugins m) arg = ([], false).
Proof.
  intros Hperm.
  assert (E : GetEventHandlersByPriority std_sort (StopAllPlugins m) = []).
  { unfold GetEventHandlersByPriority.
    rewrite prioritizedHandlers_none.
    - pose proof (Hperm []) as H. apply Permutation_sym in H.
      apply Permutation_nil in H. now rewrite H.
    - intros k p. rewrite GetPlugin_StopAllPlugins.
      destruct (GetPlugin m k) as [q|]; [|discriminate].
      intros [= <-]. destruct q as [i d h s]. destruct s; reflexivity. }
  split; [apply handlers_StopAllPlugins|].
  split; [exact E|].
  unfold OnPlayerLogin, OnPlayerLogout, OnWorldUpdate. rewrite E.
  repeat split.
Qed.

(** ** Initializing all plugins *)

Section InitializeAll.
Variable slot : string -> list string -> nat.
Implicit Types (m : @PluginManager ExamplePlugin).

Lemma InitializePlugin_registered n m :
  GetPlugin m n <> None ->
  _trace (snd (InitializePlugin slot n m)) = _trace m ++ [ECall n MInitialize] /\
  GetLoadedPluginNames (snd (InitializePlugin slot n m))
  = GetLoadedPluginNames m.
Proof.
  intros H. destruct (GetPlugin m n) as [p|] eqn:E; [|contradiction].
  apply GetPlugin_find in E. destruct E as (lp & E & Ep).
  erewrite InitializePlugin_example; [|eassumption|eassumption].
  simpl. split; [reflexivity|].
  unfold GetLoadedPluginNames. simpl. apply keys_replace.
Qed.

Lemma initialize_each l : forall m,
  (forall n, In n l -> GetPlugin m n <> None) ->
  let m' := fold_left (fun acc n => snd (InitializePlugin slot n acc)) l m in
  _trace m' = _trace m ++ map (fun n => ECall n MInitialize) l /\
  GetLoadedPluginNames m' = GetLoadedPluginNames m /\
  (forall k, In k l ->
     GetPlugin m' k
     = option_map (assign_states Initialize_states) (GetPlugin m k)) /\
  (forall k, ~ In k l -> GetPlugin m' k = GetPlugin m k) /\
  (forall k p h, In k l -> GetPlugin m k = Some p ->
     _eventHandler p = Some h ->
     Table.find k (_eventHandlers m') = Some h) /\
  (forall k, ~ In k l ->
     Table.find k (_eventHandlers m') = Table.find k (_eventHandlers m)).
Proof.
  induction l as [|n r IH]; intros m Hreg; simpl.
  - rewrite app_nil_r. repeat split; auto; intros; contradiction.
  - set (m1 := snd (InitializePlugin slot n m)).
    assert (G1 : forall k, GetPlugin m1 k
                 = if String.eqb k n
                   then option_map (assign_states Initialize_states)
                                   (GetPlugin m n)
                   else GetPlugin m k)
      by (intros k; apply GetPlugin_InitializePlugin).
    destruct (@InitializePlugin_registered n m) as [Et En];
      [apply Hreg; now left|].
    fold m1 in Et, En.
    destruct (IH m1) as (A0 & A1 & A & B & C & D).
    { intros n' Hn'. rewrite G1. destruct (String.eqb n' n).
      - specialize (Hreg n (or_introl eq_refl)).
        destruct (GetPlugin m n); [discriminate | contradiction].
      - apply Hreg. now right. }
    split; [rewrite A0, Et, <- app_assoc; reflexivity|].
    split; [now rewrite A1|].
    split; [|split; [|split]].
    + intros k Hk. destruct (in_dec string_dec k r) as [Hr|Hr].
      * rewrite (A k Hr), G1.
        destruct (String.eqb_spec k n) as [->|N]; [|reflexivity].
        destruct (GetPlugin m n); reflexivity.
      * destruct Hk as [<-|Hk]; [|contradiction].
        rewrite (B n Hr), G1, String.eqb_refl. reflexivity.
    + intros k Hk. rewrite B by (intros H; apply Hk; now right).
      rewrite G1. destruct (String.eqb_spec k n) as [->|N]; [|reflexivity].
      exfalso. apply Hk. now left.
    + intros k p h Hk Ep Eh. destruct (in_dec string_dec k r) as [Hr|Hr].
      * assert (E1 : exists p1, GetPlugin m1 k = Some p1 /\
                                _eventHandler p1 = Some h).
        { rewrite G1. destruct (String.eqb_spec k n) as [->|N].
          - rewrite Ep. simpl. eexists. split; [reflexivity|]. exact Eh.
          - now exists p. }
        destruct E1 as (p1 & E1 & E2). exact (C k p1 h Hr E1 E2).
      * destruct Hk as [<-|Hk]; [|contradiction].
        rewrite (D n Hr). unfold m1. rewrite handlers_InitializePlugin.
        rewrite String.eqb_refl, Ep, Eh. reflexivity.
    + intros k Hk. rewrite D by (intros H; apply Hk; now right).
      unfold m1. rewrite handlers_InitializePlugin.
      destruct (String.eqb_spec k n) as [->|N]; [|reflexivity].
      exfalso. apply Hk. now left.
Qed.

End InitializeAll.

(** ** The lifecycle calls a plugin receives *)

Lemma calls_of_app n a b : calls_of n (a ++ b) = calls_of n a ++ calls_of n b.
Proof. apply flat_map_app. Qed.

Lemma track_all_app ms1 ms2 : forall s,
  track_all s (ms1 ++ ms2)
  = match track_all s ms1 with
    | Some s' => track_all s' ms2
    | None => None
    end.
Proof.
  induction ms1 as [|mth ms1 IH]; intros s; simpl; [reflexivity|].
  destruct (track s mth); [apply IH | reflexivity].
Qed.

Section CallsFacts.
Context {P : Type} {PI : IPlugin P}.

Lemma calls_of_for_each from act mth n (t : Table.t (@LoadedPlugin P)) :
  NoDup (Table.keys t) ->
  calls_of n (snd (for_each_in_state from act mth t))
  = match Table.find n t with
    | Some lp => match in_state from lp with
                 | Some _ => [mth]
                 | None => []
                 end
    | None => []
    end.
Proof.
  induction t as [|[k lp] t IH]; simpl; intros Hnd; [reflexivity|].
  inversion_clear Hnd as [|? ? Hk Hnd'].
  specialize (IH Hnd').
  destruct (for_each_in_state from act mth t) as [t' es] eqn:E.
  simpl in IH.
  destruct (String.eqb_spec n k) as [->|N].
  - apply find_None_iff in Hk. rewrite Hk in IH.
    destruct (in_state from lp); simpl; [|assumption].
    now rewrite String.eqb_refl, IH.
  - destruct (in_state from lp); simpl; [|assumption].
    destruct (String.eqb_spec k n) as [->|_]; [contradiction | assumption].
Qed.
End CallsFacts.

Section Automaton.
Variable slot : string -> list string -> nat.
Implicit Types (m : @PluginManager ExamplePlugin).

Lemma LoadPlugin_failure_calls pf path m n :
  fst (LoadPlugin slot pf path m) = false ->
  _loadedPlugins (snd (LoadPlugin slot pf path m)) = _loadedPlugins m /\
  calls_of n (_trace (snd (LoadPlugin slot pf path m)))
  = calls_of n (_trace m).
Proof.
  unfold LoadPlugin, LoadPluginLibrary.
  destruct (fs_exists pf path); simpl; [|now intros _].
  destruct (dl_open pf path) as [lib|]; simpl; [|now intros _].
  destruct (lib_CreatePlugin lib) as [[p|]|]; simpl;
    try (intros _; split; [reflexivity|];
         rewrite !calls_of_app; simpl; now rewrite !app_nil_r).
  destruct (String.eqb (name (_info p)) ""); simpl;
    try (intros _; split; [reflexivity|];
         rewrite !calls_of_app; simpl; now rewrite !app_nil_r).
  destruct (String.eqb (version (_info p)) ""); simpl;
    try (intros _; split; [reflexivity|];
         rewrite !calls_of_app; simpl; now rewrite !app_nil_r).
  destruct (Table.find (name (_info p)) (_loadedPlugins m)); simpl;
    try (intros _; split; [reflexivity|];
         rewrite !calls_of_app; simpl; now rewrite !app_nil_r).
  discriminate.
Qed.

(** X12. The calls a plugin receives follow its lifecycle.  For plugins
    with the lifecycle of ExamplePlugin, in every state the manager can be
    in and for every name, the [Load], [Initialize], [Start], [Stop] and
    [Unload] calls made so far on plugins of that name, replayed from
    Unloaded, are all permitted by [track] and end in the state the plugin
    is in now.  So the manager calls [Start] only on an Initialized
    plugin, [Stop] only on a Running one, [Unload] never on a Running one,
    and [Load] only when no plugin of that name is loaded. *)
Theorem lifecycle_calls_follow_states m n :
  reachable slot m ->
  track_all UNLOADED (calls_of n (_trace m)) = Some (extension_state m n) /\
  forall pre mth post,
    calls_of n (_trace m) = pre ++ mth :: post ->
    exists s s', track_all UNLOADED pre = Some s /\ track s mth = Some s'.
Proof.
  intros Hr.
  assert (H : track_all UNLOADED (calls_of n (_trace m))
              = Some (extension_state m n)).
  { revert m Hr. apply reachable_induction.
    - reflexivity.
    - intros m pf path Hr IH.
      destruct (fst (LoadPlugin slot pf path m)) eqn:Ef.
      + destruct (LoadPlugin_success slot pf path m Ef)
          as (lib & p & p' & _ & _ & _ & _ & _ & Hfree & Hl & ->).
        simpl in Hl, Hfree. injection Hl as <-.
        simpl. rewrite calls_of_app, track_all_app, IH. simpl.
        unfold extension_state, GetPlugin. simpl.
        destruct (String.eqb_spec (name (_info p)) n) as [<-|N]; simpl.
        * rewrite Hfree, find_assign_same. reflexivity.
        * rewrite find_assign_other by congruence. reflexivity.
      + destruct (LoadPlugin_failure_calls pf path m n Ef) as [Et Ec].
        rewrite Ec, IH. unfold extension_state.
        now rewrite (GetPlugin_plugins _ _ Et).
    - intros m k Hr IH. pose proof (reachable_inv Hr) as Hinv.
      pose proof (reachable_lifecycle Hr) as Hlc.
      destruct (UnloadPlugin_shape k Hinv)
        as [(_ & ->)|(lp & p & h & E & Ep & Eh & ->)]; [exact IH|].
      simpl. rewrite !calls_of_app, track_all_app, IH.
      unfold extension_state, GetPlugin. simpl.
      destruct (String.eqb_spec k n) as [<-|N].
      * rewrite find_erase_same, E, Ep.
        assert (Hs : loaded_state (_state p)).
        { apply (lc_states Hlc k). unfold GetPlugin. now rewrite E, Ep. }
        destruct p as [i d eh s]. simpl in *.
        destruct Hs as [-> | [-> | ->]]; simpl; rewrite ?String.eqb_refl;
          reflexivity.
      * rewrite find_erase_other by congruence.
        replace (calls_of n (if state_eqb (_state p) RUNNING
                             then [ECall k MStop] else []))
          with (@nil Method).
        { simpl. destruct (String.eqb_spec k n); [contradiction|].
          reflexivity. }
        destruct (state_eqb (_state p) RUNNING); simpl; [|reflexivity].
        destruct (String.eqb_spec k n); [contradiction | reflexivity].
    - intros m k Hr IH. pose proof (reachable_lifecycle Hr) as Hlc.
      destruct (InitializePlugin_shape slot k m)
        as [->|(lp & p & E & Ep & _ & ->)]; [exact IH|].
      simpl. rewrite calls_of_app, track_all_app, IH.
      unfold extension_state, GetPlugin. simpl.
      destruct (String.eqb_spec k n) as [<-|N]; simpl.
      * rewrite find_replace_same by congruence. rewrite E, Ep.
        assert (Hs : loaded_state (_state p)).
        { apply (lc_states Hlc k). unfold GetPlugin. now rewrite E, Ep. }
        destruct p as [i d eh s]. simpl in *.
        destruct Hs as [-> | [-> | ->]]; reflexivity.
      * rewrite find_replace_other by congruence. reflexivity.
    - intros m Hr IH. pose proof (reachable_inv Hr) as Hinv.
      unfold extension_state. rewrite GetPlugin_StartAllPlugins.
      unfold StartAllPlugins.
      destruct (for_each_in_state INITIALIZED Start MStart (_loadedPlugins m))
        as [t es] eqn:E. simpl.
      rewrite calls_of_app, track_all_app, IH.
      replace es with (snd (for_each_in_state INITIALIZED Start MStart
                              (_loadedPlugins m))) by now rewrite E.
      rewrite calls_of_for_each by apply (inv_plugin_keys Hinv).
      unfold extension_state, GetPlugin, in_state.
      destruct (Table.find n (_loadedPlugins m)) as [lp|]; [|reflexivity].
      destruct (plugin lp) as [[i d eh s]|]; [|reflexivity].
      simpl. destruct s; reflexivity.
    - intros m Hr IH. pose proof (reachable_inv Hr) as Hinv.
      unfold extension_state. rewrite GetPlugin_StopAllPlugins.
      unfold StopAllPlugins.
      destruct (for_each_in_state RUNNING Stop MStop (_loadedPlugins m))
        as [t es] eqn:E. simpl.
      rewrite calls_of_app, track_all_app, IH.
      replace es with (snd (for_each_in_state RUNNING Stop MStop
                              (_loadedPlugins m))) by now rewrite E.
      rewrite calls_of_for_each by apply (inv_plugin_keys Hinv).
      unfold extension_state, GetPlugin, in_state.
      destruct (Table.find n (_loadedPlugins m)) as [lp|]; [|reflexivity].
      destruct (plugin lp) as [[i d eh s]|]; [|reflexivity].
      simpl. destruct s; reflexivity. }
  split; [exact H|].
  intros pre mth post E. rewrite E, track_all_app in H.
  destruct (track_all UNLOADED pre) as [s|]; [|discriminate].
  simpl in H. destruct (track s mth) as [s'|] eqn:Et; [|discriminate].
  now exists s, s'.
Qed.
End Automaton.

(** ** The load order on an arbitrary dependency graph *)

Section AnyGraph.
Context {P : Type} {PI : IPlugin P}.
Variable m : @PluginManager P.

Lemma resolvable_edge n d : resolvable m n -> edge m n d -> resolvable m d.
Proof.
  intros Hn He y Hy. apply Hn. eapply reaches_step; eassumption.
Qed.

Lemma resolvable_registered n : resolvable m n -> registered m n.
Proof. intros H. apply H. apply reaches_refl. Qed.

Lemma ResolveDependencies_resolvable fuel : forall n lo r,
  resolvable m n ->
  ResolveDependencies fuel m n lo = Some r -> fst r = true.
Proof.
  induction fuel as [|fuel IH]; intros n lo r Hr; simpl; [discriminate|].
  destruct (GetPlugin m n) as [p|] eqn:Ep;
    [|now elim (resolvable_registered Hr)].
  destruct (resolve_each (ResolveDependencies fuel m) (GetDependencies p) lo)
    as [[b lo1]|] eqn:E; [|discriminate].
  assert (Hb : b = true).
  { change b with (fst (b, lo1)).
    apply (@resolve_each_true (ResolveDependencies fuel m) (GetDependencies p))
      with (lo := lo); [|exact E].
    intros d lo0 r0 Hd. apply IH. apply (resolvable_edge Hr).
    exists p. auto. }
  subst b. now intros [= <-].
Qed.

Lemma deps_in_front_registered lo :
  deps_in_front m lo -> forall n, In n lo -> registered m n.
Proof.
  intros H n Hn. apply in_split in Hn. destruct Hn as (l1 & l2 & ->).
  now destruct (H l1 n l2 eq_refl).
Qed.

Lemma deps_in_front_resolvable lo :
  deps_in_front m lo -> forall n, In n lo -> resolvable m n.
Proof.
  intros H n Hn y Hy. apply (deps_in_front_registered H).
  eapply deps_in_front_closed; eassumption.
Qed.

Lemma deps_in_front_before lo :
  deps_in_front m lo ->
  forall n d, In n lo -> edge m n d -> appears_before d n lo.
Proof.
  intros H n d Hn He. apply in_split in Hn. destruct Hn as (l1 & l2 & ->).
  destruct (H l1 n l2 eq_refl) as [_ Hd].
  destruct (in_split _ _ (Hd d He)) as (l3 & l4 & ->).
  exists l3, l4, l2. now rewrite <- app_assoc.
Qed.

(** A dependency that was just appended cannot have its dependent in
    front of it. *)
Lemma dependent_not_in_front n d l :
  edge m n d -> deps_in_front m (l ++ [d]) -> NoDup (l ++ [d]) ->
  ~ In n (l ++ [d]).
Proof.
  intros He Hk Hnd Hn.
  assert (Hd : ~ In d l).
  { apply NoDup_remove_2 with (l' := []) in Hnd.
    now rewrite app_nil_r in Hnd. }
  apply in_split in Hn. destruct Hn as (l1 & l2 & E).
  destruct (Hk l1 n l2 E) as [_ Hfront].
  specialize (Hfront d He).
  symmetry in E. destruct (snoc_split _ _ _ _ _ E) as [(_ & -> & _)|(l2' & _ & ->)].
  - contradiction.
  - apply Hd. apply in_or_app. now left.
Qed.

Lemma resolve_each_NoDup rec n deps :
  (forall d lo r, rec d lo = Some r ->
     returns_well m d lo r /\
     (~ In d lo -> deps_in_front m lo -> NoDup lo -> NoDup (snd r)) /\
     (fst r = true -> exists l, snd r = l ++ [d])) ->
  (forall d, In d deps -> edge m n d) ->
  forall lo r,
    resolve_each rec deps lo = Some r ->
    ~ In n lo -> deps_in_front m lo -> NoDup lo ->
    NoDup (snd r) /\ (fst r = true -> ~ In n (snd r)).
Proof.
  intros Hrec. induction deps as [|d deps IH]; intros Hedge lo r; simpl.
  - intros [= <-]. auto.
  - assert (Hedge' : forall d0, In d0 deps -> edge m n d0)
      by (intros; apply Hedge; now right).
    destruct (found d lo) eqn:Ef; [now apply IH|].
    apply found_false in Ef.
    destruct (rec d lo) as [[[|] lo1]|] eqn:E1; [| |discriminate].
    + destruct (Hrec _ _ _ E1) as ((_ & Hk & _) & Hnd & Hend).
      simpl in *. destruct (Hend eq_refl) as (l & ->).
      intros E Hn Hlo Hd. apply (IH Hedge' _ _ E); auto.
      apply dependent_not_in_front; auto.
    + intros [= <-] Hn Hlo Hd.
      destruct (Hrec _ _ _ E1) as (_ & Hnd & _). simpl in *.
      split; [auto | discriminate].
Qed.

Lemma ResolveDependencies_NoDup fuel : forall n lo r,
  ResolveDependencies fuel m n lo = Some r ->
  returns_well m n lo r /\
  (~ In n lo -> deps_in_front m lo -> NoDup lo -> NoDup (snd r)) /\
  (fst r = true -> exists l, snd r = l ++ [n]).
Proof.
  induction fuel as [|fuel IH]; intros n lo r E; [discriminate|].
  split; [eapply ResolveDependencies_returns; eassumption|].
  simpl in E. destruct (GetPlugin m n) as [p|] eqn:Ep.
  - destruct (resolve_each (ResolveDependencies fuel m) (GetDependencies p) lo)
      as [[[|] lo1]|] eqn:E1; [| |discriminate]; injection E as <-; simpl.
    + split; [|intros _; now exists lo1].
      intros Hn Hlo Hd.
      destruct (@resolve_each_NoDup (ResolveDependencies fuel m) n
                  (GetDependencies p) IH) with (lo := lo) (r := (true, lo1))
        as (Hnd & Hnot); auto.
      { intros d Hd'. exists p. auto. }
      simpl in *. apply NoDup_app; [assumption | repeat constructor; intros [] |].
      intros x Hx [<-|[]]. now apply Hnot.
    + split; [|discriminate].
      intros Hn Hlo Hd.
      destruct (@resolve_each_NoDup (ResolveDependencies fuel m) n
                  (GetDependencies p) IH) with (lo := lo) (r := (false, lo1))
        as (Hnd & _); auto.
      intros d Hd'. exists p. auto.
  - injection E as <-. simpl. split; [auto | discriminate].
Qed.

Lemma load_order_loop_exact fuel names : forall lo order,
  load_order_loop fuel m names lo = Some order ->
  deps_in_front m lo -> NoDup lo ->
  NoDup order /\ deps_in_front m order /\
  (forall x, In x lo -> In x order) /\
  (forall n, In n names -> resolvable m n -> In n order).
Proof.
  induction names as [|n names IH]; intros lo order; simpl.
  - intros [= <-] Hlo Hnd.
    split; [assumption|]. split; [assumption|]. split; [auto|].
    intros n [].
  - destruct (found n lo) eqn:Ef.
    + intros E Hlo Hnd. destruct (IH _ _ E Hlo Hnd) as (H1 & H2 & H3 & H4).
      apply found_In in Ef.
      split; [assumption|]. split; [assumption|]. split; [assumption|].
      intros n' [<-|Hn'] Hr; auto.
    + apply found_false in Ef.
      destruct (ResolveDependencies fuel m n lo) as [[b lo1]|] eqn:E1;
        [|discriminate].
      intros E Hlo Hnd.
      destruct (ResolveDependencies_NoDup _ _ _ E1)
        as (((new & En) & Hk1 & Hin1) & Hnd1 & _).
      simpl in *. subst lo1.
      destruct (IH _ _ E (Hk1 Hlo) (Hnd1 Ef Hlo Hnd)) as (H1 & H2 & H3 & H4).
      split; [assumption|]. split; [assumption|]. split.
      * intros x Hx. apply H3. apply in_or_app. now left.
      * intros n' [<-|Hn'] Hr; [|auto].
        apply H3, Hin1.
        change b with (fst (b, lo ++ new)).
        eapply ResolveDependencies_resolvable; eassumption.
Qed.

(** X13. What a returned load order contains, on any dependency graph
    (cycles and missing dependencies included): whenever
    [GetPluginLoadOrder] returns, the order has no repetition, every
    plugin in it comes after all of its declared dependencies, and its
    members are exactly the plugins whose dependencies are all registered,
    directly and transitively.  A plugin with a missing dependency
    anywhere below it is left out, and so is everything that depends on
    it. *)
Theorem GetPluginLoadOrder_returns_resolvable fuel order :
  GetPluginLoadOrder fuel m = Some order ->
  NoDup order /\
  (forall n d, In n order -> edge m n d -> appears_before d n order) /\
  (forall n, In n order <-> resolvable m n).
Proof.
  intros E. unfold GetPluginLoadOrder in E.
  destruct (load_order_loop_exact _ _ E (@deps_in_front_nil _ _ m)
              (NoDup_nil _)) as (H1 & H2 & _ & H4).
  split; [exact H1|].
  split; [now apply deps_in_front_before|].
  intros n. split.
  - now apply deps_in_front_resolvable.
  - intros Hr. apply H4; [|exact Hr].
    apply registered_key. now apply resolvable_registered.
Qed.

(** X14. Any cycle through a plugin whose dependencies are all
    registered makes the load order, and with it [InitializeAllPlugins],
    never return: whatever the fuel, the recursion of
    [ResolveDependencies] does not end.  A plugin that names itself as a
    dependency is the shortest such cycle. *)
Theorem GetPluginLoadOrder_cycle_never_returns
    (slot : string -> list string -> nat) a b :
  edge m a b -> reaches m b a -> resolvable m a ->
  forall fuel,
    GetPluginLoadOrder fuel m = None /\
    InitializeAllPlugins slot fuel m = None.
Proof.
  intros Hab Hba Hr fuel.
  assert (E : GetPluginLoadOrder fuel m = None).
  { destruct (GetPluginLoadOrder fuel m) as [order|] eqn:E; [|reflexivity].
    exfalso. unfold GetPluginLoadOrder in E.
    destruct (load_order_loop_exact _ _ E (@deps_in_front_nil _ _ m)
                (NoDup_nil _)) as (_ & H2 & _ & H4).
    apply (@deps_in_front_no_cycle _ _ m a b Hab Hba order H2).
    apply H4; [|exact Hr].
    apply registered_key. now apply resolvable_registered. }
  split; [exact E|].
  unfold InitializeAllPlugins. now rewrite E.
Qed.
End AnyGraph.

(** ** Scanning the plugin directory *)

Lemma opened_paths_app a b :
  opened_paths (a ++ b) = opened_paths a ++ opened_paths b.
Proof. apply flat_map_app. Qed.

Section ScanFacts.
Context {P : Type} {PI : IPlugin P}.
Variable slot : string -> list string -> nat.
Implicit Types (m : @PluginManager P).

(** What one call of [LoadPlugin] keeps, whether it succeeds or not. *)
Lemma LoadPlugin_keeps pf path m :
  (forall n p, GetPlugin m n = Some p ->
               GetPlugin (snd (LoadPlugin slot pf path m)) n = Some p) /\
  (forall n, In n (GetLoadedPluginNames m) ->
             In n (GetLoadedPluginNames (snd (LoadPlugin slot pf path m)))) /\
  _eventHandlers (snd (LoadPlugin slot pf path m)) = _eventHandlers m /\
  exists added,
    _trace (snd (LoadPlugin slot pf path m)) = _trace m ++ added /\
    incl (opened_paths added) [path].
Proof.
  destruct (fst (LoadPlugin slot pf path m)) eqn:Ef.
  - destruct (LoadPlugin_success slot pf path m Ef)
      as (lib & p & p' & _ & _ & _ & _ & _ & Hfree & _ & ->).
    simpl. split; [|split; [|split]].
    + intros n q E. unfold GetPlugin in *. simpl.
      rewrite find_assign_other; [assumption|].
      intros ->. now rewrite Hfree in E.
    + intros n Hn. unfold GetLoadedPluginNames. simpl.
      apply In_keys_assign. now right.
    + reflexivity.
    + eexists. split; [reflexivity|]. simpl. apply incl_refl.
  - destruct (LoadPlugin_failure slot pf path m Ef)
      as (Et & Eh & _ & added & Ea & Hs).
    split; [|split; [|split]].
    + intros n q. now rewrite (GetPlugin_plugins _ _ Et).
    + unfold GetLoadedPluginNames. now rewrite Et.
    + exact Eh.
    + exists added. split; [exact Ea|].
      destruct Hs; simpl; auto using incl_nil_l, incl_refl.
Qed.

(** A library that exports a valid plugin whose [Load] succeeds leaves
    the plugin's name loaded, whatever the manager held before. *)
Lemma LoadPlugin_loadable pf path m lib p p' :
  fs_exists pf path = true -> dl_open pf path = Some lib ->
  lib_CreatePlugin lib = Some (Some p) ->
  name (GetInfo p) <> "" -> version (GetInfo p) <> "" ->
  Load p = (true, p') ->
  In (name (GetInfo p))
     (GetLoadedPluginNames (snd (LoadPlugin slot pf path m))).
Proof.
  intros Ex Ed Ec Hn Hv El. unfold LoadPlugin, LoadPluginLibrary.
  rewrite Ex, Ed. simpl. rewrite Ec. simpl.
  destruct (String.eqb_spec (name (GetInfo p)) "") as [|_]; [contradiction|].
  destruct (String.eqb_spec (version (GetInfo p)) "") as [|_]; [contradiction|].
  simpl.
  destruct (Table.find (name (GetInfo p)) (_loadedPlugins m)) eqn:Ef; simpl.
  - unfold GetLoadedPluginNames. simpl. eapply find_Some_key; eassumption.
  - rewrite El. simpl. unfold GetLoadedPluginNames. simpl.
    apply In_keys_assign. now left.
Qed.

Lemma scan_entries_keeps pf allowed entries : forall m,
  (forall e, In e entries -> is_plugin_file e = true ->
             In (entry_path e) allowed) ->
  (reachable slot m -> reachable slot (scan_entries slot pf entries m)) /\
  (forall n p, GetPlugin m n = Some p ->
               GetPlugin (scan_entries slot pf entries m) n = Some p) /\
  (forall n, In n (GetLoadedPluginNames m) ->
             In n (GetLoadedPluginNames (scan_entries slot pf entries m))) /\
  _eventHandlers (scan_entries slot pf entries m) = _eventHandlers m /\
  exists added,
    _trace (scan_entries slot pf entries m) = _trace m ++ added /\
    incl (opened_paths added) allowed.
Proof.
  induction entries as [|e entries IH]; intros m Hall; simpl.
  - repeat split; auto. exists []. split; [now rewrite app_nil_r|].
    apply incl_nil_l.
  - assert (Hall' : forall e0, In e0 entries -> is_plugin_file e0 = true ->
                               In (entry_path e0) allowed)
      by (intros; apply Hall; [now right | assumption]).
    specialize (Hall e (or_introl eq_refl)). unfold is_plugin_file in Hall.
    destruct (entry_is_regular_file e); [|now apply IH].
    destruct (String.eqb (entry_extension e) ".so"); [|now apply IH].
    simpl in Hall. specialize (Hall eq_refl).
    destruct (IH (snd (LoadPlugin slot pf (entry_path e) m)) Hall')
      as (I1 & I2 & I3 & I4 & added2 & I5 & I6).
    destruct (LoadPlugin_keeps pf (entry_path e) m)
      as (K2 & K3 & K4 & added1 & K5 & K6).
    split; [|split; [|split; [|split]]].
    + intros Hr. apply I1.
      apply (@reachable_step _ _ slot (OLoad pf (entry_path e)) m Hr).
    + auto.
    + auto.
    + now rewrite I4.
    + exists (added1 ++ added2). split.
      * now rewrite I5, K5, app_assoc.
      * rewrite opened_paths_app. apply incl_app; [|assumption].
        intros x Hx. apply K6 in Hx. destruct Hx as [<-|[]]. assumption.
Qed.

(** X15. [LoadAllPlugins] only adds.  It records the directory; when
    the directory does not exist the manager is unchanged; otherwise the
    result is again a state the manager can be in, every plugin that was
    loaded before is still loaded with the same instance, the handler
    table is untouched, and the only files passed to dlopen are regular
    files of the directory whose extension is [.so]. *)
Theorem LoadAllPlugins_only_adds pf entries dir m :
  fst (LoadAllPlugins slot pf entries dir m) = dir /\
  (fs_exists pf dir = false ->
   snd (LoadAllPlugins slot pf entries dir m) = m) /\
  (reachable slot m ->
   reachable slot (snd (LoadAllPlugins slot pf entries dir m))) /\
  (forall n p, GetPlugin m n = Some p ->
     GetPlugin (snd (LoadAllPlugins slot pf entries dir m)) n = Some p) /\
  _eventHandlers (snd (LoadAllPlugins slot pf entries dir m))
  = _eventHandlers m /\
  exists added,
    _trace (snd (LoadAllPlugins slot pf entries dir m)) = _trace m ++ added /\
    incl (opened_paths added)
         (map entry_path (filter is_plugin_file entries)).
Proof.
  unfold LoadAllPlugins. destruct (fs_exists pf dir); simpl.
  - destruct (@scan_entries_keeps pf
                (map entry_path (filter is_plugin_file entries)) entries m)
      as (I1 & I2 & _ & I4 & I5).
    { intros e He Hp. apply in_map. apply filter_In. now split. }
    repeat split; auto. discriminate.
  - repeat split; auto. exists []. split; [now rewrite app_nil_r|].
    apply incl_nil_l.
Qed.

End ScanFacts.

(** ** ExamplePlugin: session counters and the periodic update *)

Lemma wrap32_small z : (0 <= z < 2 ^ 32)%Z -> wrap32 z = z.
Proof. intros H. unfold wrap32. now apply Z.mod_small. Qed.

Lemma wrap32_range z : (0 <= wrap32 z < 2 ^ 32)%Z.
Proof. unfold wrap32. apply Z.mod_pos_bound. reflexivity. Qed.

Lemma wrap32_add_l a b : wrap32 (wrap32 a + b) = wrap32 (a + b).
Proof. unfold wrap32. apply Zplus_mod_idemp_l. Qed.

Lemma wrap32_sub a b : wrap32 (wrap32 a - wrap32 b) = wrap32 (a - b).
Proof.
  unfold wrap32. now rewrite Zminus_mod_idemp_l, Zminus_mod_idemp_r.
Qed.

Lemma session_call_config c acc :
  _welcomeMessageEnabled (fst (session_call c acc))
  = _welcomeMessageEnabled (fst acc) /\
  _welcomeMessage (fst (session_call c acc)) = _welcomeMessage (fst acc) /\
  _updateInterval (fst (session_call c acc)) = _updateInterval (fst acc) /\
  _lastUpdateTime (fst (session_call c acc)) = _lastUpdateTime (fst acc).
Proof.
  destruct acc as [s sent]. destruct c as [[pl|]|[pl|]]; simpl; auto.
  - destruct (_welcomeMessageEnabled s); simpl; auto.
  - destruct (0 <? _currentOnlinePlayers s)%Z; simpl; auto.
Qed.

Lemma session_calls_from cs : forall s sent b,
  _currentOnlinePlayers s = Z.of_nat b ->
  (Z.of_nat b + Z.of_nat (List.length (login_players cs)) < 2 ^ 32)%Z ->
  (0 <= _totalLogins s < 2 ^ 32)%Z ->
  let r := fold_left (fun acc c => session_call c acc) cs (s, sent) in
  _currentOnlinePlayers (fst r) = Z.of_nat (open_sessions b cs) /\
  _totalLogins (fst r)
  = wrap32 (_totalLogins s + Z.of_nat (List.length (login_players cs))) /\
  snd r
  = sent ++ (if _welcomeMessageEnabled s
                && negb (String.eqb (_welcomeMessage s) "")
             then map (fun pl => (pl, _welcomeMessage s)) (login_players cs)
             else []).
Proof.
  induction cs as [|c cs IH]; intros s sent b Hb Hlt Ht.
  - simpl. rewrite Z.add_0_r, wrap32_small by assumption.
    split; [assumption|]. split; [reflexivity|].
    destruct (_welcomeMessageEnabled s && _); now rewrite app_nil_r.
  - cbn [fold_left].
    destruct (session_call_config c (s, sent)) as (C1 & C2 & _).
    cbn [fst] in C1, C2.
    destruct c as [[pl|]|[pl|]].
    + (* a login *)
      change (login_players (SLogin (Some pl) :: cs))
        with (pl :: login_players cs) in Hlt |- *.
      cbn [List.length] in Hlt |- *.
      rewrite Nat2Z.inj_succ in Hlt.
      unfold open_sessions. cbn [fold_left].
      fold (open_sessions (S b) cs).
      set (s1 := TrackPlayerLogin (Some pl) s) in *.
      assert (E1 : session_call (SLogin (Some pl)) (s, sent)
                   = (s1, sent ++ (if _welcomeMessageEnabled s
                                   then SendWelcomeMessage (Some pl) s1
                                   else []))).
      { unfold session_call, ExampleEventHandler_OnPlayerLogin. cbn [fst snd].
        fold s1. replace (_welcomeMessageEnabled s1)
          with (_welcomeMessageEnabled s) by reflexivity.
        now destruct (_welcomeMessageEnabled s). }
      rewrite E1 in C1, C2 |- *. cbn [fst] in C1, C2.
      destruct (IH s1 (sent ++ (if _welcomeMessageEnabled s
                                then SendWelcomeMessage (Some pl) s1
                                else [])) (S b)) as (I1 & I2 & I3).
      { unfold s1. cbn [TrackPlayerLogin _currentOnlinePlayers].
        rewrite Hb, wrap32_small; lia32. }
      { lia32. }
      { unfold s1. simpl. apply wrap32_range. }
      split; [exact I1|]. split.
      * rewrite I2. unfold s1. simpl. rewrite wrap32_add_l. f_equal. lia.
      * rewrite I3, C1, C2, <- app_assoc. f_equal.
        unfold SendWelcomeMessage. rewrite C2.
        destruct (_welcomeMessageEnabled s); simpl; [|reflexivity].
        destruct (String.eqb (_welcomeMessage s) ""); reflexivity.
    + (* a login call with a null player *)
      change (login_players (SLogin None :: cs))
        with (login_players cs) in Hlt |- *.
      change (session_call (SLogin None) (s, sent))
        with (s, sent ++ []).
      rewrite app_nil_r. now apply IH.
    + (* a logout *)
      change (login_players (SLogout (Some pl) :: cs))
        with (login_players cs) in Hlt |- *.
      unfold open_sessions. cbn [fold_left].
      fold (open_sessions (Nat.pred b) cs).
      set (s1 := TrackPlayerLogout (Some pl) s) in *.
      change (session_call (SLogout (Some pl)) (s, sent)) with (s1, sent)
        in C1, C2 |- *.
      cbn [fst] in C1, C2.
      destruct (IH s1 sent (Nat.pred b)) as (I1 & I2 & I3).
      { unfold s1, TrackPlayerLogout. rewrite Hb.
        destruct b as [|b']; [simpl; exact Hb|].
        replace (0 <? Z.of_nat (S b'))%Z with true
          by (symmetry; apply Z.ltb_lt; lia).
        cbn [_currentOnlinePlayers]. rewrite wrap32_small; lia32. }
      { lia32. }
      { unfold s1, TrackPlayerLogout.
        destruct (0 <? _currentOnlinePlayers s)%Z; assumption. }
      split; [exact I1|]. split.
      * rewrite I2. f_equal. unfold s1, TrackPlayerLogout.
        destruct (0 <? _currentOnlinePlayers s)%Z; reflexivity.
      * now rewrite I3, C1, C2.
    + (* a logout call with a null player *)
      change (login_players (SLogout None :: cs))
        with (login_players cs) in Hlt |- *.
      change (session_call (SLogout None) (s, sent)) with (s, sent).
      now apply IH.
Qed.

(** X17. The session counters of ExamplePlugin.  Starting with no
    player online, after any sequence of login and logout calls that
    contains fewer than 2^32 logins, [_currentOnlinePlayers] is the number
    of open sessions counted in natural numbers, where a logout without
    open session is ignored: the unsigned counter never wraps below zero.
    [_totalLogins] has grown by the number of logins (modulo 2^32), calls
    with a null player change nothing, and a welcome message went to each
    player who logged in, in order, exactly when the message is enabled
    and not empty. *)
Theorem ExamplePlugin_counts_sessions cs s :
  _currentOnlinePlayers s = 0%Z ->
  (0 <= _totalLogins s < 2 ^ 32)%Z ->
  (Z.of_nat (List.length (login_players cs)) < 2 ^ 32)%Z ->
  _currentOnlinePlayers (fst (session_calls cs s))
  = Z.of_nat (open_sessions 0 cs) /\
  _totalLogins (fst (session_calls cs s))
  = wrap32 (_totalLogins s + Z.of_nat (List.length (login_players cs))) /\
  snd (session_calls cs s)
  = (if _welcomeMessageEnabled s && negb (String.eqb (_welcomeMessage s) "")
     then map (fun pl => (pl, _welcomeMessage s)) (login_players cs)
     else []).
Proof.
  intros H0 Ht Hn. unfold session_calls.
  destruct (@session_calls_from cs s [] 0%nat H0) as (I1 & I2 & I3); auto.
Qed.

Lemma world_updates_from g ts : forall prev L s,
  (0 <= _updateInterval s)%Z -> (0 <= g < 2 ^ 32)%Z ->
  (_updateInterval s + g <= 2 ^ 32)%Z ->
  _lastUpdateTime s = wrap32 L ->
  (L <= prev)%Z -> (prev - L < _updateInterval s \/ prev = L)%Z ->
  paced g prev ts ->
  _lastUpdateTime (world_updates prev ts s)
  = wrap32 (ideal_updates (_updateInterval s) L ts) /\
  _totalLogins (world_updates prev ts s) = _totalLogins s /\
  _currentOnlinePlayers (world_updates prev ts s) = _currentOnlinePlayers s.
Proof.
  induction ts as [|t ts IH]; intros prev L s Hi Hg Hig Hl HL Hp Hpaced.
  - simpl. auto.
  - destruct Hpaced as [Ht Hrest].
    cbn [world_updates]. unfold ideal_updates. cbn [fold_left].
    fold (ideal_updates (_updateInterval s) (ideal_update (_updateInterval s) L t) ts).
    unfold ExampleEventHandler_OnWorldUpdate, UpdateStatistics, ideal_update.
    rewrite Hl, wrap32_sub, wrap32_small by lia32.
    destruct (_updateInterval s <=? t - L)%Z eqn:E.
    + match goal with
      | |- context [world_updates t ts ?s1] =>
          destruct (IH t t s1) as (I1 & I2 & I3); simpl; auto; try lia32
      end.
    + apply Z.leb_gt in E. apply (IH t L s); auto; lia32.
Qed.

(** X18. The periodic update of ExamplePlugin on the wrapping 32-bit
    millisecond clock.  If the handler is called in order of time, never
    more than [g] milliseconds after the previous call, and the update
    interval plus [g] stays within 2^32, then the plugin, which only sees
    the clock modulo 2^32, updates at exactly the calls at which a plugin
    with an unbounded clock would: the stored time of the last update is
    the true one modulo 2^32.  The session counters are not touched. *)
Theorem UpdateStatistics_on_wrapping_clock g t0 ts s :
  (0 <= _updateInterval s)%Z -> (0 <= g < 2 ^ 32)%Z ->
  (_updateInterval s + g <= 2 ^ 32)%Z ->
  _lastUpdateTime s = wrap32 t0 ->
  paced g t0 ts ->
  _lastUpdateTime (world_updates t0 ts s)
  = wrap32 (ideal_updates (_updateInterval s) t0 ts) /\
  _totalLogins (world_updates t0 ts s) = _totalLogins s /\
  _currentOnlinePlayers (world_updates t0 ts s) = _currentOnlinePlayers s.
Proof.
  intros Hi Hg Hig Hl Hp.
  apply (@world_updates_from g ts t0 t0 s); auto; lia32.
Qed.

(** ** PluginConfig: typed values *)

Lemma any_cast_same T (v : config_value T) : any_cast T (mkAny T v) = Some v.
Proof. destruct T; reflexivity. Qed.

Lemma any_cast_other T T' (v : config_value T) :
  T <> T' -> any_cast T' (mkAny T v) = None.
Proof. destruct T, T'; intros H; try reflexivity; now elim H. Qed.

Section ConfigFacts.
Variable NormalizeKey : string -> string.
Variable slot : string -> list string -> nat.

(** X19. Reading back a configuration value.  After
    [SetValue<T>(key, v)], [GetValue<T>] under any key with the same
    normalized form returns [v], whatever was stored before;
    [GetValue] at another type returns the caller's default value
    (the stored value is not converted); a key with another normalized
    form reads as before; and the number of keys grows by one exactly
    when the normalized key was new. *)
Theorem PluginConfig_SetValue_GetValue
    (T : ConfigType) (key : string) (v : config_value T) (c : PluginConfig) :
  (forall key' d, NormalizeKey key' = NormalizeKey key ->
     GetValue NormalizeKey T key' d (SetValue NormalizeKey slot T key v c) = v) /\
  (forall T' key' (d : config_value T'),
     NormalizeKey key' = NormalizeKey key -> T <> T' ->
     GetValue NormalizeKey T' key' d (SetValue NormalizeKey slot T key v c) = d) /\
  (forall T' key' (d : config_value T'),
     NormalizeKey key' <> NormalizeKey key ->
     GetValue NormalizeKey T' key' d (SetValue NormalizeKey slot T key v c)
     = GetValue NormalizeKey T' key' d c) /\
  GetKeyCount (SetValue NormalizeKey slot T key v c)
  = match Table.find (NormalizeKey key) (_values c) with
    | Some _ => GetKeyCount c
    | None => S (GetKeyCount c)
    end.
Proof.
  split; [|split; [|split]].
  - intros key' d E. unfold GetValue, SetValue. simpl.
    now rewrite E, find_assign_same, any_cast_same.
  - intros T' key' d E N. unfold GetValue, SetValue. simpl.
    now rewrite E, find_assign_same, any_cast_other.
  - intros T' key' d N. unfold GetValue, SetValue. simpl.
    now rewrite find_assign_other.
  - unfold GetKeyCount, SetValue. simpl.
    destruct (Table.find (NormalizeKey key) (_values c)) eqn:E.
    + unfold Table.assign. rewrite E. apply length_replace.
    + now apply length_assign_fresh.
Qed.
End ConfigFacts.

(** ** Which handlers a notification reaches *)

Section DispatchFacts2.
Context {P : Type} {PI : IPlugin P}.
Variable std_sort :
  list (PluginPriority * IEventHandler) -> list (PluginPriority * IEventHandler).
Hypothesis Hperm : forall l, Permutation (std_sort l) l.

Lemma prioritizedHandlers_complete (m : @PluginManager P) hs k h p :
  In (k, h) hs -> GetPlugin m k = Some p -> GetState p = RUNNING ->
  In (priority (GetInfo p), h) (prioritizedHandlers m hs).
Proof.
  intros Hin Ep Es. induction hs as [|[k' h'] hs IH]; [destruct Hin|].
  simpl. destruct Hin as [[= -> ->]|Hin].
  - rewrite Ep, Es. simpl. now left.
  - specialize (IH Hin). destruct (GetPlugin m k') as [q|]; [|assumption].
    destruct (state_eqb (GetState q) RUNNING); [now right | assumption].
Qed.

Lemma dispatched_iff (m : @PluginManager P) h :
  NoDup (Table.keys (_eventHandlers m)) ->
  (In h (GetEventHandlersByPriority std_sort m) <->
   exists k, Table.find k (_eventHandlers m) = Some h /\
             is_running m k = true).
Proof.
  intros Hnd. unfold GetEventHandlersByPriority. split.
  - intros Hin. apply in_map_iff in Hin. destruct Hin as ([pr h'] & E & Hin).
    simpl in E. subst h'.
    apply (Permutation_in _ (Hperm _)) in Hin.
    apply prioritizedHandlers_In in Hin.
    destruct Hin as (k & p & Hk & Ep & Es & _).
    exists k. split; [now apply find_In_iff|].
    unfold is_running. rewrite Ep, Es. reflexivity.
  - intros (k & Ek & Hr). unfold is_running in Hr.
    destruct (GetPlugin m k) as [p|] eqn:Ep; [|discriminate].
    apply state_eqb_eq in Hr.
    apply in_map_iff. exists (priority (GetInfo p), h). split; [reflexivity|].
    apply (Permutation_in _ (Permutation_sym (Hperm _))).
    apply prioritizedHandlers_complete with (k := k); auto.
    eapply find_Some_In; eassumption.
Qed.
End DispatchFacts2.

Section Registration.
Context {P : Type} {PI : IPlugin P}.
Variable slot : string -> list string -> nat.

(** X20. The registration calls decide who is notified.  With handler
    keys that are unique (as in every state the manager can be in) and a
    sort that returns a permutation: after
    [RegisterEventHandler(n, h)] the handlers that a notification reaches
    are [h], if the plugin [n] is running, and the handlers bound under
    other names of running plugins, so a handler bound under [n] before
    is replaced; after [UnregisterEventHandler(n)] they are the handlers
    bound under other names of running plugins. *)
Theorem registration_decides_dispatch
    (std_sort : list (PluginPriority * IEventHandler) ->
                list (PluginPriority * IEventHandler))
    (m : @PluginManager P) (n : string) (h : IEventHandler) :
  (forall l, Permutation (std_sort l) l) ->
  NoDup (Table.keys (_eventHandlers m)) ->
  (forall h',
     In h' (GetEventHandlersByPriority std_sort
              (RegisterEventHandler slot n h m)) <->
     (h' = h /\ is_running m n = true) \/
     (exists k, k <> n /\ Table.find k (_eventHandlers m) = Some h' /\
                is_running m k = true)) /\
  (forall h',
     In h' (GetEventHandlersByPriority std_sort
              (UnregisterEventHandler n m)) <->
     exists k, k <> n /\ Table.find k (_eventHandlers m) = Some h' /\
               is_running m k = true).
Proof.
  intros Hperm Hnd. split; intros h'.
  - rewrite (@dispatched_iff _ _ std_sort Hperm).
    2:{ simpl. now apply NoDup_keys_assign. }
    simpl. split.
    + intros (k & Ek & Hr). destruct (String.eqb_spec k n) as [->|N].
      * rewrite find_assign_same in Ek. injection Ek as <-. now left.
      * rewrite find_assign_other in Ek by assumption. right. now exists k.
    + intros [(-> & Hr)|(k & N & Ek & Hr)].
      * exists n. split; [apply find_assign_same | exact Hr].
      * exists k. split; [now rewrite find_assign_other | exact Hr].
  - rewrite (@dispatched_iff _ _ std_sort Hperm).
    2:{ simpl. now apply NoDup_keys_erase. }
    simpl. split.
    + intros (k & Ek & Hr). destruct (String.eqb_spec k n) as [->|N].
      * now rewrite find_erase_same in Ek.
      * rewrite find_erase_other in Ek by assumption. now exists k.
    + intros (k & N & Ek & Hr). exists k.
      split; [now rewrite find_erase_other | exact Hr].
Qed.
End Registration.


(** ** Calls on one plugin leave the others alone *)

Section Locality.
Context {P : Type} {PI : IPlugin P}.
Variable slot : string -> list string -> nat.
Implicit Types (m : @PluginManager P).

Lemma LoadPlugin_calls_loaded pf path m k :
  Table.find k (_loadedPlugins m) <> None ->
  calls_of k (_trace (snd (LoadPlugin slot pf path m)))
  = calls_of k (_trace m).
Proof.
  intros Hk. unfold LoadPlugin, LoadPluginLibrary.
  destruct (fs_exists pf path); simpl; [|reflexivity].
  destruct (dl_open pf path) as [lib|]; simpl; [|reflexivity].
  destruct (lib_CreatePlugin lib) as [[p|]|]; simpl;
    try (rewrite !calls_of_app; simpl; now rewrite !app_nil_r).
  destruct (String.eqb (name (GetInfo p)) ""); simpl;
    try (rewrite !calls_of_app; simpl; now rewrite !app_nil_r).
  destruct (String.eqb (version (GetInfo p)) ""); simpl;
    try (rewrite !calls_of_app; simpl; now rewrite !app_nil_r).
  destruct (Table.find (name (GetInfo p)) (_loadedPlugins m)) eqn:Ef; simpl;
    try (rewrite !calls_of_app; simpl; now rewrite !app_nil_r).
  assert (N : String.eqb (name (GetInfo p)) k = false).
  { apply String.eqb_neq. intros E. rewrite E in Ef. contradiction. }
  destruct (Load p) as [[|] p']; simpl;
    rewrite !calls_of_app; simpl; rewrite N; simpl; now rewrite !app_nil_r.
Qed.

(** X22. A call that concerns one plugin leaves the others alone.  In
    a state the manager can be in: [LoadPlugin] keeps the instance of
    every plugin that is loaded and makes no lifecycle call on it, and
    keeps every handler binding; [UnloadPlugin] and [InitializePlugin] of
    the name [n] keep, for every other name, the instance and the handler
    binding, and make no lifecycle call on it. *)
Theorem calls_on_one_plugin_are_local m n k :
  reachable slot m -> k <> n ->
  (forall pf path p,
     GetPlugin m k = Some p ->
     GetPlugin (snd (LoadPlugin slot pf path m)) k = Some p /\
     Table.find k (_eventHandlers (snd (LoadPlugin slot pf path m)))
     = Table.find k (_eventHandlers m) /\
     calls_of k (_trace (snd (LoadPlugin slot pf path m)))
     = calls_of k (_trace m)) /\
  (GetPlugin (snd (UnloadPlugin n m)) k = GetPlugin m k /\
   Table.find k (_eventHandlers (snd (UnloadPlugin n m)))
   = Table.find k (_eventHandlers m) /\
   calls_of k (_trace (snd (UnloadPlugin n m))) = calls_of k (_trace m)) /\
  (GetPlugin (snd (InitializePlugin slot n m)) k = GetPlugin m k /\
   Table.find k (_eventHandlers (snd (InitializePlugin slot n m)))
   = Table.find k (_eventHandlers m) /\
   calls_of k (_trace (snd (InitializePlugin slot n m)))
   = calls_of k (_trace m)).
Proof.
  intros Hr N. pose proof (reachable_inv Hr) as Hinv.
  assert (Nb : String.eqb n k = false)
    by (apply String.eqb_neq; congruence).
  split; [|split].
  - intros pf path p Ep.
    destruct (LoadPlugin_keeps slot pf path m) as (K1 & _ & K3 & _).
    split; [now apply K1|]. split; [now rewrite K3|].
    apply LoadPlugin_calls_loaded.
    apply GetPlugin_find in Ep. destruct Ep as (lp & -> & _). discriminate.
  - destruct (UnloadPlugin_shape n Hinv)
      as [(_ & ->)|(lp & p & h & E & Ep & Eh & ->)]; [now repeat split|].
    simpl. unfold GetPlugin. simpl.
    rewrite !find_erase_other by assumption.
    split; [reflexivity|]. split; [reflexivity|].
    rewrite !calls_of_app. simpl. rewrite Nb.
    destruct (state_eqb (GetState p) RUNNING); simpl; rewrite ?Nb;
      simpl; now rewrite !app_nil_r.
  - destruct (InitializePlugin_shape slot n m)
      as [->|(lp & p & E & Ep & _ & ->)]; [now repeat split|].
    simpl. unfold GetPlugin. simpl.
    rewrite find_replace_other by assumption.
    split; [reflexivity|]. split.
    + destruct (fst (Initialize p)); [|reflexivity].
      destruct (GetEventHandler (snd (Initialize p))); [|reflexivity].
      now apply find_assign_other.
    + rewrite calls_of_app. simpl. rewrite Nb. now rewrite app_nil_r.
Qed.
End Locality.

Section ResultOfResolve.
Context {P : Type} {PI : IPlugin P}.
Variable m : @PluginManager P.

(** X23. What the result of [ResolveDependencies] means, on any graph.
    When a call on [n] returns, with a vector in which dependencies stand
    in front, it returns [true] exactly when every dependency of [n],
    direct or transitive, is registered; then [n] is the last element of
    the vector.  Whatever it returns, the vector was only appended to,
    and everything appended is a plugin whose dependencies are all
    registered (after [false], what was resolved before the missing
    dependency stays in the vector). *)
Theorem ResolveDependencies_result fuel n lo r :
  ResolveDependencies fuel m n lo = Some r ->
  deps_in_front m lo ->
  (fst r = true <-> resolvable m n) /\
  (fst r = true -> exists l, snd r = l ++ [n]) /\
  (exists new, snd r = lo ++ new /\ forall x, In x new -> resolvable m x).
Proof.
  intros E Hlo.
  destruct (@ResolveDependencies_NoDup _ _ m fuel n lo r E)
    as (((new & En) & Hk & Hin) & _ & Hend).
  specialize (Hk Hlo).
  split; [|split].
  - split.
    + intros Ht. eapply deps_in_front_resolvable; [exact Hk|]. now apply Hin.
    + intros Hr. eapply ResolveDependencies_resolvable; eassumption.
  - exact Hend.
  - exists new. split; [exact En|].
    intros x Hx. eapply deps_in_front_resolvable; [exact Hk|].
    rewrite En. apply in_or_app. now right.
Qed.
End ResultOfResolve.

(** ** The properties above on the example managers *)

Lemma solo_running_reachable : reachable ordered_slot solo_running.
Proof.
  exists [OLoad solo_platform "solo.so"; OInitialize "solo"; OStartAll].
  reflexivity.
Defined.

Lemma solo_stopped_reachable : reachable ordered_slot solo_stopped.
Proof.
  exists [OLoad solo_platform "solo.so"; OInitialize "solo"; OStartAll;
          OStopAll].
  reflexivity.
Defined.

Lemma three_manager_reachable : reachable ordered_slot three_manager.
Proof. exists three_ops. reflexivity. Defined.

Lemma reachable_manager_is_consistent_witness :
  reachable ordered_slot solo_running /\
  NoDup (GetLoadedPluginNames solo_running) /\
  count is_dlopen (_trace solo_running)
  = count is_dlclose (_trace solo_running)
    + List.length (GetLoadedPluginNames solo_running).
Proof.
  destruct (@reachable_manager_is_consistent _ ExamplePlugin_IPlugin
              ordered_slot solo_running solo_running_reachable)
    as (H1 & _ & _ & H4).
  split; [exact solo_running_reachable|]. split; assumption.
Defined.

Lemma LoadPlugin_failure_leaves_no_residue_witness :
  fst (LoadPlugin ordered_slot solo_platform "absent.so" solo_running) = false /\
  _loadedPlugins (snd (LoadPlugin ordered_slot solo_platform "absent.so"
                         solo_running))
  = _loadedPlugins solo_running /\
  _lastError (snd (LoadPlugin ordered_slot solo_platform "absent.so"
                     solo_running)) <> "".
Proof.
  destruct (@LoadPlugin_failure_leaves_no_residue _ ExamplePlugin_IPlugin
              ordered_slot solo_platform "absent.so" solo_running eq_refl)
    as (H1 & _ & H3 & _).
  split; [reflexivity|]. split; assumption.
Defined.

Lemma LoadPlugin_success_registers_one_witness :
  fst (LoadPlugin ordered_slot solo_platform "mute.so" solo_running) = true /\
  exists p p',
    name (GetInfo p) <> "" /\ Load p = (true, p') /\
    GetPlugin (snd (LoadPlugin ordered_slot solo_platform "mute.so"
                      solo_running)) (name (GetInfo p)) = Some p'.
Proof.
  destruct (@LoadPlugin_success_registers_one _ ExamplePlugin_IPlugin
              ordered_slot solo_platform "mute.so" solo_running eq_refl)
    as (p & p' & H1 & _ & _ & H4 & H5 & _).
  split; [reflexivity|]. exists p, p'. split; [|split]; assumption.
Defined.


Lemma reachable_handles_are_accounted_witness :
  reachable ordered_slot solo_running /\
  Permutation (opened_handles (_trace solo_running))
              (closed_handles (_trace solo_running)
               ++ held_handles (_loadedPlugins solo_running)).
Proof.
  split; [exact solo_running_reachable|].
  exact (proj1 (@reachable_handles_are_accounted _ ExamplePlugin_IPlugin
                  ordered_slot solo_running solo_running_reachable)).
Defined.

Lemma instance_destroyed_after_dlclose_witness :
  reachable ordered_slot
    (snd (UnloadPlugin "solo" solo_running)) /\
  destroyed_after_close None
    (_trace (snd (UnloadPlugin "solo" solo_running))) = true.
Proof.
  assert (H : reachable ordered_slot (snd (UnloadPlugin "solo" solo_running))).
  { exists [OLoad solo_platform "solo.so"; OInitialize "solo"; OStartAll;
            OUnload "solo"].
    reflexivity. }
  split; [exact H|].
  exact (proj1 (@instance_destroyed_after_dlclose _ ExamplePlugin_IPlugin
                  ordered_slot _ H)).
Defined.


Lemma StopAllPlugins_silences_handlers_witness :
  (forall l, Permutation (insertion_sort by_priority l) l) /\
  _eventHandlers (StopAllPlugins three_manager) = _eventHandlers three_manager /\
  OnPlayerLogin (insertion_sort by_priority) first_throws
    (StopAllPlugins three_manager) 9 = ([], false).
Proof.
  destruct (@StopAllPlugins_silences_handlers (insertion_sort by_priority)
              first_throws three_manager 9 (insertion_sort_perm by_priority))
    as (H1 & _ & H3 & _).
  split; [exact (insertion_sort_perm by_priority)|]. split; assumption.
Defined.

Lemma chain_manager_graph : acyclic chain_manager /\ complete chain_manager.
Proof. apply (@graph_check_sound _ _ chain_manager chain_rank). reflexivity. Defined.


Lemma lifecycle_calls_follow_states_witness :
  reachable ordered_slot solo_stopped /\
  calls_of "solo" (_trace solo_stopped) = [MLoad; MInitialize; MStart; MStop] /\
  track_all UNLOADED (calls_of "solo" (_trace solo_stopped))
  = Some (extension_state solo_stopped "solo").
Proof.
  split; [exact solo_stopped_reachable|]. split; [reflexivity|].
  exact (proj1 (@lifecycle_calls_follow_states ordered_slot solo_stopped
                  "solo" solo_stopped_reachable)).
Defined.

Lemma GetPluginLoadOrder_returns_resolvable_witness :
  GetPluginLoadOrder 4 missing_manager = Some ["C"] /\
  (forall n, In n ["C"] <-> resolvable missing_manager n).
Proof.
  split; [reflexivity|].
  exact (proj2 (proj2 (@GetPluginLoadOrder_returns_resolvable
                         _ ExamplePlugin_IPlugin missing_manager 4 ["C"]
                         eq_refl))).
Defined.

Lemma mutual_manager_resolvable : resolvable mutual_manager "A".
Proof.
  assert (Hc : forall a b, edge mutual_manager a b ->
                           registered mutual_manager b).
  { intros a b He. apply edge_declared in He. simpl in He.
    destruct He as [[= <- <-]|[[= <- <-]|[]]]; unfold registered; simpl;
      discriminate. }
  intros y Hy.
  assert (G : forall x z, reaches mutual_manager x z ->
                          registered mutual_manager x ->
                          registered mutual_manager z).
  { intros x z H. induction H as [|x b z He _ IH]; [auto|].
    intros _. apply IH. eapply Hc; eassumption. }
  apply (G "A" y Hy). unfold registered. simpl. discriminate.
Defined.

Lemma GetPluginLoadOrder_cycle_never_returns_witness :
  (edge mutual_manager "A" "B" /\ reaches mutual_manager "B" "A" /\
   resolvable mutual_manager "A") /\
  GetPluginLoadOrder 1000 mutual_manager = None /\
  InitializeAllPlugins ordered_slot 1000 mutual_manager = None.
Proof.
  assert (Hab : edge mutual_manager "A" "B").
  { exists (example_plugin "A" ["B"] NORMAL None LOADED).
    split; [reflexivity | now left]. }
  assert (Hba : reaches mutual_manager "B" "A").
  { apply reaches_step with (b := "A"); [|apply reaches_refl].
    exists (example_plugin "B" ["A"] NORMAL None LOADED).
    split; [reflexivity | now left]. }
  split; [split; [exact Hab | split; [exact Hba | exact mutual_manager_resolvable]]|].
  exact (@GetPluginLoadOrder_cycle_never_returns _ ExamplePlugin_IPlugin
           mutual_manager ordered_slot "A" "B" Hab Hba
           mutual_manager_resolvable 1000).
Defined.


Lemma ExamplePlugin_counts_sessions_witness :
  _currentOnlinePlayers (fst (session_calls session_example
                                new_ExampleStatistics)) = 1%Z /\
  _totalLogins (fst (session_calls session_example new_ExampleStatistics))
  = 2%Z /\
  snd (session_calls session_example new_ExampleStatistics)
  = [(1, "Welcome to the server!"); (2, "Welcome to the server!")].
Proof.
  assert (H1 : (0 <= _totalLogins new_ExampleStatistics < 2 ^ 32)%Z)
    by (simpl; lia).
  assert (H2 : (Z.of_nat (List.length (login_players session_example))
                < 2 ^ 32)%Z) by reflexivity.
  exact (@ExamplePlugin_counts_sessions session_example new_ExampleStatistics
           eq_refl H1 H2).
Defined.

Lemma UpdateStatistics_on_wrapping_clock_witness :
  paced 6000 4294960000 [4294965000; 4294970000]%Z /\
  ideal_updates 10000 4294960000 [4294965000; 4294970000]%Z = 4294970000%Z /\
  _lastUpdateTime (world_updates 4294960000 [4294965000; 4294970000]%Z
                     late_statistics) = 2704%Z.
Proof.
  assert (Hp : paced 6000 4294960000 [4294965000; 4294970000]%Z)
    by (simpl; lia).
  split; [exact Hp|]. split; [reflexivity|].
  assert (H1 : (0 <= _updateInterval late_statistics)%Z) by (simpl; lia).
  assert (H2 : (0 <= 6000 < 2 ^ 32)%Z) by lia.
  assert (H3 : (_updateInterval late_statistics + 6000 <= 2 ^ 32)%Z)
    by (simpl; lia).
  exact (proj1 (@UpdateStatistics_on_wrapping_clock 6000 4294960000
                  [4294965000; 4294970000]%Z late_statistics
                  H1 H2 H3 eq_refl Hp)).
Defined.

Lemma registration_decides_dispatch_witness :
  NoDup (Table.keys (_eventHandlers three_manager)) /\
  GetEventHandlersByPriority (insertion_sort by_priority)
    (RegisterEventHandler ordered_slot "a" 8 three_manager) = [8; 3; 2] /\
  (In 1 (GetEventHandlersByPriority (insertion_sort by_priority)
           (RegisterEventHandler ordered_slot "a" 8 three_manager)) <->
   (1 = 8 /\ is_running three_manager "a" = true) \/
   (exists k, k <> "a" /\
              Table.find k (_eventHandlers three_manager) = Some 1 /\
              is_running three_manager k = true)).
Proof.
  pose proof (inv_handler_keys (reachable_inv three_manager_reachable)) as Hnd.
  split; [exact Hnd|]. split; [reflexivity|].
  exact (proj1 (@registration_decides_dispatch _ ExamplePlugin_IPlugin
                  ordered_slot (insertion_sort by_priority) three_manager
                  "a" 8 (insertion_sort_perm by_priority) Hnd) 1).
Defined.

Lemma served_manager_graph : acyclic served_manager /\ complete served_manager.
Proof.
  apply (@graph_check_sound _ _ served_manager served_rank). reflexivity.
Defined.


Lemma calls_on_one_plugin_are_local_witness :
  reachable ordered_slot three_manager /\
  GetPlugin (snd (UnloadPlugin "a" three_manager)) "b"
  = GetPlugin three_manager "b" /\
  calls_of "b" (_trace (snd (UnloadPlugin "a" three_manager)))
  = calls_of "b" (_trace three_manager).
Proof.
  assert (N : "b" <> "a") by discriminate.
  destruct (@calls_on_one_plugin_are_local _ ExamplePlugin_IPlugin
              ordered_slot three_manager "a" "b" three_manager_reachable N)
    as (_ & (H1 & _ & H3) & _).
  split; [exact three_manager_reachable|]. split; assumption.
Defined.

Lemma ResolveDependencies_result_witness :
  ResolveDependencies 3 missing_manager "B" [] = Some (false, []) /\
  (false = true <-> resolvable missing_manager "B").
Proof.
  split; [reflexivity|].
  exact (proj1 (@ResolveDependencies_result _ ExamplePlugin_IPlugin
                  missing_manager 3 "B" [] (false, []) eq_refl
                  (@deps_in_front_nil _ _ missing_manager))).
Defined.
